(** * iptree: a memory-bounded binary radix counter over IP addresses

    A shallow embedding of [src/src/iptree.h] (class template [iptreet],
    its [node] class, the insertion-path cache, the prune selector, the
    histogram walker and the pair tree [ip2tree]) together with the
    properties of it that are verified here.

    Conventions of the embedding:
    - [TYPE] is [uint64_t]; a value is a [Z] and every [+=] on it is written
      with its wrap-around ([tadd]).  [size_t] and [uint64_t] counters are
      [Z] wrapped by [u64].
    - a [node *] that may be 0 is an [option]; a pointer to a node that is
      kept outside of the tree (in the cache, in a [best]) is the path of
      child selections leading to the node ([false] for [ptr0], [true] for
      [ptr1]).  The [parent] back link is the enclosing node.
    - a byte buffer is a [list Z].
    - code that can stop abnormally (a failed [assert], a dereferenced null
      pointer) returns a [result]. *)

From Stdlib Require Import ZArith List Bool Lia String Ascii.
Import ListNotations.
Local Open Scope Z_scope.
Local Open Scope bool_scope.

(** ** Abnormal termination *)

Inductive fault : Type :=
| NullDeref      (* a member was called through a null pointer *)
| AssertFailed   (* an [assert] did not hold *)
| Dangling       (* a stored node pointer does not name a live node *)
| OutOfFuel.     (* the bound given to a [while] loop was too small *)

Inductive result (A : Type) : Type :=
| Ok (a : A)
| Err (f : fault).

Arguments Ok {A} a.
Arguments Err {A} f.

Definition bind {A B : Type} (r : result A) (k : A -> result B) : result B :=
  match r with
  | Ok a => k a
  | Err f => Err f
  end.

Notation "x <- r ;; k" := (bind r (fun x => k))
  (at level 61, r at next level, right associativity).
Notation "' p <- r ;; k" := (bind r (fun p => k))
  (at level 61, p pattern, r at next level, right associativity).

(** ** Machine arithmetic *)

Definition two64 : Z := 2 ^ 64.

(** wrap-around of [size_t] and [uint64_t] *)
Definition u64 (x : Z) : Z := x mod two64.

(** [a += b] on [TYPE = uint64_t] *)
Definition tadd (a b : Z) : Z := u64 (a + b).

(** ** Addresses: [bit] and [setbit] *)

Definition path := list bool.

(** [addr[i]] *)
Definition byte_at (addr : list Z) (i : Z) : Z := nth (Z.to_nat i) addr 0.

(** [1<<((7-i)&7)] *)
Definition bitmask (i : Z) : Z := Z.shiftl 1 (Z.land (7 - i) 7).

(** get the ith bit; 0 is the MSB *)
Definition bit (addr : list Z) (i : Z) : bool :=
  negb (Z.land (byte_at addr (i / 8)) (bitmask i) =? 0).

Fixpoint set_nth (n : nat) (f : Z -> Z) (l : list Z) : list Z :=
  match l with
  | [] => []
  | x :: l' =>
      match n with
      | O => f x :: l'
      | S n' => x :: set_nth n' f l'
      end
  end.

(** set the ith bit to 1; a byte index outside of the buffer (undefined in
    the source) leaves the buffer as it is *)
Definition setbit (addr : list Z) (i : Z) : list Z :=
  set_nth (Z.to_nat (i / 8)) (fun b => Z.lor b (bitmask i)) addr.

(** [memset(buf,0,n)] on a fresh buffer *)
Definition zeros (n : nat) : list Z := repeat 0 n.

(** [memcpy(dst,src,n)] *)
Definition memcpy (dst src : list Z) (n : nat) : list Z :=
  firstn n src ++ skipn n dst.

Fixpoint bytes_eqb (a b : list Z) : bool :=
  match a, b with
  | [], [] => true
  | x :: a', y :: b' => (x =? y) && bytes_eqb a' b'
  | _, _ => false
  end.

(** [memcmp(a,b,n)==0] *)
Definition memcmp0 (a b : list Z) (n : nat) : bool :=
  bytes_eqb (firstn n a) (firstn n b).

(** ** The node class *)

#[local] Unset Elimination Schemes.
Inductive node : Type :=
| Node (ptr0 ptr1 : option node) (tsum : Z) (dirty : bool).
#[local] Set Elimination Schemes.

Definition ptr0 (n : node) : option node := let 'Node p _ _ _ := n in p.
Definition ptr1 (n : node) : option node := let 'Node _ p _ _ := n in p.
Definition dirty (n : node) : bool := let 'Node _ _ _ d := n in d.

(** [node(node *p)] *)
Definition new_node : node := Node None None 0 false.

Definition is_some {A : Type} (o : option A) : bool :=
  match o with Some _ => true | None => false end.

Definition is_null {A : Type} (o : option A) : bool := negb (is_some o).

Definition children (n : node) : Z :=
  (if is_some (ptr0 n) then 1 else 0) + (if is_some (ptr1 n) then 1 else 0).

(** The nodesum is the sum of just the node. *)
Definition nodesum (n : node) : Z := let 'Node _ _ s _ := n in s.

(** a node is terminal if tsum>0 and both ptrs are 0. *)
Definition term (n : node) : bool :=
  (nodesum n >? 0) && is_null (ptr0 n) && is_null (ptr1 n).

(** [p && p->term()] *)
Definition ptr_term (p : option node) : bool :=
  match p with Some c => term c | None => false end.

(** The sum is the sum of this node and its children (if they exist) *)
Fixpoint sum (n : node) : Z :=
  match n with
  | Node p0 p1 s _ =>
      let s := match p0 with Some c => tadd s (sum c) | None => s end in
      match p1 with Some c => tadd s (sum c) | None => s end
  end.

(** Following a stored pointer: the node at the end of [p], if it is live. *)
Fixpoint deref (n : node) (p : path) {struct p} : option node :=
  match p with
  | [] => Some n
  | b :: p' =>
      match (if b then ptr1 n else ptr0 n) with
      | Some c => deref c p'
      | None => None
      end
  end.

(** Writing through a stored pointer: the tree with the node at the end of
    [p] replaced by [m]. *)
Fixpoint replace_at (n : node) (p : path) (m : node) {struct p} : node :=
  match p with
  | [] => m
  | b :: p' =>
      match n with
      | Node p0 p1 s d =>
          if b then
            Node p0 (match p1 with Some c => Some (replace_at c p' m) | None => None end) s d
          else
            Node (match p0 with Some c => Some (replace_at c p' m) | None => None end) p1 s d
      end
  end.

(** *** best describes the best node to prune *)

Record best : Type := mk_best {
  best_node : path;   (* the node, as a pointer from the node that was asked *)
  depth : Z
}.

(** the pointer [b.best_node], found below child [c], seen from the parent *)
Definition below (c : bool) (b : best) : best :=
  mk_best (c :: best_node b) (depth b).

(** [b.best_node->sum()] for a [best] that was computed on [n] *)
Definition best_sum (n : node) (b : best) : Z :=
  match deref n (best_node b) with
  | Some m => sum m
  | None => 0
  end.

(** The better to prune of two children is the one with a lower sum.
    If they are equal, it's the one that's deeper. *)
Definition better (ptr0_best : best) (ptr0_best_sum : Z)
                  (ptr1_best : best) (ptr1_best_sum : Z) : best :=
  if ptr0_best_sum <? ptr1_best_sum then ptr0_best
  else if ptr1_best_sum <? ptr0_best_sum then ptr1_best
  else if depth ptr0_best >? depth ptr1_best then ptr0_best
  else ptr1_best.

(** Return the best node to prune (the node with the leaves to remove) *)
Fixpoint best_to_prune (this : node) (my_depth : Z) : result best :=
  match this with
  | Node p0 p1 _ _ =>
      if term this then Err AssertFailed                                   (* case 1 *)
      else if ptr_term p0 && is_null p1 then Ok (mk_best [] my_depth)      (* case 2 *)
      else if ptr_term p1 && is_null p0 then Ok (mk_best [] my_depth)      (* case 2 *)
      else if ptr_term p0 && ptr_term p1 then Ok (mk_best [] my_depth)     (* case 2 *)
      else
        match p0, p1 with
        | Some c0, None =>                                                 (* case 3 *)
            b <- best_to_prune c0 (my_depth + 1) ;; Ok (below false b)
        | None, Some c1 =>                                                 (* case 3 *)
            b <- best_to_prune c1 (my_depth + 1) ;; Ok (below true b)
        | None, None => Err NullDeref              (* [ptr0->term()] with [ptr0==0] *)
        | Some c0, Some c1 =>
            if term c0 && negb (term c1) then                              (* case 4 *)
              b <- best_to_prune c1 (my_depth + 1) ;; Ok (below true b)
            else if term c1 && negb (term c0) then                         (* case 4 *)
              b <- best_to_prune c0 (my_depth + 1) ;; Ok (below false b)
            else                                                           (* case 5 *)
              ptr0_best <- best_to_prune c0 (my_depth + 1) ;;
              ptr1_best <- best_to_prune c1 (my_depth + 1) ;;
              Ok (better (below false ptr0_best) (best_sum c0 ptr0_best)
                         (below true ptr1_best) (best_sum c1 ptr1_best))
        end
  end.

(** Increment this node by the given amount.  The second component tells
    whether [set_dirty] goes on to the parent, which it does when the node
    was clean. *)
Definition node_add (n : node) (val : Z) : node * bool :=
  let 'Node p0 p1 s d := n in (Node p0 p1 (tadd s val) true, negb d).

(** [cache[i].ptr->add(val)]: [add] on the node a stored pointer names.
    [set_dirty] recurses to the root or the first dirty node. *)
Fixpoint add_at (n : node) (p : path) (val : Z) : result (node * bool) :=
  match p with
  | [] => Ok (node_add n val)
  | b :: p' =>
      let 'Node p0 p1 s d := n in
      match (if b then p1 else p0) with
      | None => Err Dangling
      | Some c =>
          '(c', up) <- add_at c p' val ;;
          Ok (if b then Node p0 (Some c') s (d || up)
              else Node (Some c') p1 s (d || up), up && negb d)
      end
  end.

(** The descent of [add] from [ptr] with [bits] address bits left: go down a
    level based on the next bit, extending if necessary, and increment the
    node at the end of the address.  Returns the node, how many nodes were
    created, whether [set_dirty] goes on above [ptr], and the pointer to the
    incremented node. *)
Fixpoint add_walk (bits : nat) (depth : Z) (addr : list Z) (val : Z) (ptr : node)
  : node * Z * bool * path :=
  match bits with
  | O =>                                        (* reached end of address *)
      let '(n, up) := node_add ptr val in (n, 0, up, [])
  | S bits' =>
      let 'Node p0 p1 s d := ptr in
      let b := bit addr depth in
      let '(c, made) :=
        match (if b then p1 else p0) with
        | Some c => (c, 0)
        | None => (new_node, 1)
        end in
      let '(c', created, up, p) := add_walk bits' (depth + 1) addr val c in
      (if b then Node p0 (Some c') s (d || up) else Node (Some c') p1 s (d || up),
       made + created, up && negb d, b :: p)
  end.

(** number of node objects of a subtree, the node itself included *)
Fixpoint node_count (n : node) : nat :=
  match n with
  | Node p0 p1 _ _ =>
      S ((match p0 with Some c => node_count c | None => O end) +
         (match p1 with Some c => node_count c | None => O end))
  end.

(** ** The tree *)

Record cache_element : Type := mk_cache_element {
  ce_addr : list Z;
  ce_ptr : option path          (* 0 means cache entry is not in use *)
}.

Record iptreet : Type := mk_iptreet {
  root : node;
  nodes : Z;                    (* nodes in tree *)
  maxnodes : Z;                 (* how many will we tolerate? *)
  ctr_added : Z;                (* how many were added *)
  pruned : Z;
  cache : list cache_element;
  cachenext : Z;                (* which cache element to evict next *)
  cache_hits : Z;
  cache_misses : Z
}.

Definition with_root (t : iptreet) (r : node) : iptreet :=
  mk_iptreet r (nodes t) (maxnodes t) (ctr_added t) (pruned t)
             (cache t) (cachenext t) (cache_hits t) (cache_misses t).

Definition cache_size : nat := 4.
Definition root_depth : Z := 0.
Definition max_histogram_depth : Z := 128.
Definition ipv4_bits : Z := 32.
Definition ipv6_bits : Z := 128.

Definition path_eqb (p q : path) : bool :=
  if list_eq_dec bool_dec p q then true else false.

Fixpoint cache_remove_from (c : list cache_element) (p : path) : list cache_element :=
  match c with
  | [] => []
  | e :: c' =>
      match ce_ptr e with
      | Some q =>
          if path_eqb q p then mk_cache_element (ce_addr e) None :: c'
          else e :: cache_remove_from c' p
      | None => e :: cache_remove_from c' p
      end
  end.

Fixpoint cache_search_from (c : list cache_element) (addr : list Z) (addrlen : nat)
  : option cache_element :=
  match c with
  | [] => None
  | e :: c' =>
      if is_some (ce_ptr e) && memcmp0 (ce_addr e) addr addrlen then Some e
      else cache_search_from c' addr addrlen
  end.

Fixpoint cache_set (i : nat) (f : cache_element -> cache_element)
                   (c : list cache_element) : list cache_element :=
  match c with
  | [] => []
  | e :: c' =>
      match i with
      | O => f e :: c'
      | S i' => e :: cache_set i' f c'
      end
  end.

Section IPTREET.

(** the number of bytes in the address *)
Variable ADDRBYTES : nat.

(** create an empty tree *)
Definition new_iptreet (maxnodes_ : Z) : iptreet :=
  mk_iptreet new_node 0 (u64 maxnodes_) 0 0
             (repeat (mk_cache_element (zeros ADDRBYTES) None) cache_size) 0 0 0.

(** size the tree; the number of nodes *)
Definition size (t : iptreet) : Z := nodes t.

(** sum the tree; the total number of adds that have been performed *)
Definition tree_sum (t : iptreet) : Z := sum (root t).

Definition cache_remove (p : path) (t : iptreet) : iptreet :=
  mk_iptreet (root t) (nodes t) (maxnodes t) (ctr_added t) (pruned t)
             (cache_remove_from (cache t) p) (cachenext t)
             (cache_hits t) (cache_misses t).

(** the element of the first matching slot (the source returns its index),
    or [None] for -1 *)
Definition cache_search (addr : list Z) (addrlen : nat) (t : iptreet)
  : option cache_element * iptreet :=
  match cache_search_from (cache t) addr addrlen with
  | Some e =>
      (Some e,
       mk_iptreet (root t) (nodes t) (maxnodes t) (ctr_added t) (pruned t)
                  (cache t) (cachenext t) (u64 (cache_hits t + 1)) (cache_misses t))
  | None =>
      (None,
       mk_iptreet (root t) (nodes t) (maxnodes t) (ctr_added t) (pruned t)
                  (cache t) (cachenext t) (cache_hits t) (u64 (cache_misses t + 1)))
  end.

Definition cache_replace (addr : list Z) (addrlen : nat) (ptr : path) (t : iptreet)
  : iptreet :=
  let next := u64 (cachenext t + 1) in
  let next := if next >=? Z.of_nat (List.length (cache t)) then 0 else next in
  mk_iptreet (root t) (nodes t) (maxnodes t) (ctr_added t) (pruned t)
             (cache_set (Z.to_nat next)
                        (fun e => mk_cache_element (memcpy (ce_addr e) addr addrlen) (Some ptr))
                        (cache t))
             next (cache_hits t) (cache_misses t).

(** *** pruning *)

(** one [if(ptrN){...}] block of [node::prune]: [tsum] is the running
    [tsum] of the pruned node, [at_] the pointer to the child *)
Definition prune_child (ptr : option node) (at_ : path) (st : Z * iptreet)
  : result (Z * iptreet) :=
  match ptr with
  | None => Ok st
  | Some c =>
      let '(tsum, tree) := st in
      if term c then                            (* only prune terminal nodes *)
        let tree := cache_remove at_ tree in    (* remove it from the cache *)
        Ok (tadd tsum (nodesum c),
            mk_iptreet (root tree) (u64 (nodes tree - 1)) (maxnodes tree)
                       (ctr_added tree) (u64 (pruned tree + 1))
                       (cache tree) (cachenext tree)
                       (cache_hits tree) (cache_misses tree))
      else Err AssertFailed
  end.

(** [this->prune(tree)] for the node [this] points to. *)
Definition node_prune (this : path) (tree : iptreet) : result (Z * iptreet) :=
  match deref (root tree) this with
  | None => Err Dangling
  | Some (Node p0 p1 s d) =>
      st <- prune_child p0 (this ++ [false]) (s, tree) ;;
      '(s', tree') <- prune_child p1 (this ++ [true]) st ;;
      Ok (1, with_root tree' (replace_at (root tree') this (Node None None s' d)))
  end.

(** prune the tree, starting at the root. Find the node to prune and then
    prune it.  (The [best_node] the selector returns is never 0, so the
    [return 0] after [if(tnode)] is not reached.) *)
Definition prune (t : iptreet) : result (Z * iptreet) :=
  if term (root t) then Ok (0, t)         (* terminal nodes can't be pruned *)
  else
    b <- best_to_prune (root t) root_depth ;;
    node_prune (best_node b) t.

(** the [while] loop of [prune_if_greater], run for at most [fuel] prunes *)
Fixpoint prune_while (fuel : nat) (t : iptreet) : result iptreet :=
  if nodes t >? u64 (maxnodes t * 9) / 10 then
    match fuel with
    | O => Err OutOfFuel
    | S fuel' =>
        '(r, t') <- prune t ;;
        if r =? 0 then Ok t' else prune_while fuel' t'
    end
  else Ok t.

(** Simple implementation to prune the table to 90% of limit if at limit.
    Every prune that does not end the loop deletes a node, so the number of
    node objects bounds the number of iterations. *)
Definition prune_if_greater (limit : Z) (t : iptreet) : result iptreet :=
  if nodes t >=? maxnodes t then prune_while (node_count (root t)) t
  else Ok t.

(** *** add *)

(** Add 'val' to the node associated with a particular ip address. *)
Definition add (addr : list Z) (addrlen : Z) (val : Z) (t : iptreet)
  : result iptreet :=
  t <- prune_if_greater (maxnodes t) t ;;
  let addrlen := if addrlen >? Z.of_nat ADDRBYTES then Z.of_nat ADDRBYTES else addrlen in
  let addr_bits := addrlen * 8 in
  (* check the cache first *)
  let '(i, t) := cache_search addr (Z.to_nat addrlen) t in
  match i with
  | Some e =>
      match ce_ptr e with
      | None => Err NullDeref
      | Some p =>
          '(r, _) <- add_at (root t) p val ;;
          Ok (with_root t r)
      end
  | None =>
      let '(r, created, _, ptr) := add_walk (Z.to_nat addr_bits) 0 addr val (root t) in
      let t := mk_iptreet r (u64 (nodes t + created)) (maxnodes t)
                          (u64 (ctr_added t + created)) (pruned t)
                          (cache t) (cachenext t) (cache_hits t) (cache_misses t) in
      Ok (cache_replace addr (Z.to_nat addrlen) ptr t)
  end.

(** *** histogram support *)

Record addr_elem : Type := mk_addr_elem {
  elem_addr : list Z;           (* maximum size address *)
  elem_depth : Z;               (* in bits; /depth *)
  count : Z
}.

(** the value of a [uint64_t] seen as an [int64_t] *)
Definition int64 (x : Z) : Z := (x + 2 ^ 63) mod two64 - 2 ^ 63.

(** [addr_elem(const uint8_t *addr_,uint8_t depth_,int64_t count_)] *)
Definition new_addr_elem (addr_ : list Z) (depth_ : Z) (count_ : Z) : addr_elem :=
  mk_addr_elem (memcpy (zeros ADDRBYTES) addr_ ADDRBYTES)
               (depth_ mod 256)
               (u64 (int64 count_)).

(** get a histogram of the tree, and starting at a particular node.
    The histogram is reported for every node that has a sum.
    Returns what the call appends to the histogram.  (At depth
    [8 * ADDRBYTES] the source's [setbit(addr1,depth)] addresses the byte
    after [addr1]; no node lies below that depth, and [addr1] is not read.) *)
Fixpoint get_histogram_from (depth : Z) (addr : list Z) (ptr : node) : list addr_elem :=
  let 'Node p0 p1 _ _ := ptr in
  (if nodesum ptr =? 0 then [] else [new_addr_elem addr depth (nodesum ptr)]) ++
  if depth >? max_histogram_depth then []       (* can't go deeper than this now *)
  else
    (* create address with 0 and 1 added *)
    let addr0 := memcpy (zeros ADDRBYTES) addr (Z.to_nat ((depth + 7) / 8)) in
    let addr1 := setbit (memcpy (zeros ADDRBYTES) addr (Z.to_nat ((depth + 7) / 8))) depth in
    (match p0 with Some c => get_histogram_from (depth + 1) addr0 c | None => [] end) ++
    (match p1 with Some c => get_histogram_from (depth + 1) addr1 c | None => [] end).

(** adds the histogram to the passed in vector *)
Definition get_histogram (t : iptreet) (histogram : list addr_elem) : list addr_elem :=
  histogram ++ get_histogram_from 0 (zeros ADDRBYTES) (root t).

End IPTREET.

(** ** output routines *)

Definition digit (n : Z) : ascii := ascii_of_nat (48 + Z.to_nat (n mod 10)).

Fixpoint digits (fuel : nat) (n : Z) (acc : string) : string :=
  match fuel with
  | O => acc
  | S fuel' =>
      let acc := String (digit n) acc in
      if n <? 10 then acc else digits fuel' (n / 10) acc
  end.

(** [snprintf(buf,sizeof(buf),"%d",n)]; an [int] has at most ten digits *)
Definition itos (n : Z) : string :=
  if n <? 0 then String "-"%char (digits 10 (- n) EmptyString)
  else digits 10 n EmptyString.

(** the value of a [size_t] passed where an [int] is expected *)
Definition to_int (x : Z) : Z := (x + 2 ^ 31) mod 2 ^ 32 - 2 ^ 31.

(** returns true if addr[4..15]==0 *)
Definition isipv4 (addr : list Z) (addrlen : Z) : bool :=
  if addrlen =? 4 then true
  else forallb (fun b => b =? 0) (firstn (Z.to_nat addrlen - 4) (skipn 4 addr)).

Definition ipv4 (a : list Z) : string :=
  (itos (byte_at a 0) ++ "." ++ itos (byte_at a 1) ++ "." ++
   itos (byte_at a 2) ++ "." ++ itos (byte_at a 3))%string.

Section OUTPUT.

(** [inet_ntop(AF_INET6,a,buf,sizeof(buf))] of the C library *)
Variable ipv6 : list Z -> string.

Definition ipstr (addr : list Z) (addrlen : Z) (depth : Z) : string :=
  if isipv4 addr addrlen then
    (ipv4 addr ++ (if (depth <? ipv4_bits)%Z then "/" ++ itos (to_int depth) else ""))%string
  else
    (ipv6 addr ++ (if (depth <? ipv6_bits)%Z then "/" ++ itos (to_int depth) else ""))%string.

End OUTPUT.

(** [addr_elem::is4] and [addr_elem::str] *)
Definition is4 (ADDRBYTES : nat) (e : addr_elem) : bool :=
  isipv4 (elem_addr e) (Z.of_nat ADDRBYTES).

Definition str (ipv6 : list Z -> string) (ADDRBYTES : nat) (e : addr_elem) : string :=
  ipstr ipv6 (elem_addr e) (Z.of_nat ADDRBYTES) (elem_depth e).

(** ** a structure for a pair of IP addresses *)

Module ip2tree.

Definition ADDRBYTES : nat := 32.

Fixpoint un_pair_loop (n : nat) (i : Z) (addr1 addr2 addr : list Z) : list Z * list Z :=
  match n with
  | O => (addr1, addr2)
  | S n' =>
      let addr1 := if bit addr (i * 2) then setbit addr1 i else addr1 in
      let addr2 := if bit addr (i * 2 + 1) then setbit addr2 i else addr2 in
      un_pair_loop n' (i + 1) addr1 addr2 addr
  end.

(** de-interleave a pair of addresses: returns [addr1], [addr2], [*depth1]
    and [*depth2] *)
Definition un_pair (addr1 addr2 : list Z) (addr12len : Z)
                   (addr : list Z) (addrlen : Z) (depth : Z)
  : list Z * list Z * Z * Z :=
  let '(addr1, addr2) :=
    un_pair_loop (Z.to_nat (u64 (addrlen * 8) / 2)) 0 addr1 addr2 addr in
  (addr1, addr2, u64 (depth + 1) / 2, depth / 2).

Fixpoint interleave_loop (n : nat) (i : Z) (addr1 addr2 addr : list Z) : list Z :=
  match n with
  | O => addr
  | S n' =>
      let addr := if bit addr1 i then setbit addr (i * 2) else addr in
      let addr := if bit addr2 i then setbit addr (i * 2 + 1) else addr in
      interleave_loop n' (i + 1) addr1 addr2 addr
  end.

(** the buffer [addr] that [add_pair] builds: interleave on the bit by bit
    level *)
Definition interleave (addr1 addr2 : list Z) (addrlen : Z) : list Z :=
  interleave_loop (Z.to_nat (u64 (addrlen * 8))) 0 addr1 addr2 (zeros 32).

(** Add a pair of addresses by interleaving them *)
Definition add_pair (addr1 addr2 : list Z) (addrlen : Z) (val : Z) (t : iptreet)
  : result iptreet :=
  add ADDRBYTES (interleave addr1 addr2 addrlen) (u64 (addrlen * 2)) val t.

(** str requires more work *)
Definition ip2str (ipv6 : list Z -> string) (addr : list Z) (addrlen : Z) (depth : Z)
  : string :=
  let '(addr1, addr2, depth1, depth2) :=
    un_pair (zeros 16) (zeros 16) 16 addr addrlen depth in
  (ipstr ipv6 addr1 16 depth1 ++ " " ++ ipstr ipv6 addr2 16 depth2)%string.

End ip2tree.

(** simple tree for counting *)
Module iptree.
Definition ADDRBYTES : nat := 16.
End iptree.

(** ** The public interface as a sequence of calls *)

Inductive op : Type :=
| Add (addr : list Z) (addrlen : Z) (val : Z)
| Prune
| PruneIfGreater (limit : Z).

Definition step (ADDRBYTES : nat) (t : iptreet) (o : op) : result iptreet :=
  match o with
  | Add addr addrlen val => add ADDRBYTES addr addrlen val t
  | Prune => '(_, t') <- prune t ;; Ok t'
  | PruneIfGreater limit => prune_if_greater limit t
  end.

Fixpoint run (ADDRBYTES : nat) (ops : list op) (t : iptreet) : result iptreet :=
  match ops with
  | [] => Ok t
  | o :: ops' => t' <- step ADDRBYTES t o ;; run ADDRBYTES ops' t'
  end.

(** the sum, in [TYPE], of the weights supplied to [add] *)
Fixpoint weights (ops : list op) : Z :=
  match ops with
  | [] => 0
  | Add _ _ val :: ops' => tadd val (weights ops')
  | _ :: ops' => weights ops'
  end.

(** ** Notions used by the properties *)

(** the sum of the [tsum] fields of a subtree, computed in the integers *)
Fixpoint msum (n : node) : Z :=
  match n with
  | Node p0 p1 s _ =>
      s + (match p0 with Some c => msum c | None => 0 end)
        + (match p1 with Some c => msum c | None => 0 end)
  end.

(** every [tsum] of the subtree is a value of [uint64_t] *)
Fixpoint ranged (n : node) : Prop :=
  match n with
  | Node p0 p1 s _ =>
      0 <= s < two64 /\
      (match p0 with Some c => ranged c | None => True end) /\
      (match p1 with Some c => ranged c | None => True end)
  end.

(** number of levels below a node *)
Fixpoint height (n : node) : nat :=
  match n with
  | Node p0 p1 _ _ =>
      Nat.max (match p0 with Some c => S (height c) | None => O end)
              (match p1 with Some c => S (height c) | None => O end)
  end.

(** a node whose children can be collapsed into it: it has a child and every
    child it has is terminal *)
Definition candidate (n : node) : bool :=
  match ptr0 n, ptr1 n with
  | None, None => false
  | Some c0, None => term c0
  | None, Some c1 => term c1
  | Some c0, Some c1 => term c0 && term c1
  end.

(** every node without children is terminal *)
Fixpoint leaves_term (n : node) : bool :=
  match n with
  | Node None None s _ => s >? 0
  | Node p0 p1 _ _ =>
      (match p0 with Some c => leaves_term c | None => true end) &&
      (match p1 with Some c => leaves_term c | None => true end)
  end.

(** the sum, in [TYPE], of the counts of a histogram *)
Definition hist_sum (h : list addr_elem) : Z :=
  fold_right (fun e acc => tadd (count e) acc) 0 h.

(** [add] as it would be with a cache of no slots: every lookup is a miss
    and nothing is stored *)
Definition add_uncached (ADDRBYTES : nat) (addr : list Z) (addrlen : Z) (val : Z)
                        (t : iptreet) : result iptreet :=
  t <- prune_if_greater (maxnodes t) t ;;
  let addrlen := if addrlen >? Z.of_nat ADDRBYTES then Z.of_nat ADDRBYTES else addrlen in
  let addr_bits := addrlen * 8 in
  let '(r, created, _, _) := add_walk (Z.to_nat addr_bits) 0 addr val (root t) in
  Ok (mk_iptreet r (u64 (nodes t + created)) (maxnodes t)
                 (u64 (ctr_added t + created)) (pruned t)
                 (cache t) (cachenext t) (cache_hits t) (u64 (cache_misses t + 1))).

(** the [tsum] of every node of a subtree with the pointer to the node, in
    preorder *)
Fixpoint node_counts (n : node) : list (path * Z) :=
  match n with
  | Node p0 p1 s _ =>
      ([], s) ::
      (match p0 with
       | Some c => map (fun e => (false :: fst e, snd e)) (node_counts c)
       | None => []
       end) ++
      (match p1 with
       | Some c => map (fun e => (true :: fst e, snd e)) (node_counts c)
       | None => []
       end)
  end.

(** [add] with a cache of no slots over a sequence of calls *)
Definition step_uncached (ADDRBYTES : nat) (t : iptreet) (o : op) : result iptreet :=
  match o with
  | Add addr addrlen val => add_uncached ADDRBYTES addr addrlen val t
  | Prune => '(_, t') <- prune t ;; Ok t'
  | PruneIfGreater limit => prune_if_greater limit t
  end.

Fixpoint run_uncached (ADDRBYTES : nat) (ops : list op) (t : iptreet) : result iptreet :=
  match ops with
  | [] => Ok t
  | o :: ops' => t' <- step_uncached ADDRBYTES t o ;; run_uncached ADDRBYTES ops' t'
  end.

(** the pointer the descent of [add] ends at when it starts at bit [depth]
    and follows [bits] bits *)
Definition walk_path (addr : list Z) (depth : Z) (bits : nat) : path :=
  map (fun i => bit addr (depth + Z.of_nat i)) (seq 0 bits).

(** the pointer to the node of the first [bits] bits of [addr] *)
Definition prefix_path (addr : list Z) (bits : nat) : path :=
  walk_path addr 0 bits.

(** the [tsum] of the node a pointer names *)
Definition nodesum_at (t : iptreet) (p : path) : option Z :=
  option_map nodesum (deref (root t) p).

(** a histogram as triples of address, depth and count *)
Definition entries (h : list addr_elem) : list (list Z * Z * Z) :=
  map (fun e => (elem_addr e, elem_depth e, count e)) h.

(** the tree a sequence of calls leaves; the empty tree if a call fails *)
Definition tree_after (ADDRBYTES : nat) (maxnodes_ : Z) (ops : list op) : iptreet :=
  match run ADDRBYTES ops (new_iptreet ADDRBYTES maxnodes_) with
  | Ok t => t
  | Err _ => new_iptreet ADDRBYTES maxnodes_
  end.

(** ** Concrete trees *)

(** [DEFAULT_MAX_HISTOGRAM_SIZE] of [scan_netviz.cpp] *)
Definition DEFAULT_MAX_HISTOGRAM_SIZE : Z := 1000000.

(** 10.0.0.1 inserted with weight 100 and 10.0.0.2 with weight 1 *)
Definition scenario4_ops : list op :=
  [Add [10; 0; 0; 1] 4 100; Add [10; 0; 0; 2] 4 1].

Definition scenario4_tree : iptreet :=
  Eval vm_compute in tree_after 16 DEFAULT_MAX_HISTOGRAM_SIZE scenario4_ops.

(** the same tree after one [prune()] *)
Definition scenario4_pruned : iptreet :=
  Eval vm_compute in
    match prune scenario4_tree with
    | Ok (_, t) => t
    | Err _ => scenario4_tree
    end.

(** a sequence of calls that mixes the three operations *)
Definition mixed_ops : list op :=
  [Add [1; 2; 3; 4] 4 5; Prune; Add [1; 2; 3; 5] 4 7; PruneIfGreater 3;
   Add [1; 2; 3; 4] 4 2].

Definition mixed_tree : iptreet :=
  Eval vm_compute in tree_after 16 40 mixed_ops.

(** an IPv6 address whose first four bytes are 1.2.3.4, then the IPv4
    address 1.2.3.4 *)
Definition mixed_family_ops : list op :=
  [Add [1; 2; 3; 4; 5; 0; 0; 0; 0; 0; 0; 0; 0; 0; 0; 0] 16 1;
   Add [1; 2; 3; 4] 4 1].

(** 1.2.3.4, then a key of length zero *)
Definition zero_length_ops : list op :=
  [Add [1; 2; 3; 4] 4 1; Add [] 0 5].

(** a pair of 16-byte addresses in a pair tree *)
Definition pair_tree : iptreet :=
  Eval vm_compute in
    match ip2tree.add_pair (repeat 1 16) (repeat 2 16) 16 1
            (new_iptreet ip2tree.ADDRBYTES DEFAULT_MAX_HISTOGRAM_SIZE) with
    | Ok t => t
    | Err _ => new_iptreet ip2tree.ADDRBYTES DEFAULT_MAX_HISTOGRAM_SIZE
    end.

(** a tree with a ceiling of 10 nodes after one key of 32 bits, and the
    same tree after [prune_if_greater] *)
Definition crowded_ops : list op := [Add [1; 2; 3; 4] 4 5].

Definition crowded_tree : iptreet :=
  Eval vm_compute in tree_after 16 10 crowded_ops.

Definition crowded_pruned : iptreet :=
  Eval vm_compute in
    match prune_if_greater 0 crowded_tree with
    | Ok t => t
    | Err _ => crowded_tree
    end.

(** the address of the family the renderer chooses, and its width *)
Definition rendered (ipv6 : list Z -> string) (addr : list Z) (addrlen : Z) : string :=
  if isipv4 addr addrlen then ipv4 addr else ipv6 addr.

Definition family_bits (addr : list Z) (addrlen : Z) : Z :=
  if isipv4 addr addrlen then ipv4_bits else ipv6_bits.

(** ** Notions used by the proofs *)

(** equality of two integers as values of [uint64_t] *)
Definition eqm (x y : Z) : Prop := u64 x = u64 y.

(** what [node::prune] does to the node it is called on *)
Definition pruned_node (n : node) : node :=
  let 'Node p0 p1 s d := n in
  let s := match p0 with Some c => tadd s (nodesum c) | None => s end in
  let s := match p1 with Some c => tadd s (nodesum c) | None => s end in
  Node None None s d.

(** the invariant of the totals: the root's sum is [W] in [TYPE] *)
Definition conserves (t : iptreet) (W : Z) : Prop :=
  ranged (root t) /\ eqm (msum (root t)) W.

(** [b], computed on [n] at depth [d], names a candidate of least sum and,
    among the candidates of that sum, of greatest depth *)
Definition selects (n : node) (d : Z) (b : best) : Prop :=
  exists m,
    deref n (best_node b) = Some m /\
    candidate m = true /\
    depth b = d + Z.of_nat (List.length (best_node b)) /\
    forall q m', deref n q = Some m' -> candidate m' = true ->
      sum m <= sum m' /\
      (sum m' = sum m -> d + Z.of_nat (List.length q) <= depth b).

(** the values of [uint8_t] *)
Definition is_byte (b : Z) : Prop := 0 <= b < 256.

(** bit [j] of an interleaved buffer comes from [a1] when [j] is even and
    from [a2] when it is odd *)
Definition pick (a1 a2 : list Z) (j : Z) : bool :=
  if Z.even j then bit a1 (j / 2) else bit a2 (j / 2).

(** a call ended normally or by reading through a null pointer in the
    selector *)
Definition ok_or_null {A : Type} (r : result A) : Prop :=
  match r with
  | Ok _ => True
  | Err NullDeref => True
  | Err _ => False
  end.

(** the pointer [q] names a live node of the subtree *)
Definition live (n : node) (q : path) : bool := is_some (deref n q).

(** the pointers stored in the cache *)
Definition cache_ptrs (c : list cache_element) : list path :=
  flat_map (fun e => match ce_ptr e with Some p => [p] | None => [] end) c.

(** the first bytes of the key of slot [e] spell the pointer [p] *)
Definition key_of (e : cache_element) (p : path) : Prop :=
  exists k : nat, (k <= List.length (ce_addr e))%nat /\
                  p = prefix_path (ce_addr e) (8 * k).

(** coherence of the cache: four slots, no node stored twice, and every
    stored pointer names a live node that the key of its slot leads to *)
Definition cache_ok (ADDRBYTES : nat) (t : iptreet) : Prop :=
  List.length (cache t) = cache_size /\
  NoDup (cache_ptrs (cache t)) /\
  Forall (fun e =>
            List.length (ce_addr e) = ADDRBYTES /\
            Forall is_byte (ce_addr e) /\
            forall p, ce_ptr e = Some p -> live (root t) p = true /\ key_of e p)
         (cache t).

(** an [add] whose buffer holds the bytes that are read *)
Definition wf_op (ADDRBYTES : nat) (o : op) : Prop :=
  match o with
  | Add addr addrlen val =>
      0 <= addrlen /\
      (Z.to_nat (Z.min addrlen (Z.of_nat ADDRBYTES)) <= List.length addr)%nat /\
      Forall is_byte addr
  | _ => True
  end.

(** the cache after [node::prune] has removed the children of the node *)
Definition cache_pruned (c : list cache_element) (this : path) (n : node)
  : list cache_element :=
  let c := if is_some (ptr0 n) then cache_remove_from c (this ++ [false]) else c in
  if is_some (ptr1 n) then cache_remove_from c (this ++ [true]) else c.

(** every node without children, other than the node itself, is terminal *)
Definition leaves_term_below (n : node) : bool :=
  match n with
  | Node None None _ _ => true
  | _ => leaves_term n
  end.

(** the sum, in the integers, of the weights supplied to [add] *)
Fixpoint total_weight (ops : list op) : Z :=
  match ops with
  | [] => 0
  | Add _ _ val :: ops' => val + total_weight ops'
  | _ :: ops' => total_weight ops'
  end.

(** the weight of an [add] is positive *)
Definition positive_op (o : op) : Prop :=
  match o with
  | Add _ _ val => 0 < val
  | _ => True
  end.

(** [prune()] is not called before the first [add] *)
Fixpoint no_prune_on_empty (ops : list op) : Prop :=
  match ops with
  | [] => True
  | Add _ _ _ :: _ => True
  | Prune :: _ => False
  | PruneIfGreater _ :: ops' => no_prune_on_empty ops'
  end.

(** the state of a tree that has counted the weight [W] without overflow:
    either something was added and every node without children is
    terminal, or the tree is as it was created *)
Definition sound (W : Z) (t : iptreet) : Prop :=
  ranged (root t) /\ msum (root t) = W /\
  (leaves_term (root t) = true \/ (root t = new_node /\ nodes t = 0)).

(** the state of a tree to which something was added: it has counted [W]
    and every node without children is terminal *)
Definition full (W : Z) (t : iptreet) : Prop :=
  ranged (root t) /\ msum (root t) = W /\ leaves_term (root t) = true.

(** [nodes] counts the node objects of the tree other than the root *)
Definition counted (t : iptreet) : Prop :=
  nodes t = u64 (Z.of_nat (node_count (root t)) - 1).

(** the part of the tree that decides what the calls do to the counts: the
    nodes, their number and the ceiling *)
Definition forget (t : iptreet) : node * Z * Z :=
  (root t, nodes t, maxnodes t).

(** two trees that differ in the cache and the statistics only *)
Definition eqv (t u : iptreet) : Prop := forget t = forget u.

(** two results that end the same way with related values *)
Definition same {A : Type} (R : A -> A -> Prop) (x y : result A) : Prop :=
  match x, y with
  | Ok a, Ok b => R a b
  | Err f, Err g => f = g
  | _, _ => False
  end.

(** the results of two [prune()] calls agree up to the cache *)
Definition eqv_pruned (x y : Z * iptreet) : Prop :=
  fst x = fst y /\ eqv (snd x) (snd y).

(** every stored pointer names a node at depth [8 * L] *)
Definition uniform (L : nat) (t : iptreet) : Prop :=
  forall p, In p (cache_ptrs (cache t)) -> List.length p = (8 * L)%nat.

(** an [add] whose key has [L] bytes once clamped *)
Definition key_length (ADDRBYTES L : nat) (o : op) : Prop :=
  match o with
  | Add _ addrlen _ => Z.to_nat (Z.min addrlen (Z.of_nat ADDRBYTES)) = L
  | _ => True
  end.

(** the number of bits of the key of an [add], once clamped *)
Definition key_bits (ADDRBYTES : nat) (o : op) : nat :=
  match o with
  | Add _ addrlen _ => Z.to_nat (Z.min addrlen (Z.of_nat ADDRBYTES) * 8)
  | _ => O
  end.

(** the number of [add] calls of a sequence *)
Fixpoint count_adds (ops : list op) : Z :=
  match ops with
  | [] => 0
  | Add _ _ _ :: ops' => 1 + count_adds ops'
  | _ :: ops' => count_adds ops'
  end.

(** the counters of the tree agree: the nodes in the tree are the nodes
    that were added less the nodes that were pruned, and every [add] looked
    the cache up once *)
Definition balanced (n : Z) (t : iptreet) : Prop :=
  nodes t = u64 (ctr_added t - pruned t) /\
  u64 (cache_hits t + cache_misses t) = u64 n.

(** [nodes] is the number of node objects other than the root, in the
    integers *)
Definition exact (t : iptreet) : Prop :=
  nodes t = Z.of_nat (node_count (root t)) - 1.

(** the count of the node a pointer names, 0 when there is no such node *)
Definition count_of (n : node) (p : path) : Z :=
  match deref n p with Some m => nodesum m | None => 0 end.

(** the buffer [get_histogram] hands down a pointer: the bits of [q]
    written into [addr] from bit [depth] on *)
Fixpoint path_addr (addr : list Z) (depth : Z) (q : path) : list Z :=
  match q with
  | [] => addr
  | b :: q' => path_addr (if b then setbit addr depth else addr) (depth + 1) q'
  end.

(** a node with a count *)
Definition nonzero (e : path * Z) : bool := negb (snd e =? 0).

(** the histogram entry of a node that lies at [e] below depth [depth] *)
Definition entry_of (addr : list Z) (depth : Z) (e : path * Z) : addr_elem :=
  mk_addr_elem (path_addr addr depth (fst e))
               (depth + Z.of_nat (List.length (fst e))) (snd e).

(** the [dirty] flags of a subtree are in order: a node that has a count
    is dirty, and so is a node that has a dirty child *)
Fixpoint marked (n : node) : bool :=
  match n with
  | Node p0 p1 s d =>
      (d || (s =? 0)) &&
      (match p0 with Some c => (d || negb (dirty c)) && marked c | None => true end) &&
      (match p1 with Some c => (d || negb (dirty c)) && marked c | None => true end)
  end.

(** * Properties *)

(** ** Induction on nodes *)

Lemma node_ind (P : node -> Prop)
  (H : forall p0 p1 s d,
      (forall c, p0 = Some c -> P c) ->
      (forall c, p1 = Some c -> P c) ->
      P (Node p0 p1 s d)) :
  forall n, P n.
Proof.
  fix IH 1. intros [p0 p1 s d]. apply H.
  - destruct p0 as [c|]; intros c' E; [injection E as <-; apply IH | discriminate].
  - destruct p1 as [c|]; intros c' E; [injection E as <-; apply IH | discriminate].
Qed.

(** ** Wrap-around arithmetic *)

Lemma two64_pos : 0 < two64.
Proof. reflexivity. Qed.

Lemma u64_range x : 0 <= u64 x < two64.
Proof. apply Z.mod_pos_bound, two64_pos. Qed.

Lemma u64_small x : 0 <= x < two64 -> u64 x = x.
Proof. apply Z.mod_small. Qed.

Lemma u64_u64 x : u64 (u64 x) = u64 x.
Proof. unfold u64. apply Z.mod_mod. discriminate. Qed.

Lemma u64_add_l x y : u64 (u64 x + y) = u64 (x + y).
Proof. unfold u64. apply Zplus_mod_idemp_l. Qed.

Lemma u64_add_r x y : u64 (x + u64 y) = u64 (x + y).
Proof. unfold u64. apply Zplus_mod_idemp_r. Qed.

Lemma u64_eq_add x y z : u64 x = u64 y -> u64 (x + z) = u64 (y + z).
Proof.
  intros E. rewrite <- (u64_add_l x), E, u64_add_l. reflexivity.
Qed.

Lemma tadd_range a b : 0 <= tadd a b < two64.
Proof. apply u64_range. Qed.

(** ** Sums *)

Lemma sum_msum n : ranged n -> sum n = u64 (msum n).
Proof.
  induction n as [p0 p1 s d IH0 IH1] using node_ind.
  cbn [ranged sum msum]. intros (Hs & R0 & R1).
  destruct p0 as [c0|], p1 as [c1|]; unfold tadd.
  - rewrite (IH0 c0 eq_refl R0), (IH1 c1 eq_refl R1).
    rewrite u64_add_r, u64_add_l.
    replace (s + u64 (msum c0) + msum c1) with (s + msum c1 + u64 (msum c0)) by lia.
    rewrite u64_add_r. f_equal. lia.
  - rewrite (IH0 c0 eq_refl R0), u64_add_r. f_equal. lia.
  - rewrite (IH1 c1 eq_refl R1), u64_add_r. f_equal. lia.
  - rewrite u64_small by lia. f_equal. lia.
Qed.

Lemma sum_range n : ranged n -> 0 <= sum n < two64.
Proof. intros R. rewrite (sum_msum n R). apply u64_range. Qed.

Lemma eqm_refl x : eqm x x.
Proof. reflexivity. Qed.

Lemma eqm_sym x y : eqm x y -> eqm y x.
Proof. unfold eqm. auto. Qed.

Lemma eqm_trans x y z : eqm x y -> eqm y z -> eqm x z.
Proof. unfold eqm. congruence. Qed.

Lemma eqm_u64 x : eqm (u64 x) x.
Proof. apply u64_u64. Qed.

Lemma eqm_add a b c d : eqm a b -> eqm c d -> eqm (a + c) (b + d).
Proof.
  unfold eqm. intros E1 E2.
  rewrite <- (u64_add_l a), <- (u64_add_r _ c), E1, E2, u64_add_l, u64_add_r.
  reflexivity.
Qed.

Lemma eqm_eq x y : x = y -> eqm x y.
Proof. intros ->. apply eqm_refl. Qed.

Lemma eqm_right a c d v : eqm c (d + v) -> eqm (a + c) (a + d + v).
Proof.
  intros E. replace (a + d + v) with (a + (d + v)) by lia.
  apply eqm_add; [apply eqm_refl | exact E].
Qed.

Lemma eqm_mid a b c d v : eqm c (d + v) -> eqm (a + c + b) (a + d + b + v).
Proof.
  intros E. replace (a + d + b + v) with (a + (d + v) + b) by lia.
  repeat apply eqm_add; try apply eqm_refl. exact E.
Qed.

Lemma eqm_left a b c d v : eqm c (d + v) -> eqm (c + a + b) (d + a + b + v).
Proof.
  intros E. replace (d + a + b + v) with ((d + v) + a + b) by lia.
  repeat apply eqm_add; try apply eqm_refl. exact E.
Qed.

Create HintDb eqm.
#[local] Hint Resolve eqm_refl eqm_u64 eqm_add u64_range tadd_range : eqm.

Lemma sum_eqm n m : ranged n -> ranged m -> eqm (msum n) (msum m) -> sum n = sum m.
Proof. intros Rn Rm E. rewrite !sum_msum by assumption. exact E. Qed.

(** ** Pointers into a tree *)

Lemma deref_ranged p : forall n m, ranged n -> deref n p = Some m -> ranged m.
Proof.
  induction p as [|b p IH]; intros [p0 p1 s d] m R E; cbn in E.
  - injection E as <-. exact R.
  - destruct R as (_ & R0 & R1).
    destruct b, p0 as [c0|], p1 as [c1|]; try discriminate; eauto.
Qed.

Lemma replace_at_ranged p : forall n m,
  ranged n -> ranged m -> ranged (replace_at n p m).
Proof.
  induction p as [|b p IH]; intros [p0 p1 s d] m R Rm; cbn [replace_at].
  - exact Rm.
  - destruct R as (Hs & R0 & R1).
    destruct b, p0 as [c0|], p1 as [c1|]; cbn [ranged]; repeat split; auto; lia.
Qed.

Lemma replace_at_msum p : forall n m m',
  deref n p = Some m -> msum (replace_at n p m') = msum n - msum m + msum m'.
Proof.
  induction p as [|b p IH]; intros [p0 p1 s d] m m' E; cbn in E.
  - injection E as <-. cbn [replace_at]. lia.
  - destruct b, p0 as [c0|], p1 as [c1|]; try discriminate;
      cbn [replace_at msum]; rewrite (IH _ _ m' E); lia.
Qed.

Lemma replace_at_node_count p : forall n m m',
  deref n p = Some m ->
  (node_count (replace_at n p m') + node_count m = node_count n + node_count m')%nat.
Proof.
  induction p as [|b p IH]; intros [p0 p1 s d] m m' E; cbn in E.
  - injection E as <-. cbn [replace_at]. lia.
  - destruct b, p0 as [c0|], p1 as [c1|]; try discriminate;
      cbn [replace_at node_count]; specialize (IH _ _ m' E); lia.
Qed.

(** ** Incrementing a node *)

Lemma node_add_sum n val n' up :
  node_add n val = (n', up) -> ranged n ->
  ranged n' /\ eqm (msum n') (msum n + val).
Proof.
  destruct n as [p0 p1 s d]. cbn. intros E (Hs & R0 & R1).
  injection E as <- <-. cbn [ranged msum]. split.
  - split; [apply tadd_range | split; assumption].
  - apply eqm_left. unfold tadd. apply eqm_u64.
Qed.

Lemma add_at_sum p : forall n val n' up,
  add_at n p val = Ok (n', up) -> ranged n ->
  ranged n' /\ eqm (msum n') (msum n + val).
Proof.
  induction p as [|b p IH]; intros [p0 p1 s d] val n' up E R.
  - cbn [add_at] in E. assert (E' : node_add (Node p0 p1 s d) val = (n', up)) by congruence.
    eapply node_add_sum; eauto.
  - cbn [add_at] in E. destruct R as (Hs & R0 & R1).
    destruct b.
    + destruct p1 as [c1|]; [|discriminate].
      destruct (add_at c1 p val) as [[c' u]|] eqn:Ec; [|discriminate].
      cbn in E. injection E as <- <-.
      destruct (IH _ _ _ _ Ec R1) as (Rc & Mc). cbn [ranged msum]. split.
      * repeat split; auto; lia.
      * apply eqm_right. exact Mc.
    + destruct p0 as [c0|]; [|discriminate].
      destruct (add_at c0 p val) as [[c' u]|] eqn:Ec; [|discriminate].
      cbn in E. injection E as <- <-.
      destruct (IH _ _ _ _ Ec R0) as (Rc & Mc). cbn [ranged msum]. split.
      * repeat split; auto; lia.
      * apply eqm_mid. exact Mc.
Qed.

Lemma new_node_ranged : ranged new_node.
Proof. cbn. repeat split; try reflexivity; discriminate. Qed.

Lemma add_walk_sum bits : forall depth addr val ptr n' created up p,
  add_walk bits depth addr val ptr = (n', created, up, p) -> ranged ptr ->
  ranged n' /\ eqm (msum n') (msum ptr + val).
Proof.
  induction bits as [|bits IH]; intros depth addr val [p0 p1 s d] n' created up p E R.
  - cbn [add_walk] in E.
    destruct (node_add (Node p0 p1 s d) val) as [n u] eqn:En.
    injection E as <- _ _ _. eapply node_add_sum; eauto.
  - cbn [add_walk] in E. destruct R as (Hs & R0 & R1).
    destruct (bit addr depth).
    + set (c := match p1 with Some c => c | None => new_node end).
      assert (Rc : ranged c) by (subst c; destruct p1; auto using new_node_ranged).
      assert (Mc : msum c = match p1 with Some c => msum c | None => 0 end)
        by (subst c; destruct p1; reflexivity).
      assert (E' : exists made, (let '(c', created, up, p) := add_walk bits (depth + 1) addr val c in
                  (Node p0 (Some c') s (d || up), made + created, up && negb d, true :: p))
                 = (n', created, up, p))
        by (subst c; destruct p1; eauto).
      destruct E' as (made & E'). clear E.
      destruct (add_walk bits (depth + 1) addr val c) as [[[c' cr] u] q] eqn:Ew.
      injection E' as <- _ _ _.
      destruct (IH _ _ _ _ _ _ _ _ Ew Rc) as (Rc' & Mc'). cbn [ranged msum]. split.
      * repeat split; auto; lia.
      * rewrite <- Mc. apply eqm_right. exact Mc'.
    + set (c := match p0 with Some c => c | None => new_node end).
      assert (Rc : ranged c) by (subst c; destruct p0; auto using new_node_ranged).
      assert (Mc : msum c = match p0 with Some c => msum c | None => 0 end)
        by (subst c; destruct p0; reflexivity).
      assert (E' : exists made, (let '(c', created, up, p) := add_walk bits (depth + 1) addr val c in
                  (Node (Some c') p1 s (d || up), made + created, up && negb d, false :: p))
                 = (n', created, up, p))
        by (subst c; destruct p0; eauto).
      destruct E' as (made & E'). clear E.
      destruct (add_walk bits (depth + 1) addr val c) as [[[c' cr] u] q] eqn:Ew.
      injection E' as <- _ _ _.
      destruct (IH _ _ _ _ _ _ _ _ Ew Rc) as (Rc' & Mc'). cbn [ranged msum]. split.
      * repeat split; auto; lia.
      * rewrite <- Mc. apply eqm_mid. exact Mc'.
Qed.

(** ** Pruning a node *)

Lemma term_inv c : term c = true -> exists s d, c = Node None None s d /\ 0 < s.
Proof.
  destruct c as [[?|] [?|] s d]; unfold term; cbn; rewrite ?andb_false_r;
    try discriminate.
  rewrite !andb_true_r. intros H. exists s, d. split; [reflexivity | lia].
Qed.

Lemma term_children c : term c = true -> ptr0 c = None /\ ptr1 c = None.
Proof. intros H. destruct (term_inv c H) as (s & d & -> & _). auto. Qed.

Lemma prune_child_inv ptr at_ s t s' t' :
  prune_child ptr at_ (s, t) = Ok (s', t') ->
  root t' = root t /\ maxnodes t' = maxnodes t /\
  match ptr with
  | None => s' = s /\ t' = t
  | Some c =>
      term c = true /\ s' = tadd s (nodesum c) /\
      nodes t' = u64 (nodes t - 1) /\
      cache t' = cache_remove_from (cache t) at_
  end.
Proof.
  unfold prune_child. destruct ptr as [c|].
  - destruct (term c); [|discriminate]. intros E. injection E as <- <-. cbn.
    repeat split.
  - intros E. injection E as <- <-. repeat split.
Qed.

Lemma node_prune_inv this t r t' :
  node_prune this t = Ok (r, t') ->
  exists n,
    deref (root t) this = Some n /\
    r = 1 /\
    (forall c, ptr0 n = Some c -> term c = true) /\
    (forall c, ptr1 n = Some c -> term c = true) /\
    root t' = replace_at (root t) this (pruned_node n) /\
    maxnodes t' = maxnodes t /\
    nodes t' = (let k := nodes t in
                let k := if is_some (ptr0 n) then u64 (k - 1) else k in
                if is_some (ptr1 n) then u64 (k - 1) else k).
Proof.
  unfold node_prune. destruct (deref (root t) this) as [[p0 p1 s d]|] eqn:D; [|discriminate].
  destruct (prune_child p0 (this ++ [false]) (s, t)) as [[s0 t0]|] eqn:E0; [|discriminate].
  cbn [bind].
  destruct (prune_child p1 (this ++ [true]) (s0, t0)) as [[s1 t1]|] eqn:E1; [|discriminate].
  cbn [bind]. intros E. injection E as <- <-.
  apply prune_child_inv in E0, E1.
  destruct E0 as (Hr0 & Hm0 & H0), E1 as (Hr1 & Hm1 & H1).
  exists (Node p0 p1 s d). cbn [ptr0 ptr1 pruned_node root maxnodes nodes with_root is_some].
  repeat split.
  - intros c ->. tauto.
  - intros c ->. tauto.
  - rewrite Hr1, Hr0. do 2 f_equal.
    destruct p0, p1; intuition congruence.
  - congruence.
  - destruct p0, p1; cbn; intuition congruence.
Qed.

Lemma pruned_node_sum n :
  (forall c, ptr0 n = Some c -> term c = true) ->
  (forall c, ptr1 n = Some c -> term c = true) ->
  ranged n ->
  ranged (pruned_node n) /\ eqm (msum (pruned_node n)) (msum n).
Proof.
  destruct n as [p0 p1 s d]. cbn [ptr0 ptr1]. intros T0 T1 (Hs & R0 & R1).
  assert (M0 : forall c, p0 = Some c -> msum c = nodesum c).
  { intros c E. destruct (term_inv c (T0 c E)) as (sc & dc & -> & _). cbn. lia. }
  assert (M1 : forall c, p1 = Some c -> msum c = nodesum c).
  { intros c E. destruct (term_inv c (T1 c E)) as (sc & dc & -> & _). cbn. lia. }
  unfold pruned_node. cbn [ranged msum]. split.
  - split; [|auto]. destruct p0, p1; auto using tadd_range.
  - rewrite !Z.add_0_r.
    destruct p0 as [c0|], p1 as [c1|]; rewrite ?(M0 _ eq_refl), ?(M1 _ eq_refl);
      unfold tadd; rewrite ?Z.add_0_r.
    + eapply eqm_trans; [apply eqm_u64|]. apply eqm_add; auto with eqm.
    + apply eqm_u64.
    + apply eqm_u64.
    + apply eqm_refl.
Qed.

Lemma conserves_sum t W : conserves t W -> sum (root t) = u64 W.
Proof. intros (R & E). rewrite sum_msum by assumption. exact E. Qed.

Lemma node_prune_conserves this t r t' W :
  node_prune this t = Ok (r, t') -> conserves t W -> conserves t' W.
Proof.
  intros E (R & M). apply node_prune_inv in E.
  destruct E as (n & D & _ & T0 & T1 & Hr & _).
  destruct (pruned_node_sum n T0 T1 (deref_ranged _ _ _ R D)) as (Rn & Mn).
  unfold conserves. rewrite Hr. split.
  - apply replace_at_ranged; assumption.
  - rewrite (replace_at_msum _ _ _ _ D).
    eapply eqm_trans; [|exact M].
    replace (msum (root t)) with (msum (root t) - msum n + msum n) at 2 by lia.
    apply eqm_add; [apply eqm_refl | exact Mn].
Qed.

Lemma prune_conserves t r t' W :
  prune t = Ok (r, t') -> conserves t W -> conserves t' W.
Proof.
  unfold prune. destruct (term (root t)).
  - intros E. injection E as _ <-. auto.
  - destruct (best_to_prune (root t) root_depth) as [b|]; [|discriminate].
    cbn [bind]. apply node_prune_conserves.
Qed.

Lemma prune_while_conserves fuel : forall t t' W,
  prune_while fuel t = Ok t' -> conserves t W -> conserves t' W.
Proof.
  induction fuel as [|fuel IH]; intros t t' W; cbn [prune_while].
  - destruct (_ >? _); [discriminate|]. intros E. injection E as <-. auto.
  - destruct (_ >? _).
    + destruct (prune t) as [[r t1]|] eqn:P; [|discriminate]. cbn [bind].
      intros E C. pose proof (prune_conserves _ _ _ _ P C) as C1.
      destruct (r =? 0); [injection E as <-; auto | eauto].
    + intros E. injection E as <-. auto.
Qed.

Lemma prune_if_greater_conserves limit t t' W :
  prune_if_greater limit t = Ok t' -> conserves t W -> conserves t' W.
Proof.
  unfold prune_if_greater. destruct (_ >=? _).
  - apply prune_while_conserves.
  - intros E. injection E as <-. auto.
Qed.

(** ** Conservation of totals *)

Lemma cache_search_root addr addrlen t :
  root (snd (cache_search addr addrlen t)) = root t /\
  maxnodes (snd (cache_search addr addrlen t)) = maxnodes t /\
  nodes (snd (cache_search addr addrlen t)) = nodes t /\
  cache (snd (cache_search addr addrlen t)) = cache t /\
  fst (cache_search addr addrlen t) = cache_search_from (cache t) addr addrlen.
Proof.
  unfold cache_search. destruct (cache_search_from (cache t) addr addrlen); cbn; auto 10.
Qed.

Lemma add_conserves ADDRBYTES addr addrlen val t t' W :
  add ADDRBYTES addr addrlen val t = Ok t' ->
  conserves t W -> conserves t' (W + val).
Proof.
  unfold add. intros E C.
  destruct (prune_if_greater (maxnodes t) t) as [t1|] eqn:P; [|discriminate].
  cbn [bind] in E. apply (prune_if_greater_conserves _ _ _ _ P) in C.
  set (len := if addrlen >? Z.of_nat ADDRBYTES then Z.of_nat ADDRBYTES else addrlen) in E.
  destruct (cache_search_root addr (Z.to_nat len) t1) as (Hr & _).
  destruct (cache_search addr (Z.to_nat len) t1) as [i t2]. cbn [snd] in Hr.
  destruct C as (R & M). rewrite <- Hr in R, M.
  destruct i as [e|].
  - destruct (ce_ptr e) as [p|]; [|discriminate].
    destruct (add_at (root t2) p val) as [[r up]|] eqn:A; [|discriminate].
    cbn [bind] in E. injection E as <-.
    destruct (add_at_sum _ _ _ _ _ A R) as (Rr & Mr).
    split; cbn [root with_root]; [exact Rr|].
    eapply eqm_trans; [exact Mr|]. apply eqm_add; auto with eqm.
  - destruct (add_walk (Z.to_nat (len * 8)) 0 addr val (root t2)) as [[[r created] up] p] eqn:A.
    injection E as <-.
    destruct (add_walk_sum _ _ _ _ _ _ _ _ _ A R) as (Rr & Mr).
    split; cbn [root cache_replace]; [exact Rr|].
    eapply eqm_trans; [exact Mr|]. apply eqm_add; auto with eqm.
Qed.

Lemma step_conserves ADDRBYTES t o t' W :
  step ADDRBYTES t o = Ok t' ->
  conserves t W -> conserves t' (W + weights [o]).
Proof.
  destruct o as [addr addrlen val| |limit]; cbn [step weights].
  - intros E C. pose proof (add_conserves _ _ _ _ _ _ _ E C) as (R & M).
    split; [exact R|]. eapply eqm_trans; [exact M|].
    apply eqm_add; [apply eqm_refl|]. unfold tadd. rewrite Z.add_0_r.
    apply eqm_sym, eqm_u64.
  - destruct (prune t) as [[r t1]|] eqn:P; [|discriminate]. cbn [bind].
    intros E C. injection E as <-. rewrite Z.add_0_r. eapply prune_conserves; eauto.
  - intros E C. rewrite Z.add_0_r. eapply prune_if_greater_conserves; eauto.
Qed.

Lemma weights_cons o ops : eqm (weights (o :: ops)) (weights [o] + weights ops).
Proof.
  destruct o; cbn [weights]; unfold tadd; rewrite ?Z.add_0_r; auto with eqm.
  eapply eqm_trans; [apply eqm_u64|]. apply eqm_add; auto with eqm.
  apply eqm_sym, eqm_u64.
Qed.

Lemma weights_range ops : 0 <= weights ops < two64.
Proof.
  induction ops as [|[]]; cbn [weights]; auto using tadd_range.
  split; [lia | reflexivity].
Qed.

Lemma run_conserves ADDRBYTES ops : forall t t' W,
  run ADDRBYTES ops t = Ok t' ->
  conserves t W -> conserves t' (W + weights ops).
Proof.
  induction ops as [|o ops IH]; intros t t' W; cbn [run].
  - intros E. injection E as <-. cbn. rewrite Z.add_0_r. auto.
  - destruct (step ADDRBYTES t o) as [t1|] eqn:S; [|discriminate]. cbn [bind].
    intros E C. apply (step_conserves _ _ _ _ _ S) in C.
    destruct (IH _ _ _ E C) as (R & M). split; [exact R|].
    eapply eqm_trans; [exact M|]. rewrite <- Z.add_assoc.
    apply eqm_add; [apply eqm_refl | apply eqm_sym, weights_cons].
Qed.

Lemma new_iptreet_conserves ADDRBYTES maxnodes_ :
  conserves (new_iptreet ADDRBYTES maxnodes_) 0.
Proof. split; [apply new_node_ranged | apply eqm_refl]. Qed.

Lemma run_conserves_fresh ADDRBYTES maxnodes_ ops t :
  run ADDRBYTES ops (new_iptreet ADDRBYTES maxnodes_) = Ok t ->
  tree_sum t = weights ops.
Proof.
  intros E.
  pose proof (run_conserves _ _ _ _ _ E (new_iptreet_conserves _ _)) as C.
  unfold tree_sum. rewrite (conserves_sum _ _ C). cbn.
  apply u64_small, weights_range.
Qed.

(** ** The prune selector *)

Lemma deref_term c q m : term c = true -> deref c q = Some m -> q = [] /\ m = c.
Proof.
  intros T. destruct (term_children c T) as (E0 & E1).
  destruct q as [|[] q]; cbn; rewrite ?E0, ?E1; intros E; try discriminate E.
  injection E as <-. auto.
Qed.

Lemma candidate_term c : term c = true -> candidate c = false.
Proof.
  intros T. destruct (term_children c T) as (E0 & E1).
  unfold candidate. rewrite E0, E1. reflexivity.
Qed.

Lemma selects_here n d :
  candidate n = true -> selects n d (mk_best [] d).
Proof.
  intros C. exists n. cbn [best_node depth deref List.length].
  split; [reflexivity|]. split; [exact C|]. split; [lia|].
  intros q m' Dq Cq. destruct q as [|x q].
  - cbn in Dq. injection Dq as <-. cbn. lia.
  - exfalso. cbn [deref] in Dq.
    destruct (if x then ptr1 n else ptr0 n) as [c|] eqn:Ec; [|discriminate].
    assert (T : term c = true).
    { unfold candidate in C.
      destruct (ptr0 n) as [c0|], (ptr1 n) as [c1|], x; try discriminate;
        injection Ec as <-;
        first [assumption | apply andb_prop in C; destruct C; assumption]. }
    destruct (deref_term _ _ _ T Dq) as (_ & ->).
    rewrite (candidate_term _ T) in Cq. discriminate.
Qed.

Lemma selects_below n d (k : bool) c b :
  (if k then ptr1 n else ptr0 n) = Some c ->
  candidate n = false ->
  (forall c', (if k then ptr0 n else ptr1 n) = Some c' -> term c' = true) ->
  selects c (d + 1) b -> selects n d (below k b).
Proof.
  intros Ec Cn Other (m & D & Cm & Hd & Hmin).
  exists m. cbn [below best_node depth deref List.length].
  assert (Dn : deref n (k :: best_node b) = Some m).
  { cbn [deref]. destruct k; rewrite Ec; exact D. }
  split; [exact Dn|]. split; [exact Cm|]. split; [lia|].
  intros q m' Dq Cq. destruct q as [|x q].
  - cbn in Dq. injection Dq as <-. congruence.
  - cbn [deref] in Dq. cbn [List.length].
    destruct (Bool.bool_dec x k) as [->|Ne].
    + assert (Dc : deref c q = Some m') by (destruct k; rewrite Ec in Dq; exact Dq).
      destruct (Hmin _ _ Dc Cq) as (Hle & Hdeep). split; [exact Hle|]. lia.
    + exfalso.
      assert (Eo : (if x then ptr1 n else ptr0 n) = (if k then ptr0 n else ptr1 n))
        by (destruct x, k; congruence).
      rewrite Eo in Dq. destruct (if k then ptr0 n else ptr1 n) as [c'|]; [|discriminate].
      pose proof (Other c' eq_refl) as T.
      destruct (deref_term _ _ _ T Dq) as (_ & ->).
      rewrite (candidate_term _ T) in Cq. discriminate.
Qed.

Lemma selects_best_sum n d b : selects n d b ->
  exists m, deref n (best_node b) = Some m /\ best_sum n b = sum m.
Proof.
  intros (m & D & _). exists m. unfold best_sum. rewrite D. auto.
Qed.

Lemma selects_pick n d (k : bool) c c' b b' :
  (if k then ptr1 n else ptr0 n) = Some c ->
  (if k then ptr0 n else ptr1 n) = Some c' ->
  candidate n = false ->
  selects c (d + 1) b -> selects c' (d + 1) b' ->
  best_sum c b < best_sum c' b' \/
  (best_sum c b = best_sum c' b' /\ depth b' <= depth b) ->
  selects n d (below k b).
Proof.
  intros Ec Ec' Cn S S' Cmp.
  destruct (selects_best_sum _ _ _ S) as (m0 & D0 & B0).
  destruct (selects_best_sum _ _ _ S') as (m1 & D1 & B1).
  destruct S as (m & D & Cm & Hd & Hmin), S' as (m' & D' & Cm' & Hd' & Hmin').
  assert (m0 = m) by congruence. assert (m1 = m') by congruence. subst m0 m1.
  rewrite B0, B1 in Cmp.
  exists m. cbn [below best_node depth deref List.length].
  split; [destruct k; rewrite Ec; exact D|]. split; [exact Cm|]. split; [lia|].
  intros q mq Dq Cq. destruct q as [|x q].
  - cbn in Dq. injection Dq as <-. congruence.
  - cbn [deref] in Dq. cbn [List.length].
    destruct (Bool.bool_dec x k) as [->|Ne].
    + assert (Dc : deref c q = Some mq) by (destruct k; rewrite Ec in Dq; exact Dq).
      destruct (Hmin _ _ Dc Cq) as (Hle & Hdeep). split; [exact Hle|]. lia.
    + assert (Eo : (if x then ptr1 n else ptr0 n) = (if k then ptr0 n else ptr1 n))
        by (destruct x, k; congruence).
      rewrite Eo, Ec' in Dq.
      destruct (Hmin' _ _ Dq Cq) as (Hle & Hdeep). split; lia.
Qed.

Lemma selects_better n d c0 c1 b0 b1 :
  ptr0 n = Some c0 -> ptr1 n = Some c1 ->
  candidate n = false ->
  selects c0 (d + 1) b0 -> selects c1 (d + 1) b1 ->
  selects n d (better (below false b0) (best_sum c0 b0)
                      (below true b1) (best_sum c1 b1)).
Proof.
  intros E0 E1 Cn S0 S1. unfold better. cbn [below depth].
  destruct (best_sum c0 b0 <? best_sum c1 b1) eqn:L01.
  { apply Z.ltb_lt in L01.
    apply (selects_pick n d false c0 c1 b0 b1); auto. }
  apply Z.ltb_ge in L01.
  destruct (best_sum c1 b1 <? best_sum c0 b0) eqn:L10.
  { apply Z.ltb_lt in L10.
    apply (selects_pick n d true c1 c0 b1 b0); auto. }
  apply Z.ltb_ge in L10.
  destruct (depth b0 >? depth b1) eqn:G.
  - apply (selects_pick n d false c0 c1 b0 b1); auto. right. lia.
  - apply (selects_pick n d true c1 c0 b1 b0); auto. right. lia.
Qed.

Lemma best_to_prune_selects n : forall d b,
  best_to_prune n d = Ok b -> selects n d b.
Proof.
  induction n as [p0 p1 s dd IH0 IH1] using node_ind. intros d b E.
  cbn [best_to_prune] in E.
  destruct (term (Node p0 p1 s dd)); [discriminate|].
  destruct p0 as [c0|], p1 as [c1|]; unfold ptr_term, is_null, is_some in E.
  - (* two children *)
    destruct (term c0) eqn:T0, (term c1) eqn:T1; cbn [negb andb] in E.
    + injection E as <-. apply selects_here. cbn. rewrite T0, T1. reflexivity.
    + destruct (best_to_prune c1 (d + 1)) as [b1|] eqn:B1; [|discriminate].
      injection E as <-.
      apply (selects_below _ d true c1 b1); cbn [ptr0 ptr1]; auto.
      * cbn. rewrite T0, T1. reflexivity.
      * intros c' Ec. injection Ec as <-. exact T0.
    + destruct (best_to_prune c0 (d + 1)) as [b0|] eqn:B0; [|discriminate].
      injection E as <-.
      apply (selects_below _ d false c0 b0); cbn [ptr0 ptr1]; auto.
      * cbn. rewrite T0, T1. reflexivity.
      * intros c' Ec. injection Ec as <-. exact T1.
    + destruct (best_to_prune c0 (d + 1)) as [b0|] eqn:B0; [|discriminate].
      destruct (best_to_prune c1 (d + 1)) as [b1|] eqn:B1; [|discriminate].
      injection E as <-.
      apply selects_better; cbn [ptr0 ptr1]; auto.
      cbn. rewrite T0, T1. reflexivity.
  - (* only ptr0 *)
    destruct (term c0) eqn:T0; cbn [negb andb] in E.
    + injection E as <-. apply selects_here. cbn. exact T0.
    + destruct (best_to_prune c0 (d + 1)) as [b0|] eqn:B0; [|discriminate].
      injection E as <-.
      apply (selects_below _ d false c0 b0); cbn [ptr0 ptr1]; auto.
      discriminate.
  - (* only ptr1 *)
    destruct (term c1) eqn:T1; cbn [negb andb] in E.
    + injection E as <-. apply selects_here. cbn. exact T1.
    + destruct (best_to_prune c1 (d + 1)) as [b1|] eqn:B1; [|discriminate].
      injection E as <-.
      apply (selects_below _ d true c1 b1); cbn [ptr0 ptr1]; auto.
      discriminate.
  - (* no child: the selector reads through a null pointer *)
    cbn [negb andb] in E. discriminate.
Qed.

Lemma leaves_term_child p0 p1 s d :
  leaves_term (Node p0 p1 s d) = true ->
  (forall c, p0 = Some c -> leaves_term c = true) /\
  (forall c, p1 = Some c -> leaves_term c = true).
Proof.
  cbn [leaves_term]. destruct p0 as [c0|], p1 as [c1|]; intros H;
    try (apply andb_prop in H; destruct H as (H0 & H1));
    split; intros c E; try discriminate; injection E as <-; assumption.
Qed.

Lemma best_to_prune_total n : forall d,
  leaves_term n = true -> term n = false -> exists b, best_to_prune n d = Ok b.
Proof.
  induction n as [p0 p1 s dd IH0 IH1] using node_ind. intros d L T.
  destruct (leaves_term_child _ _ _ _ L) as (L0 & L1).
  cbn [best_to_prune]. rewrite T.
  destruct p0 as [c0|], p1 as [c1|]; unfold ptr_term, is_null, is_some.
  - destruct (term c0) eqn:T0, (term c1) eqn:T1; cbn [negb andb]; eauto.
    + destruct (IH1 c1 eq_refl (d + 1) (L1 _ eq_refl) T1) as (b & ->). cbn; eauto.
    + destruct (IH0 c0 eq_refl (d + 1) (L0 _ eq_refl) T0) as (b & ->). cbn; eauto.
    + destruct (IH0 c0 eq_refl (d + 1) (L0 _ eq_refl) T0) as (b0 & ->).
      destruct (IH1 c1 eq_refl (d + 1) (L1 _ eq_refl) T1) as (b1 & ->). cbn; eauto.
  - destruct (term c0) eqn:T0; cbn [negb andb]; eauto.
    destruct (IH0 c0 eq_refl (d + 1) (L0 _ eq_refl) T0) as (b & ->). cbn; eauto.
  - destruct (term c1) eqn:T1; cbn [negb andb]; eauto.
    destruct (IH1 c1 eq_refl (d + 1) (L1 _ eq_refl) T1) as (b & ->). cbn; eauto.
  - exfalso. cbn in L. unfold term in T. cbn in T. rewrite L in T. discriminate.
Qed.

Lemma node_prune_ok this t n :
  deref (root t) this = Some n ->
  (forall c, ptr0 n = Some c -> term c = true) ->
  (forall c, ptr1 n = Some c -> term c = true) ->
  exists t', node_prune this t = Ok (1, t').
Proof.
  intros D T0 T1. unfold node_prune. rewrite D.
  destruct n as [p0 p1 s d]. cbn [ptr0 ptr1] in T0, T1.
  destruct p0 as [c0|], p1 as [c1|]; cbn [prune_child bind];
    rewrite ?(T0 _ eq_refl), ?(T1 _ eq_refl); cbn [prune_child bind];
    rewrite ?(T1 _ eq_refl); cbn [bind]; eauto.
Qed.

Lemma candidate_children n :
  candidate n = true ->
  (forall c, ptr0 n = Some c -> term c = true) /\
  (forall c, ptr1 n = Some c -> term c = true).
Proof.
  unfold candidate. destruct (ptr0 n) as [c0|], (ptr1 n) as [c1|]; intros C;
    try discriminate; [apply andb_prop in C; destruct C | |];
    split; intros c E; try discriminate; injection E as <-; assumption.
Qed.

(** C4.  When [prune()] is invoked on a tree whose root is not terminal, the
    node it prunes is a candidate (it has a child and all of its children
    are terminal), no candidate of the tree has a smaller subtree sum, and
    no candidate of the same sum lies deeper.  A node is selected whenever
    every node without children is terminal. *)
Theorem prune_selector_minimal t :
  term (root t) = false ->
  (forall r t', prune t = Ok (r, t') ->
     exists b m,
       best_to_prune (root t) root_depth = Ok b /\
       deref (root t) (best_node b) = Some m /\
       root t' = replace_at (root t) (best_node b) (pruned_node m) /\
       candidate m = true /\
       depth b = Z.of_nat (List.length (best_node b)) /\
       forall q m', deref (root t) q = Some m' -> candidate m' = true ->
         sum m <= sum m' /\
         (sum m' = sum m -> Z.of_nat (List.length q) <= depth b)) /\
  (leaves_term (root t) = true -> exists t', prune t = Ok (1, t')).
Proof.
  intros T. split.
  - intros r t'. unfold prune. rewrite T.
    destruct (best_to_prune (root t) root_depth) as [b|] eqn:B; [|discriminate].
    cbn [bind]. intros P.
    destruct (best_to_prune_selects _ _ _ B) as (m & D & C & Hd & Hmin).
    destruct (node_prune_inv _ _ _ _ P) as (n & Dn & _ & _ & _ & Hr & _).
    assert (n = m) by congruence. subst n.
    exists b, m. unfold root_depth in *. repeat split; auto.
    + apply (Hmin q m'); assumption.
    + intros Es. destruct (Hmin q m' H H0) as (_ & Hdeep). specialize (Hdeep Es). lia.
  - intros L. unfold prune. rewrite T.
    destruct (best_to_prune_total _ root_depth L T) as (b & B). rewrite B. cbn [bind].
    destruct (best_to_prune_selects _ _ _ B) as (m & D & C & _).
    destruct (candidate_children _ C) as (T0 & T1).
    exact (node_prune_ok _ _ _ D T0 T1).
Qed.

(** ** The histogram *)

Lemma u64_int64 x : u64 (int64 x) = u64 x.
Proof.
  unfold int64, u64. rewrite Zminus_mod_idemp_l. f_equal. lia.
Qed.

Lemma hist_sum_range h : 0 <= hist_sum h < two64.
Proof.
  destruct h; cbn; [split; [lia | reflexivity] | apply tadd_range].
Qed.

Lemma hist_sum_app a b : eqm (hist_sum (a ++ b)) (hist_sum a + hist_sum b).
Proof.
  induction a as [|e a IH]; cbn [app hist_sum fold_right].
  - apply eqm_refl.
  - fold (hist_sum (a ++ b)). fold (hist_sum a). unfold tadd.
    eapply eqm_trans; [apply eqm_u64|].
    eapply eqm_trans; [apply eqm_add; [apply eqm_refl | exact IH]|].
    rewrite Z.add_assoc. apply eqm_add; [apply eqm_sym, eqm_u64 | apply eqm_refl].
Qed.

Lemma height_child p0 p1 s d :
  (forall c, p0 = Some c -> (S (height c) <= height (Node p0 p1 s d))%nat) /\
  (forall c, p1 = Some c -> (S (height c) <= height (Node p0 p1 s d))%nat).
Proof.
  split; intros c ->; cbn [height]; lia.
Qed.

Lemma get_histogram_from_sum ADDRBYTES n : forall d addr,
  ranged n -> d + Z.of_nat (height n) <= 129 ->
  eqm (hist_sum (get_histogram_from ADDRBYTES d addr n)) (msum n).
Proof.
  induction n as [p0 p1 s dd IH0 IH1] using node_ind. intros d addr (Hs & R0 & R1) Hh.
  destruct (height_child p0 p1 s dd) as (H0 & H1).
  cbn [get_histogram_from nodesum msum].
  eapply eqm_trans; [apply hist_sum_app|].
  rewrite <- Z.add_assoc. apply eqm_add.
  - destruct (s =? 0) eqn:Z0.
    + apply Z.eqb_eq in Z0. subst s. apply eqm_refl.
    + cbn. unfold tadd. rewrite Z.add_0_r, u64_u64, u64_int64. apply eqm_u64.
  - unfold max_histogram_depth. destruct (d >? 128) eqn:G.
    + assert (height (Node p0 p1 s dd) = O) by lia.
      destruct p0 as [c0|]; [specialize (H0 c0 eq_refl); lia|].
      destruct p1 as [c1|]; [specialize (H1 c1 eq_refl); lia|].
      apply eqm_refl.
    + eapply eqm_trans; [apply hist_sum_app|]. apply eqm_add.
      * destruct p0 as [c0|]; [|apply eqm_refl].
        apply (IH0 c0 eq_refl); [exact R0|]. specialize (H0 c0 eq_refl). lia.
      * destruct p1 as [c1|]; [|apply eqm_refl].
        apply (IH1 c1 eq_refl); [exact R1|]. specialize (H1 c1 eq_refl). lia.
Qed.

Lemma get_histogram_sum ADDRBYTES t :
  ranged (root t) -> (height (root t) <= 129)%nat ->
  hist_sum (get_histogram ADDRBYTES t []) = tree_sum t.
Proof.
  intros R H. unfold get_histogram, tree_sum. cbn [app].
  rewrite sum_msum by assumption.
  rewrite <- (u64_small _ (hist_sum_range _)).
  apply get_histogram_from_sum; [assumption | lia].
Qed.

(** ** The height of the tree *)

Lemma add_at_height p : forall n val n' up,
  add_at n p val = Ok (n', up) -> height n' = height n.
Proof.
  induction p as [|b p IH]; intros [p0 p1 s d] val n' up E; cbn [add_at] in E.
  - cbn in E. injection E as <- _. reflexivity.
  - destruct b.
    + destruct p1 as [c1|]; [|discriminate].
      destruct (add_at c1 p val) as [[c' u]|] eqn:Ec; [|discriminate].
      cbn in E. injection E as <- _. cbn [height]. rewrite (IH _ _ _ _ Ec). reflexivity.
    + destruct p0 as [c0|]; [|discriminate].
      destruct (add_at c0 p val) as [[c' u]|] eqn:Ec; [|discriminate].
      cbn in E. injection E as <- _. cbn [height]. rewrite (IH _ _ _ _ Ec). reflexivity.
Qed.

Lemma add_walk_height bits : forall depth addr val ptr n' created up p,
  add_walk bits depth addr val ptr = (n', created, up, p) ->
  (height n' <= Nat.max (height ptr) bits)%nat.
Proof.
  induction bits as [|bits IH]; intros depth addr val [p0 p1 s d] n' created up p E;
    cbn [add_walk] in E.
  - cbn in E. injection E as <- _ _ _. cbn [height]. lia.
  - destruct (bit addr depth).
    + destruct (add_walk bits (depth + 1) addr val
                  (match p1 with Some c => c | None => new_node end))
        as [[[c' cr] u] q] eqn:Ew.
      assert (n' = Node p0 (Some c') s (d || u)).
      { destruct p1; rewrite Ew in E; injection E as <- _ _ _; reflexivity. }
      subst n'. apply IH in Ew. cbn [height].
      destruct p1 as [c1|]; cbn [height new_node] in *; lia.
    + destruct (add_walk bits (depth + 1) addr val
                  (match p0 with Some c => c | None => new_node end))
        as [[[c' cr] u] q] eqn:Ew.
      assert (n' = Node (Some c') p1 s (d || u)).
      { destruct p0; rewrite Ew in E; injection E as <- _ _ _; reflexivity. }
      subst n'. apply IH in Ew. cbn [height].
      destruct p0 as [c0|]; cbn [height new_node] in *; lia.
Qed.

Lemma replace_at_height p : forall n m m',
  deref n p = Some m -> (height m' <= height m)%nat ->
  (height (replace_at n p m') <= height n)%nat.
Proof.
  induction p as [|b p IH]; intros [p0 p1 s d] m m' E H; cbn in E.
  - injection E as <-. exact H.
  - destruct b, p0 as [c0|], p1 as [c1|]; try discriminate;
      cbn [replace_at height]; specialize (IH _ _ m' E H); lia.
Qed.

(** ** Invariants of the tree over the pruning calls *)

Section TREE_INVARIANT.

Variable P : iptreet -> Prop.

Hypothesis P_node_prune : forall this t r t',
  node_prune this t = Ok (r, t') -> P t -> P t'.

Lemma prune_keeps t r t' : prune t = Ok (r, t') -> P t -> P t'.
Proof.
  unfold prune. destruct (term (root t)).
  - intros E. injection E as _ <-. auto.
  - destruct (best_to_prune (root t) root_depth) as [b|]; [|discriminate].
    cbn [bind]. apply P_node_prune.
Qed.

Lemma prune_while_keeps fuel : forall t t',
  prune_while fuel t = Ok t' -> P t -> P t'.
Proof.
  induction fuel as [|fuel IH]; intros t t'; cbn [prune_while].
  - destruct (_ >? _); [discriminate|]. intros E. injection E as <-. auto.
  - destruct (_ >? _).
    + destruct (prune t) as [[r t1]|] eqn:Pr; [|discriminate]. cbn [bind].
      intros E H. pose proof (prune_keeps _ _ _ Pr H) as H1.
      destruct (r =? 0); [injection E as <-; auto | eauto].
    + intros E. injection E as <-. auto.
Qed.

Lemma prune_if_greater_keeps limit t t' :
  prune_if_greater limit t = Ok t' -> P t -> P t'.
Proof.
  unfold prune_if_greater. destruct (_ >=? _).
  - apply prune_while_keeps.
  - intros E. injection E as <-. auto.
Qed.

End TREE_INVARIANT.

Lemma clamp_min addrlen (ADDRBYTES : nat) :
  (if addrlen >? Z.of_nat ADDRBYTES then Z.of_nat ADDRBYTES else addrlen)
  = Z.min addrlen (Z.of_nat ADDRBYTES).
Proof. destruct (Z.gtb_spec addrlen (Z.of_nat ADDRBYTES)); lia. Qed.

(** ** Invariants of the root over sequences of calls *)

Section ROOT_INVARIANT.

Variable ADDRBYTES : nat.
Variable P : node -> Prop.

(** a bound on the number of bits of the keys *)
Variable B : nat.

Hypothesis P_prune : forall n p m,
  P n -> deref n p = Some m ->
  (forall c, ptr0 m = Some c -> term c = true) ->
  (forall c, ptr1 m = Some c -> term c = true) ->
  P (replace_at n p (pruned_node m)).

Hypothesis P_add_at : forall n p val n' up,
  P n -> add_at n p val = Ok (n', up) -> P n'.

Hypothesis P_add_walk : forall bits addr val n n' created up p,
  (bits <= B)%nat ->
  P n -> add_walk bits 0 addr val n = (n', created, up, p) -> P n'.

Lemma node_prune_invariant this t r t' :
  node_prune this t = Ok (r, t') -> P (root t) -> P (root t').
Proof.
  intros E H. apply node_prune_inv in E.
  destruct E as (n & D & _ & T0 & T1 & -> & _). eauto.
Qed.

Lemma prune_if_greater_invariant limit t t' :
  prune_if_greater limit t = Ok t' -> P (root t) -> P (root t').
Proof.
  apply (prune_if_greater_keeps (fun t => P (root t)) node_prune_invariant).
Qed.

Lemma add_invariant addr addrlen val t t' :
  (key_bits ADDRBYTES (Add addr addrlen val) <= B)%nat ->
  add ADDRBYTES addr addrlen val t = Ok t' -> P (root t) -> P (root t').
Proof.
  unfold add. cbn [key_bits]. rewrite clamp_min. intros Hb E H.
  destruct (prune_if_greater (maxnodes t) t) as [t1|] eqn:Pr; [|discriminate].
  cbn [bind] in E. apply (prune_if_greater_invariant _ _ _ Pr) in H.
  set (len := Z.min addrlen (Z.of_nat ADDRBYTES)) in *.
  destruct (cache_search_root addr (Z.to_nat len) t1) as (Hr & _).
  destruct (cache_search addr (Z.to_nat len) t1) as [i t2]. cbn [snd] in Hr.
  rewrite <- Hr in H.
  destruct i as [e|].
  - destruct (ce_ptr e) as [p|]; [|discriminate].
    destruct (add_at (root t2) p val) as [[r up]|] eqn:A; [|discriminate].
    cbn [bind] in E. injection E as <-. cbn [root with_root]. eauto.
  - destruct (add_walk (Z.to_nat (len * 8)) 0 addr val (root t2)) as [[[r created] up] p] eqn:A.
    injection E as <-. cbn [root cache_replace]. eauto.
Qed.

Lemma step_invariant t o t' :
  (key_bits ADDRBYTES o <= B)%nat ->
  step ADDRBYTES t o = Ok t' -> P (root t) -> P (root t').
Proof.
  destruct o as [addr addrlen val| |limit]; cbn [step]; intros Hb.
  - apply add_invariant, Hb.
  - destruct (prune t) as [[r t1]|] eqn:Pr; [|discriminate]. cbn [bind].
    intros E. injection E as <-.
    eapply (prune_keeps (fun t => P (root t)) node_prune_invariant); eauto.
  - apply prune_if_greater_invariant.
Qed.

Lemma run_invariant ops : forall t t',
  Forall (fun o => (key_bits ADDRBYTES o <= B)%nat) ops ->
  run ADDRBYTES ops t = Ok t' -> P (root t) -> P (root t').
Proof.
  induction ops as [|o ops IH]; intros t t' Hb; cbn [run].
  - intros E. injection E as <-. auto.
  - inversion Hb as [|? ? Ho Hops]; subst.
    destruct (step ADDRBYTES t o) as [t1|] eqn:S; [|discriminate]. cbn [bind].
    intros E H. apply (step_invariant _ _ _ Ho S) in H. eauto.
Qed.

End ROOT_INVARIANT.

Lemma pruned_node_height n : height (pruned_node n) = O.
Proof. destruct n. reflexivity. Qed.

Lemma run_shallow ADDRBYTES B ops t t' :
  Forall (fun o => (key_bits ADDRBYTES o <= B)%nat) ops ->
  run ADDRBYTES ops t = Ok t' ->
  ranged (root t) /\ (height (root t) <= B)%nat ->
  ranged (root t') /\ (height (root t') <= B)%nat.
Proof.
  apply (run_invariant ADDRBYTES (fun n => ranged n /\ (height n <= B)%nat) B).
  - intros n p m (R & H) D T0 T1. split.
    + apply replace_at_ranged; [exact R|].
      apply pruned_node_sum; eauto using deref_ranged.
    + pose proof (replace_at_height p n m (pruned_node m) D) as Hh.
      rewrite pruned_node_height in Hh. lia.
  - intros n p val n' up (R & H) A. split.
    + eapply add_at_sum; eauto.
    + rewrite (add_at_height _ _ _ _ _ A). exact H.
  - intros bits addr val n n' created up p Hb (R & H) A. split.
    + eapply add_walk_sum; eauto.
    + apply add_walk_height in A. lia.
Qed.

(** in a tree of addresses of at most 16 bytes no key has more than 128 bits *)
Lemma key_bits_base ADDRBYTES ops :
  (ADDRBYTES <= 16)%nat ->
  Forall (fun o => (key_bits ADDRBYTES o <= 128)%nat) ops.
Proof.
  intros HA. apply Forall_forall. intros [addr addrlen val| |limit] _; cbn; lia.
Qed.

(** C5, as amended.  For every state of a tree that was built from keys of
    at most 16 bytes, which is every state of the base tree and every state
    of a pair tree of address pairs of at most 8 bytes each, the counts of
    the histogram entries add up, in the weight type, to [sum()] of the
    tree. *)
Theorem histogram_totality ADDRBYTES maxnodes_ ops t :
  (ADDRBYTES <= 16)%nat \/
  Forall (fun o => (key_bits ADDRBYTES o <= 128)%nat) ops ->
  run ADDRBYTES ops (new_iptreet ADDRBYTES maxnodes_) = Ok t ->
  hist_sum (get_histogram ADDRBYTES t []) = tree_sum t.
Proof.
  intros HA E.
  assert (Hb : Forall (fun o => (key_bits ADDRBYTES o <= 128)%nat) ops)
    by (destruct HA; [apply key_bits_base|]; assumption).
  destruct (run_shallow _ _ _ _ _ Hb E) as (R & H).
  { split; [apply new_node_ranged | cbn; lia]. }
  apply get_histogram_sum; [exact R | lia].
Qed.

(** ** Bits of a buffer *)

Lemma bitpos i : Z.land (7 - i) 7 = 7 - i mod 8.
Proof.
  change 7 with (Z.ones 3) at 2. rewrite Z.land_ones by lia.
  change (2 ^ 3) with 8. symmetry. apply Z.mod_unique_pos with (q := - (i / 8)).
  - pose proof (Z.mod_pos_bound i 8). lia.
  - pose proof (Z.div_mod i 8). lia.
Qed.

Lemma land_pow2 b k : 0 <= k ->
  Z.land b (2 ^ k) = if Z.testbit b k then 2 ^ k else 0.
Proof.
  intros Hk. apply Z.bits_inj'. intros n Hn.
  rewrite Z.land_spec, Z.pow2_bits_eqb by assumption.
  destruct (Z.eqb_spec k n) as [->|Ne].
  - destruct (Z.testbit b n) eqn:T; cbn.
    + rewrite Z.pow2_bits_eqb, Z.eqb_refl by assumption. reflexivity.
    + rewrite Z.bits_0. reflexivity.
  - rewrite andb_false_r. destruct (Z.testbit b k).
    + rewrite Z.pow2_bits_eqb by assumption. symmetry. apply Z.eqb_neq. exact Ne.
    + rewrite Z.bits_0. reflexivity.
Qed.

Lemma bit_testbit addr i :
  bit addr i = Z.testbit (byte_at addr (i / 8)) (7 - i mod 8).
Proof.
  unfold bit, bitmask. rewrite bitpos, Z.shiftl_1_l.
  pose proof (Z.mod_pos_bound i 8).
  rewrite land_pow2 by lia.
  destruct (Z.testbit _ _); [|reflexivity].
  destruct (Z.eqb_spec (2 ^ (7 - i mod 8)) 0) as [E|]; [|reflexivity].
  pose proof (Z.pow_pos_nonneg 2 (7 - i mod 8)). lia.
Qed.

Lemma set_nth_length k f l : List.length (set_nth k f l) = List.length l.
Proof.
  revert k. induction l as [|x l IH]; intros [|k]; cbn; auto.
Qed.

Lemma nth_set_nth_same k f l :
  (k < List.length l)%nat -> nth k (set_nth k f l) 0 = f (nth k l 0).
Proof.
  revert k. induction l as [|x l IH]; intros [|k] H; cbn in *; try lia; auto.
  apply IH. lia.
Qed.

Lemma nth_set_nth_other k m f l :
  k <> m -> nth m (set_nth k f l) 0 = nth m l 0.
Proof.
  revert k m. induction l as [|x l IH]; intros [|k] [|m] H; cbn; auto.
  congruence.
Qed.

Lemma setbit_length addr i : List.length (setbit addr i) = List.length addr.
Proof. apply set_nth_length. Qed.

Lemma bit_index_eq i j : 0 <= i -> 0 <= j ->
  (j =? i) = (j / 8 =? i / 8) && (7 - i mod 8 =? 7 - j mod 8).
Proof.
  intros Hi Hj. pose proof (Z.div_mod i 8). pose proof (Z.div_mod j 8).
  destruct (Z.eqb_spec j i) as [->|Ne].
  - rewrite !Z.eqb_refl. reflexivity.
  - destruct (Z.eqb_spec (j / 8) (i / 8)) as [Ed|]; [|reflexivity].
    destruct (Z.eqb_spec (7 - i mod 8) (7 - j mod 8)) as [Em|]; [|reflexivity].
    lia.
Qed.

Lemma bit_setbit addr i j :
  0 <= i -> 0 <= j -> i / 8 < Z.of_nat (List.length addr) ->
  bit (setbit addr i) j = (j =? i) || bit addr j.
Proof.
  intros Hi Hj Hlen. rewrite !bit_testbit, (bit_index_eq i j Hi Hj).
  unfold setbit, byte_at.
  assert (0 <= i / 8) by (apply Z.div_pos; lia).
  assert (0 <= j / 8) by (apply Z.div_pos; lia).
  pose proof (Z.mod_pos_bound i 8). pose proof (Z.mod_pos_bound j 8).
  destruct (Z.eqb_spec (j / 8) (i / 8)) as [Ed|Nd].
  - rewrite Ed, nth_set_nth_same by lia.
    unfold bitmask. rewrite bitpos, Z.shiftl_1_l, Z.lor_spec, Z.pow2_bits_eqb by lia.
    cbn [andb]. apply orb_comm.
  - rewrite nth_set_nth_other by lia. reflexivity.
Qed.

Lemma byte_at_zeros n i : byte_at (zeros n) i = 0.
Proof.
  unfold byte_at, zeros. generalize (Z.to_nat i). intros k. revert k.
  induction n as [|n IH]; intros [|k]; cbn; auto.
Qed.

Lemma bit_zeros n i : bit (zeros n) i = false.
Proof. rewrite bit_testbit, byte_at_zeros. apply Z.bits_0. Qed.

Lemma bit_cons_low x a j : 0 <= j < 8 -> bit (x :: a) j = Z.testbit x (7 - j).
Proof.
  intros H. rewrite bit_testbit. unfold byte_at.
  rewrite Z.div_small, Z.mod_small by lia. reflexivity.
Qed.

Lemma bit_cons_high x a j : 0 <= j -> bit (x :: a) (j + 8) = bit a j.
Proof.
  intros H. rewrite !bit_testbit. unfold byte_at.
  replace (j + 8) with (j + 1 * 8) by lia.
  rewrite Z.div_add, Z.mod_add by lia.
  assert (0 <= j / 8) by (apply Z.div_pos; lia).
  replace (Z.to_nat (j / 8 + 1)) with (S (Z.to_nat (j / 8))) by lia.
  reflexivity.
Qed.

Lemma byte_ext x y :
  is_byte x -> is_byte y ->
  (forall k, 0 <= k < 8 -> Z.testbit x k = Z.testbit y k) -> x = y.
Proof.
  intros Hx Hy H. apply Z.bits_inj'. intros n Hn.
  destruct (Z.ltb_spec n 8) as [L|G]; [apply H; lia|].
  rewrite <- (Z.mod_small x (2 ^ 8)), <- (Z.mod_small y (2 ^ 8)) by exact Hx || exact Hy.
  rewrite !Z.mod_pow2_bits_high by lia. reflexivity.
Qed.

Lemma bytes_ext a : forall b,
  List.length a = List.length b ->
  Forall is_byte a -> Forall is_byte b ->
  (forall j, 0 <= j < 8 * Z.of_nat (List.length a) -> bit a j = bit b j) ->
  a = b.
Proof.
  induction a as [|x a IH]; intros [|y b] L Fa Fb H; try discriminate; [reflexivity|].
  cbn [List.length] in L, H. inversion Fa; subst. inversion Fb; subst.
  f_equal.
  - apply byte_ext; try assumption. intros k Hk.
    specialize (H (7 - k)). rewrite !bit_cons_low in H by lia.
    replace (7 - (7 - k)) with k in H by lia. apply H. lia.
  - apply IH; try assumption; [lia|]. intros j Hj.
    specialize (H (j + 8)). rewrite !bit_cons_high in H by lia. apply H. lia.
Qed.

Lemma lor_bitmask_byte b i : is_byte b -> is_byte (Z.lor b (bitmask i)).
Proof.
  unfold is_byte, bitmask. intros Hb. rewrite bitpos, Z.shiftl_1_l.
  pose proof (Z.mod_pos_bound i 8 ltac:(lia)) as Hm.
  assert (Hp : 0 < 2 ^ (7 - i mod 8)) by (apply Z.pow_pos_nonneg; lia).
  assert (Hl : 0 <= Z.lor b (2 ^ (7 - i mod 8))) by (apply Z.lor_nonneg; lia).
  split; [exact Hl|].
  assert (Z.lor b (2 ^ (7 - i mod 8)) <> 0).
  { rewrite Z.lor_eq_0_iff. lia. }
  change 256 with (2 ^ 8). apply Z.log2_lt_pow2; [lia|].
  rewrite Z.log2_lor by lia. rewrite Z.log2_pow2 by lia.
  apply Z.max_lub_lt; [|lia].
  destruct (Z.eq_dec b 0) as [->|]; [cbn; lia|].
  apply Z.log2_lt_pow2; lia.
Qed.

Lemma set_nth_Forall (Q : Z -> Prop) k f l :
  (forall x, Q x -> Q (f x)) -> Forall Q l -> Forall Q (set_nth k f l).
Proof.
  intros Hf. revert k. induction l as [|x l IH]; intros [|k] F; cbn; auto;
    inversion F; subst; constructor; auto.
Qed.

Lemma setbit_bytes addr i : Forall is_byte addr -> Forall is_byte (setbit addr i).
Proof.
  apply set_nth_Forall. intros x. apply lor_bitmask_byte.
Qed.

Lemma zeros_bytes n : Forall is_byte (zeros n).
Proof.
  unfold zeros. induction n; cbn; constructor; auto. unfold is_byte. lia.
Qed.

Lemma zeros_length n : List.length (zeros n) = n.
Proof. apply repeat_length. Qed.

(** setting bit [k] when [c] holds *)
Lemma bit_cond_setbit (c : bool) buf k j :
  0 <= k -> 0 <= j -> k / 8 < Z.of_nat (List.length buf) ->
  bit (if c then setbit buf k else buf) j = bit buf j || ((j =? k) && c).
Proof.
  intros Hk Hj Hl. destruct c.
  - rewrite bit_setbit by assumption. rewrite andb_true_r. apply orb_comm.
  - rewrite andb_false_r, orb_false_r. reflexivity.
Qed.

Lemma cond_setbit_length (c : bool) buf k :
  List.length (if c then setbit buf k else buf) = List.length buf.
Proof. destruct c; [apply setbit_length | reflexivity]. Qed.

Lemma cond_setbit_bytes (c : bool) buf k :
  Forall is_byte buf -> Forall is_byte (if c then setbit buf k else buf).
Proof. destruct c; [apply setbit_bytes | auto]. Qed.

(** ** Interleaving and de-interleaving *)

(** a comparison whose value follows by arithmetic *)
Ltac holds e :=
  replace e with true
    by (symmetry; first [apply Z.leb_le | apply Z.ltb_lt | apply Z.eqb_eq]; lia).

Ltac fails e :=
  replace e with false
    by (symmetry; first [apply Z.leb_gt | apply Z.ltb_ge | apply Z.eqb_neq]; lia).

Lemma pick_even a1 a2 i : pick a1 a2 (i * 2) = bit a1 i.
Proof.
  unfold pick. rewrite Z.even_mul, orb_true_r, Z.div_mul by lia. reflexivity.
Qed.

Lemma pick_odd a1 a2 i : pick a1 a2 (i * 2 + 1) = bit a2 i.
Proof.
  unfold pick. rewrite Z.even_add, Z.even_mul, orb_true_r. cbn.
  replace (i * 2 + 1) with (1 + i * 2) by lia.
  rewrite Z.div_add by lia. cbn. reflexivity.
Qed.

Lemma interleave_loop_length n : forall i a1 a2 buf,
  List.length (ip2tree.interleave_loop n i a1 a2 buf) = List.length buf.
Proof.
  induction n as [|n IH]; intros i a1 a2 buf; cbn [ip2tree.interleave_loop].
  - reflexivity.
  - rewrite IH, !cond_setbit_length. reflexivity.
Qed.

Lemma interleave_loop_bit n : forall i a1 a2 buf j,
  0 <= i -> 0 <= j ->
  2 * (i + Z.of_nat n) <= 8 * Z.of_nat (List.length buf) ->
  bit (ip2tree.interleave_loop n i a1 a2 buf) j =
  bit buf j || ((2 * i <=? j) && (j <? 2 * (i + Z.of_nat n)) && pick a1 a2 j).
Proof.
  induction n as [|n IH]; intros i a1 a2 buf j Hi Hj Hlen;
    cbn [ip2tree.interleave_loop].
  - replace ((2 * i <=? j) && (j <? 2 * (i + Z.of_nat 0))) with false.
    + rewrite orb_false_r. reflexivity.
    + symmetry. apply andb_false_iff.
      destruct (Z.leb_spec (2 * i) j); [right; apply Z.ltb_ge; lia | left; reflexivity].
  - rewrite IH; try lia.
    2:{ rewrite !cond_setbit_length. lia. }
    rewrite !bit_cond_setbit; try lia.
    2:{ apply Z.div_lt_upper_bound; lia. }
    2:{ rewrite cond_setbit_length. apply Z.div_lt_upper_bound; lia. }
    destruct (bit buf j); [reflexivity|]. cbn [orb].
    destruct (Z.eqb_spec j (i * 2)) as [->|N0].
    { rewrite pick_even.
      fails (i * 2 =? i * 2 + 1).
      fails (2 * (i + 1) <=? i * 2).
      holds (2 * i <=? i * 2).
      holds (i * 2 <? 2 * (i + Z.of_nat (S n))).
      cbn. rewrite !orb_false_r. reflexivity. }
    destruct (Z.eqb_spec j (i * 2 + 1)) as [->|N1].
    { rewrite pick_odd.
      fails (2 * (i + 1) <=? i * 2 + 1).
      holds (2 * i <=? i * 2 + 1).
      holds (i * 2 + 1 <? 2 * (i + Z.of_nat (S n))).
      cbn. rewrite !orb_false_r. reflexivity. }
    cbn [andb orb].
    replace (j <? 2 * (i + 1 + Z.of_nat n)) with (j <? 2 * (i + Z.of_nat (S n)))
      by (f_equal; lia).
    destruct (Z.leb_spec (2 * (i + 1)) j), (Z.leb_spec (2 * i) j);
      try reflexivity; lia.
Qed.

Lemma interleave_loop_bytes n : forall i a1 a2 buf,
  Forall is_byte buf -> Forall is_byte (ip2tree.interleave_loop n i a1 a2 buf).
Proof.
  induction n as [|n IH]; intros i a1 a2 buf F; cbn [ip2tree.interleave_loop].
  - exact F.
  - apply IH. auto using cond_setbit_bytes.
Qed.

Lemma un_pair_loop_length n : forall i r1 r2 addr,
  List.length (fst (ip2tree.un_pair_loop n i r1 r2 addr)) = List.length r1 /\
  List.length (snd (ip2tree.un_pair_loop n i r1 r2 addr)) = List.length r2.
Proof.
  induction n as [|n IH]; intros i r1 r2 addr; cbn [ip2tree.un_pair_loop].
  - auto.
  - destruct (IH (i + 1)
                (if bit addr (i * 2) then setbit r1 i else r1)
                (if bit addr (i * 2 + 1) then setbit r2 i else r2) addr) as (-> & ->).
    rewrite !cond_setbit_length. auto.
Qed.

Lemma un_pair_loop_bytes n : forall i r1 r2 addr,
  Forall is_byte r1 -> Forall is_byte r2 ->
  Forall is_byte (fst (ip2tree.un_pair_loop n i r1 r2 addr)) /\
  Forall is_byte (snd (ip2tree.un_pair_loop n i r1 r2 addr)).
Proof.
  induction n as [|n IH]; intros i r1 r2 addr F1 F2; cbn [ip2tree.un_pair_loop].
  - auto.
  - apply IH; auto using cond_setbit_bytes.
Qed.

Lemma un_pair_loop_bit n : forall i r1 r2 addr j,
  0 <= i -> 0 <= j ->
  i + Z.of_nat n <= 8 * Z.of_nat (List.length r1) ->
  i + Z.of_nat n <= 8 * Z.of_nat (List.length r2) ->
  bit (fst (ip2tree.un_pair_loop n i r1 r2 addr)) j =
    bit r1 j || ((i <=? j) && (j <? i + Z.of_nat n) && bit addr (j * 2)) /\
  bit (snd (ip2tree.un_pair_loop n i r1 r2 addr)) j =
    bit r2 j || ((i <=? j) && (j <? i + Z.of_nat n) && bit addr (j * 2 + 1)).
Proof.
  induction n as [|n IH]; intros i r1 r2 addr j Hi Hj H1 H2;
    cbn [ip2tree.un_pair_loop].
  - replace ((i <=? j) && (j <? i + Z.of_nat 0)) with false.
    + cbn [fst snd andb]. rewrite !orb_false_r. auto.
    + symmetry. apply andb_false_iff.
      destruct (Z.leb_spec i j); [right; apply Z.ltb_ge; lia | left; reflexivity].
  - destruct (IH (i + 1)
                (if bit addr (i * 2) then setbit r1 i else r1)
                (if bit addr (i * 2 + 1) then setbit r2 i else r2) addr j) as (-> & ->);
      rewrite ?cond_setbit_length; try lia.
    rewrite !bit_cond_setbit; try lia; try (apply Z.div_lt_upper_bound; lia).
    replace (j <? i + 1 + Z.of_nat n) with (j <? i + Z.of_nat (S n)) by (f_equal; lia).
    destruct (Z.eqb_spec j i) as [->|Ne].
    + fails (i + 1 <=? i).
      holds (i <=? i).
      holds (i <? i + Z.of_nat (S n)).
      cbn [andb]. rewrite !orb_false_r. auto.
    + cbn [andb]. rewrite !orb_false_r.
      destruct (Z.leb_spec (i + 1) j), (Z.leb_spec i j); try lia; auto.
Qed.

Lemma interleave_bits a1 a2 (L : nat) i :
  (L <= 16)%nat -> 0 <= i < 8 * Z.of_nat L ->
  bit (ip2tree.interleave a1 a2 (Z.of_nat L)) (i * 2) = bit a1 i /\
  bit (ip2tree.interleave a1 a2 (Z.of_nat L)) (i * 2 + 1) = bit a2 i.
Proof.
  intros HL Hi. unfold ip2tree.interleave.
  rewrite u64_small by (unfold two64; lia).
  rewrite !interleave_loop_bit; rewrite ?zeros_length; try lia.
  rewrite !bit_zeros, pick_even, pick_odd. cbn [orb].
  holds (2 * 0 <=? i * 2).
  holds (2 * 0 <=? i * 2 + 1).
  holds (i * 2 <? 2 * (0 + Z.of_nat (Z.to_nat (Z.of_nat L * 8)))).
  holds (i * 2 + 1 <? 2 * (0 + Z.of_nat (Z.to_nat (Z.of_nat L * 8)))).
  auto.
Qed.

(** C7.  For addresses [a1], [a2] of the same length [L] (at most 16 bytes,
    the width [add_pair] has room for), bit [2i] of the buffer [add_pair]
    builds is bit [i] of [a1] and bit [2i+1] is bit [i] of [a2]; [un_pair]
    on that buffer of [2L] bytes gives back [a1] and [a2]; and for a depth
    [d] it gives [depth1 = ceil(d/2)] and [depth2 = floor(d/2)], which add
    up to [d]. *)
Theorem interleave_round_trip (a1 a2 : list Z) (L : nat) (d : Z) :
  List.length a1 = L -> List.length a2 = L -> (L <= 16)%nat ->
  Forall is_byte a1 -> Forall is_byte a2 ->
  0 <= d < two64 - 1 ->
  (forall i, 0 <= i < 8 * Z.of_nat L ->
     bit (ip2tree.interleave a1 a2 (Z.of_nat L)) (i * 2) = bit a1 i /\
     bit (ip2tree.interleave a1 a2 (Z.of_nat L)) (i * 2 + 1) = bit a2 i) /\
  exists depth1 depth2,
    ip2tree.un_pair (zeros L) (zeros L) (Z.of_nat L)
                    (ip2tree.interleave a1 a2 (Z.of_nat L)) (2 * Z.of_nat L) d
      = (a1, a2, depth1, depth2) /\
    d <= 2 * depth1 <= d + 1 /\ depth2 = d / 2 /\ depth1 + depth2 = d.
Proof.
  intros L1 L2 HL F1 F2 Hd. split.
  { intros i Hi. apply interleave_bits; assumption. }
  exists (u64 (d + 1) / 2), (d / 2). split.
  - unfold ip2tree.un_pair.
    set (addr := ip2tree.interleave a1 a2 (Z.of_nat L)).
    set (n := Z.to_nat (u64 (2 * Z.of_nat L * 8) / 2)).
    assert (Hn : Z.of_nat n = 8 * Z.of_nat L).
    { subst n. rewrite u64_small by (unfold two64; lia).
      replace (2 * Z.of_nat L * 8) with (8 * Z.of_nat L * 2) by lia.
      rewrite Z.div_mul by lia. lia. }
    pose proof (un_pair_loop_length n 0 (zeros L) (zeros L) addr) as (Len1 & Len2).
    pose proof (un_pair_loop_bytes n 0 (zeros L) (zeros L) addr
                  (zeros_bytes L) (zeros_bytes L)) as (B1 & B2).
    assert (Bits : forall j, 0 <= j < 8 * Z.of_nat L ->
              bit (fst (ip2tree.un_pair_loop n 0 (zeros L) (zeros L) addr)) j = bit a1 j /\
              bit (snd (ip2tree.un_pair_loop n 0 (zeros L) (zeros L) addr)) j = bit a2 j).
    { intros j Hj.
      destruct (un_pair_loop_bit n 0 (zeros L) (zeros L) addr j) as (-> & ->);
        rewrite ?zeros_length; try lia.
      rewrite !bit_zeros. cbn [orb].
      holds (0 <=? j).
      holds (j <? 0 + Z.of_nat n).
      cbn [andb]. subst addr. apply interleave_bits; assumption. }
    destruct (ip2tree.un_pair_loop n 0 (zeros L) (zeros L) addr) as [r1 r2].
    cbn [fst snd] in *. rewrite zeros_length in Len1, Len2.
    assert (r1 = a1).
    { apply bytes_ext; try assumption; [congruence|].
      intros j Hj. apply Bits. lia. }
    assert (r2 = a2).
    { apply bytes_ext; try assumption; [congruence|].
      intros j Hj. apply Bits. lia. }
    subst. reflexivity.
  - rewrite u64_small by lia.
    pose proof (Z.div_mod d 2 ltac:(lia)) as Dm.
    pose proof (Z.mod_pos_bound d 2 ltac:(lia)) as Mb.
    assert (E : (d + 1) / 2 = d - d / 2).
    { symmetry. apply Z.div_unique with (r := 1 - d mod 2); lia. }
    rewrite E. lia.
Qed.

(** ** How the calls can end *)

Lemma best_to_prune_ends n : forall d,
  term n = false -> ok_or_null (best_to_prune n d).
Proof.
  induction n as [p0 p1 s dd IH0 IH1] using node_ind. intros d T.
  cbn [best_to_prune]. rewrite T.
  destruct p0 as [c0|], p1 as [c1|]; unfold ptr_term, is_null, is_some.
  - destruct (term c0) eqn:T0, (term c1) eqn:T1; cbn [negb andb]; try exact I.
    + pose proof (IH1 c1 eq_refl (d + 1) T1) as H.
      destruct (best_to_prune c1 (d + 1)) as [b|[]]; cbn in *; auto.
    + pose proof (IH0 c0 eq_refl (d + 1) T0) as H.
      destruct (best_to_prune c0 (d + 1)) as [b|[]]; cbn in *; auto.
    + pose proof (IH0 c0 eq_refl (d + 1) T0) as H0.
      pose proof (IH1 c1 eq_refl (d + 1) T1) as H1.
      destruct (best_to_prune c0 (d + 1)) as [b0|[]]; cbn in *; auto.
      destruct (best_to_prune c1 (d + 1)) as [b1|[]]; cbn in *; auto.
  - destruct (term c0) eqn:T0; cbn [negb andb]; try exact I.
    pose proof (IH0 c0 eq_refl (d + 1) T0) as H.
    destruct (best_to_prune c0 (d + 1)) as [b|[]]; cbn in *; auto.
  - destruct (term c1) eqn:T1; cbn [negb andb]; try exact I.
    pose proof (IH1 c1 eq_refl (d + 1) T1) as H.
    destruct (best_to_prune c1 (d + 1)) as [b|[]]; cbn in *; auto.
  - exact I.
Qed.

Lemma node_count_pos n : (0 < node_count n)%nat.
Proof. destruct n. cbn. lia. Qed.

Lemma candidate_node_count m :
  candidate m = true -> (node_count (pruned_node m) < node_count m)%nat.
Proof.
  destruct m as [[c0|] [c1|] s d];
    cbn [candidate ptr0 ptr1 pruned_node node_count]; intros C;
    try discriminate;
    try pose proof (node_count_pos c0); try pose proof (node_count_pos c1); lia.
Qed.

(** [prune()] returns 0 on a terminal root, or prunes a candidate and
    returns 1 with fewer nodes in the tree, or stops in the selector *)
Lemma prune_ends t :
  prune t = Ok (0, t) \/
  (exists t', prune t = Ok (1, t') /\
              (node_count (root t') < node_count (root t))%nat) \/
  prune t = Err NullDeref.
Proof.
  unfold prune. destruct (term (root t)) eqn:T; [left; reflexivity|]. right.
  pose proof (best_to_prune_ends (root t) root_depth T) as H.
  destruct (best_to_prune (root t) root_depth) as [b|f] eqn:B; cbn [bind].
  - left. destruct (best_to_prune_selects _ _ _ B) as (m & D & C & _).
    destruct (candidate_children _ C) as (T0 & T1).
    destruct (node_prune_ok _ _ _ D T0 T1) as (t' & P).
    exists t'. split; [exact P|].
    destruct (node_prune_inv _ _ _ _ P) as (n & Dn & _ & _ & _ & -> & _).
    assert (n = m) by congruence. subst n.
    pose proof (replace_at_node_count _ _ _ (pruned_node m) D).
    pose proof (candidate_node_count m C). lia.
  - right. destruct f; cbn in H; try contradiction. reflexivity.
Qed.

Lemma prune_while_ends fuel : forall t,
  (node_count (root t) <= fuel)%nat -> ok_or_null (prune_while fuel t).
Proof.
  induction fuel as [|fuel IH]; intros t H.
  - pose proof (node_count_pos (root t)). lia.
  - cbn [prune_while]. destruct (_ >? _); [|exact I].
    destruct (prune_ends t) as [E|[(t' & E & Hc)|E]]; rewrite E; cbn; auto.
    apply IH. lia.
Qed.

(** the bound on the loop of [prune_if_greater] is never reached *)
Lemma prune_if_greater_ends limit t : ok_or_null (prune_if_greater limit t).
Proof.
  unfold prune_if_greater. destruct (_ >=? _); [|exact I].
  apply prune_while_ends. lia.
Qed.

(** ** Live pointers *)

Lemma deref_app p : forall n q,
  deref n (p ++ q) = match deref n p with Some m => deref m q | None => None end.
Proof.
  induction p as [|b p IH]; intros n q; cbn [app deref]; [reflexivity|].
  destruct (if b then ptr1 n else ptr0 n); [apply IH | reflexivity].
Qed.

Lemma add_at_live p : forall n val n' up q,
  add_at n p val = Ok (n', up) -> live n' q = live n q.
Proof.
  induction p as [|b p IH]; intros [p0 p1 s d] val n' up q E; cbn [add_at] in E.
  - cbn in E. injection E as <- _. destruct q as [|[] q]; reflexivity.
  - destruct b.
    + destruct p1 as [c1|]; [|discriminate].
      destruct (add_at c1 p val) as [[c' u]|] eqn:Ec; [|discriminate].
      cbn in E. injection E as <- _.
      destruct q as [|[] q]; try reflexivity. apply (IH _ _ _ _ q Ec).
    + destruct p0 as [c0|]; [|discriminate].
      destruct (add_at c0 p val) as [[c' u]|] eqn:Ec; [|discriminate].
      cbn in E. injection E as <- _.
      destruct q as [|[] q]; try reflexivity. apply (IH _ _ _ _ q Ec).
Qed.

Lemma add_at_ok p : forall n val,
  live n p = true -> exists r, add_at n p val = Ok r.
Proof.
  induction p as [|b p IH]; intros [p0 p1 s d] val L; cbn [add_at].
  - eauto.
  - unfold live in L. cbn [deref ptr0 ptr1] in L.
    destruct (if b then p1 else p0) as [c|]; [|discriminate].
    destruct (IH c val L) as ([c' u] & ->). cbn. eauto.
Qed.

Lemma walk_path_S addr depth bits :
  walk_path addr depth (S bits) = bit addr depth :: walk_path addr (depth + 1) bits.
Proof.
  unfold walk_path. cbn [seq map]. rewrite Z.add_0_r. f_equal.
  rewrite <- seq_shift, map_map. apply map_ext. intros i. f_equal. lia.
Qed.

Lemma add_walk_path bits : forall depth addr val ptr n' created up p,
  add_walk bits depth addr val ptr = (n', created, up, p) ->
  p = walk_path addr depth bits /\ live n' p = true /\
  forall q, live ptr q = true -> live n' q = true.
Proof.
  induction bits as [|bits IH]; intros depth addr val [p0 p1 s d] n' created up p E;
    cbn [add_walk] in E.
  - cbn in E. injection E as <- _ _ <-. repeat split.
    intros [|[] q]; auto.
  - rewrite walk_path_S. destruct (bit addr depth).
    + destruct (add_walk bits (depth + 1) addr val
                  (match p1 with Some c => c | None => new_node end))
        as [[[c' cr] u] q'] eqn:Ew.
      assert (n' = Node p0 (Some c') s (d || u) /\ p = true :: q') as (-> & ->).
      { destruct p1; rewrite Ew in E; injection E as <- _ _ <-; auto. }
      destruct (IH _ _ _ _ _ _ _ _ Ew) as (-> & L & M).
      split; [reflexivity|]. split; [exact L|].
      intros [|[] q]; auto. unfold live. cbn [deref ptr0 ptr1].
      destruct p1 as [c1|]; [apply M | discriminate].
    + destruct (add_walk bits (depth + 1) addr val
                  (match p0 with Some c => c | None => new_node end))
        as [[[c' cr] u] q'] eqn:Ew.
      assert (n' = Node (Some c') p1 s (d || u) /\ p = false :: q') as (-> & ->).
      { destruct p0; rewrite Ew in E; injection E as <- _ _ <-; auto. }
      destruct (IH _ _ _ _ _ _ _ _ Ew) as (-> & L & M).
      split; [reflexivity|]. split; [exact L|].
      intros [|[] q]; auto. unfold live. cbn [deref ptr0 ptr1].
      destruct p0 as [c0|]; [apply M | discriminate].
Qed.

(** after the children of the node at [this] were deleted, a pointer that
    was live and is not one of the children is still live *)
Lemma replace_at_live this : forall n m m' q,
  deref n this = Some m ->
  (forall c, ptr0 m = Some c -> term c = true) ->
  (forall c, ptr1 m = Some c -> term c = true) ->
  live n q = true ->
  q <> this ++ [false] -> q <> this ++ [true] ->
  live (replace_at n this m') q = true.
Proof.
  induction this as [|x this IH]; intros n m m' q D T0 T1 L N0 N1.
  - cbn in D. injection D as <-. cbn [replace_at app] in *.
    destruct q as [|b q]; [reflexivity|]. exfalso.
    unfold live in L. cbn [deref] in L.
    destruct b.
    + destruct (ptr1 n) as [c|] eqn:Ec; [|discriminate].
      destruct (deref c q) as [mq|] eqn:Dq; [|discriminate].
      destruct (deref_term _ _ _ (T1 c eq_refl) Dq) as (-> & _). congruence.
    + destruct (ptr0 n) as [c|] eqn:Ec; [|discriminate].
      destruct (deref c q) as [mq|] eqn:Dq; [|discriminate].
      destruct (deref_term _ _ _ (T0 c eq_refl) Dq) as (-> & _). congruence.
  - destruct n as [p0 p1 s d]. cbn [deref ptr0 ptr1] in D.
    destruct q as [|y q]; [reflexivity|].
    unfold live in *. cbn [replace_at deref ptr0 ptr1 app] in *.
    destruct x, y, p0 as [c0|], p1 as [c1|]; cbn [ptr0 ptr1 deref] in *;
      try discriminate; try exact L;
      apply (IH _ m m' q D T0 T1 L); congruence.
Qed.

(** ** Coherence of the cache *)

Lemma cache_remove_from_length c p :
  List.length (cache_remove_from c p) = List.length c.
Proof.
  induction c as [|e c IH]; cbn; [reflexivity|].
  destruct (ce_ptr e) as [q|]; [destruct (path_eqb q p)|]; cbn; congruence.
Qed.

Lemma path_eqb_eq p q : path_eqb p q = true <-> p = q.
Proof.
  unfold path_eqb. destruct (list_eq_dec bool_dec p q); split; congruence.
Qed.

Lemma cache_remove_from_ptrs c p x :
  In x (cache_ptrs (cache_remove_from c p)) -> In x (cache_ptrs c).
Proof.
  induction c as [|e c IH]; cbn; [auto|].
  destruct (ce_ptr e) as [q|] eqn:Eq.
  - destruct (path_eqb q p); cbn; rewrite ?Eq; cbn; tauto.
  - cbn. rewrite Eq. cbn. exact IH.
Qed.

Lemma cache_remove_from_NoDup c p :
  NoDup (cache_ptrs c) ->
  NoDup (cache_ptrs (cache_remove_from c p)) /\
  ~ In p (cache_ptrs (cache_remove_from c p)).
Proof.
  induction c as [|e c IH]; cbn; [intros _; split; [constructor | auto]|].
  destruct (ce_ptr e) as [q|] eqn:Eq; cbn.
  - intros N. inversion N as [|? ? Nin N']; subst.
    destruct (path_eqb q p) eqn:Ep; cbn; rewrite ?Eq; cbn.
    + apply path_eqb_eq in Ep. subst q. auto.
    + destruct (IH N') as (N1 & N2). split.
      * constructor; [|exact N1]. intros H. apply Nin.
        eapply cache_remove_from_ptrs; eauto.
      * intros [H|H]; [|auto]. subst q.
        assert (path_eqb p p = true) by (apply path_eqb_eq; reflexivity). congruence.
  - rewrite Eq. cbn. exact IH.
Qed.

Lemma cache_remove_from_Forall (Q : cache_element -> Prop) c p :
  (forall e, Q e -> Q (mk_cache_element (ce_addr e) None)) ->
  Forall Q c -> Forall Q (cache_remove_from c p).
Proof.
  intros HQ. induction c as [|e c IH]; cbn; intros F; [constructor|].
  inversion F; subst.
  destruct (ce_ptr e) as [q|]; [destruct (path_eqb q p)|]; constructor; auto.
Qed.

Lemma cache_ptrs_In c e p :
  In e c -> ce_ptr e = Some p -> In p (cache_ptrs c).
Proof.
  intros H E. unfold cache_ptrs. apply in_flat_map. exists e. rewrite E. cbn. auto.
Qed.

Lemma cache_ptrs_inv c p :
  In p (cache_ptrs c) -> exists e, In e c /\ ce_ptr e = Some p.
Proof.
  unfold cache_ptrs. intros H. apply in_flat_map in H. destruct H as (e & He & Hp).
  exists e. split; [exact He|]. destruct (ce_ptr e); cbn in Hp; [|contradiction].
  destruct Hp as [->|[]]. reflexivity.
Qed.

Lemma node_prune_cache this t r t' n :
  node_prune this t = Ok (r, t') -> deref (root t) this = Some n ->
  cache t' = cache_pruned (cache t) this n.
Proof.
  unfold node_prune. intros E D. rewrite D in E. destruct n as [p0 p1 s d].
  destruct (prune_child p0 (this ++ [false]) (s, t)) as [[s0 t0]|] eqn:E0; [|discriminate].
  cbn [bind] in E.
  destruct (prune_child p1 (this ++ [true]) (s0, t0)) as [[s1 t1]|] eqn:E1; [|discriminate].
  cbn [bind] in E. injection E as _ <-.
  apply prune_child_inv in E0, E1.
  destruct E0 as (_ & _ & H0), E1 as (_ & _ & H1).
  unfold cache_pruned. cbn [ptr0 ptr1 cache with_root].
  destruct p0, p1; cbn [is_some]; intuition congruence.
Qed.

Lemma cache_pruned_spec c this n :
  NoDup (cache_ptrs c) ->
  List.length (cache_pruned c this n) = List.length c /\
  NoDup (cache_ptrs (cache_pruned c this n)) /\
  (forall x, In x (cache_ptrs (cache_pruned c this n)) -> In x (cache_ptrs c)) /\
  (is_some (ptr0 n) = true -> ~ In (this ++ [false]) (cache_ptrs (cache_pruned c this n))) /\
  (is_some (ptr1 n) = true -> ~ In (this ++ [true]) (cache_ptrs (cache_pruned c this n))).
Proof.
  intros N. unfold cache_pruned.
  destruct (is_some (ptr0 n)), (is_some (ptr1 n)).
  - destruct (cache_remove_from_NoDup c (this ++ [false]) N) as (N1 & X1).
    destruct (cache_remove_from_NoDup _ (this ++ [true]) N1) as (N2 & X2).
    rewrite !cache_remove_from_length. repeat split; auto.
    + intros x H. eauto using cache_remove_from_ptrs.
    + intros _ H. apply X1. eauto using cache_remove_from_ptrs.
  - destruct (cache_remove_from_NoDup c (this ++ [false]) N) as (N1 & X1).
    rewrite !cache_remove_from_length. repeat split; auto; try discriminate.
    intros x H. eauto using cache_remove_from_ptrs.
  - destruct (cache_remove_from_NoDup c (this ++ [true]) N) as (N1 & X1).
    rewrite !cache_remove_from_length. repeat split; auto; try discriminate.
    intros x H. eauto using cache_remove_from_ptrs.
  - repeat split; auto; discriminate.
Qed.

Lemma cache_pruned_Forall (Q : cache_element -> Prop) c this n :
  (forall e, Q e -> Q (mk_cache_element (ce_addr e) None)) ->
  Forall Q c -> Forall Q (cache_pruned c this n).
Proof.
  intros HQ F. unfold cache_pruned.
  destruct (is_some (ptr0 n)), (is_some (ptr1 n));
    auto using cache_remove_from_Forall.
Qed.

Lemma node_prune_cache_ok ADDRBYTES this t r t' :
  node_prune this t = Ok (r, t') -> cache_ok ADDRBYTES t -> cache_ok ADDRBYTES t'.
Proof.
  intros E (Hlen & N & F).
  destruct (node_prune_inv _ _ _ _ E) as (n & D & _ & T0 & T1 & Hr & _).
  pose proof (node_prune_cache _ _ _ _ _ E D) as Hc.
  destruct (cache_pruned_spec (cache t) this n N) as (L' & N' & Sub & X0 & X1).
  unfold cache_ok. rewrite Hc, Hr. split; [congruence|]. split; [exact N'|].
  assert (F' : Forall (fun e =>
            List.length (ce_addr e) = ADDRBYTES /\
            Forall is_byte (ce_addr e) /\
            forall p, ce_ptr e = Some p -> live (root t) p = true /\ key_of e p)
          (cache_pruned (cache t) this n)).
  { apply cache_pruned_Forall; [|exact F].
    intros e (H1 & H2 & _). cbn. repeat split; auto; discriminate. }
  rewrite Forall_forall in F' |- *. intros e He.
  destruct (F' e He) as (H1 & H2 & H3). split; [exact H1|]. split; [exact H2|].
  intros p Ep. destruct (H3 p Ep) as (Lp & Kp). split; [|exact Kp].
  pose proof (cache_ptrs_In _ _ _ He Ep) as Hin.
  apply (replace_at_live this (root t) n); auto.
  - intros ->. destruct (ptr0 n) as [c|] eqn:E0.
    + apply X0; auto.
    + unfold live in Lp. rewrite deref_app, D in Lp. cbn in Lp. rewrite E0 in Lp.
      discriminate.
  - intros ->. destruct (ptr1 n) as [c|] eqn:E1.
    + apply X1; auto.
    + unfold live in Lp. rewrite deref_app, D in Lp. cbn in Lp. rewrite E1 in Lp.
      discriminate.
Qed.


(** ** Keys and pointers *)

Lemma bytes_eqb_eq a : forall b, bytes_eqb a b = true <-> a = b.
Proof.
  induction a as [|x a IH]; intros [|y b]; cbn; split; try congruence; try discriminate.
  - intros H. apply andb_prop in H. destruct H as (Hx & Hr).
    apply Z.eqb_eq in Hx. apply IH in Hr. congruence.
  - intros E. injection E as -> ->. rewrite Z.eqb_refl. apply IH. reflexivity.
Qed.

Lemma bit_firstn n a i : 0 <= i < 8 * Z.of_nat n -> bit (firstn n a) i = bit a i.
Proof.
  intros H. rewrite !bit_testbit. unfold byte_at. rewrite nth_firstn.
  assert (0 <= i / 8 < Z.of_nat n).
  { split; [apply Z.div_pos; lia | apply Z.div_lt_upper_bound; lia]. }
  destruct (Nat.ltb_spec (Z.to_nat (i / 8)) n); [reflexivity | lia].
Qed.

Lemma bit_memcpy dst src n i :
  (n <= List.length src)%nat -> 0 <= i < 8 * Z.of_nat n ->
  bit (memcpy dst src n) i = bit src i.
Proof.
  intros Hn H. rewrite <- (bit_firstn n src i H). rewrite !bit_testbit.
  unfold memcpy, byte_at. rewrite app_nth1; [reflexivity|].
  rewrite firstn_length_le by exact Hn.
  assert (0 <= i / 8 < Z.of_nat n).
  { split; [apply Z.div_pos; lia | apply Z.div_lt_upper_bound; lia]. }
  lia.
Qed.

Lemma memcpy_length dst src n :
  (n <= List.length src)%nat -> (n <= List.length dst)%nat ->
  List.length (memcpy dst src n) = List.length dst.
Proof.
  intros Hs Hd. unfold memcpy.
  rewrite length_app, firstn_length_le, length_skipn by exact Hs. lia.
Qed.

Lemma Forall_firstn_bytes n l : Forall is_byte l -> Forall is_byte (firstn n l).
Proof.
  intros F. revert n. induction F; intros [|n]; cbn; constructor; auto.
Qed.

Lemma Forall_skipn_bytes n l : Forall is_byte l -> Forall is_byte (skipn n l).
Proof.
  intros F. revert n. induction F; intros [|n]; cbn; auto.
Qed.

Lemma memcpy_bytes dst src n :
  Forall is_byte dst -> Forall is_byte src -> Forall is_byte (memcpy dst src n).
Proof.
  intros Fd Fs. unfold memcpy. apply Forall_app.
  split; [apply Forall_firstn_bytes | apply Forall_skipn_bytes]; assumption.
Qed.

Lemma walk_path_length addr depth bits : List.length (walk_path addr depth bits) = bits.
Proof. unfold walk_path. rewrite length_map, length_seq. reflexivity. Qed.

Lemma walk_path_ext a b bits :
  walk_path a 0 bits = walk_path b 0 bits <->
  forall i, 0 <= i < Z.of_nat bits -> bit a i = bit b i.
Proof.
  unfold walk_path. split.
  - intros E i Hi.
    assert (Hin : In (Z.to_nat i) (seq 0 bits)) by (apply in_seq; lia).
    pose proof (f_equal (fun l => nth (Z.to_nat i) l false) E) as En. cbn in En.
    rewrite !(nth_indep _ false (bit a 0)) in En
      by (rewrite length_map, length_seq; lia).
    rewrite (map_nth (fun i => bit a (0 + Z.of_nat i)) (seq 0 bits) O) in En.
    rewrite (nth_indep _ (bit a 0) (bit b 0)) in En
      by (rewrite length_map, length_seq; lia).
    rewrite (map_nth (fun i => bit b (0 + Z.of_nat i)) (seq 0 bits) O) in En.
    rewrite seq_nth in En by lia. cbn in En.
    rewrite Z2Nat.id in En by lia. exact En.
  - intros H. apply map_ext_in. intros i Hi. apply in_seq in Hi.
    apply H. lia.
Qed.

(** a stored key whose first [n] bytes spell the pointer of [addr] compares
    equal to [addr] *)
Lemma key_matches e addr (n : nat) :
  (n <= List.length (ce_addr e))%nat -> (n <= List.length addr)%nat ->
  Forall is_byte (ce_addr e) -> Forall is_byte addr ->
  key_of e (walk_path addr 0 (8 * n)) ->
  memcmp0 (ce_addr e) addr n = true.
Proof.
  intros He Ha Fe Fa (k & Hk & E).
  assert (k = n).
  { pose proof (f_equal (@List.length bool) E) as El.
    unfold prefix_path in El. rewrite !walk_path_length in El. lia. }
  subst k. unfold prefix_path in E. symmetry in E.
  rewrite walk_path_ext in E.
  unfold memcmp0. apply bytes_eqb_eq. apply bytes_ext.
  - rewrite !firstn_length_le by assumption. reflexivity.
  - apply Forall_firstn_bytes. exact Fe.
  - apply Forall_firstn_bytes. exact Fa.
  - intros j Hj. rewrite firstn_length_le in Hj by assumption.
    rewrite !bit_firstn by lia. apply E. lia.
Qed.

Lemma cache_search_from_Some c addr n e :
  cache_search_from c addr n = Some e ->
  In e c /\ is_some (ce_ptr e) = true /\ memcmp0 (ce_addr e) addr n = true.
Proof.
  induction c as [|x c IH]; cbn; [discriminate|].
  destruct (is_some (ce_ptr x) && memcmp0 (ce_addr x) addr n) eqn:H.
  - intros E. injection E as <-. apply andb_prop in H. tauto.
  - intros E. destruct (IH E) as (? & ? & ?). auto.
Qed.

Lemma cache_search_from_None c addr n :
  cache_search_from c addr n = None ->
  forall e, In e c -> is_some (ce_ptr e) && memcmp0 (ce_addr e) addr n = false.
Proof.
  induction c as [|x c IH]; cbn; [intros _ e []|].
  destruct (is_some (ce_ptr x) && memcmp0 (ce_addr x) addr n) eqn:H; [discriminate|].
  intros E e [<-|He]; auto.
Qed.

Lemma cache_set_length i f c : List.length (cache_set i f c) = List.length c.
Proof.
  revert i. induction c as [|e c IH]; intros [|i]; cbn; auto.
Qed.

Lemma cache_set_Forall (Q : cache_element -> Prop) i f c :
  (forall e, Q e -> Q (f e)) -> Forall Q c -> Forall Q (cache_set i f c).
Proof.
  intros Hf. revert i. induction c as [|e c IH]; intros [|i] F; cbn; auto;
    inversion F; subst; constructor; auto.
Qed.

Lemma cache_set_ptrs_In i f c ptr x :
  (forall e, ce_ptr (f e) = Some ptr) ->
  In x (cache_ptrs (cache_set i f c)) -> x = ptr \/ In x (cache_ptrs c).
Proof.
  intros Hf. revert i. induction c as [|e c IH]; intros [|i]; cbn; auto.
  - rewrite Hf. cbn. intros [<-|H]; auto. right. apply in_or_app. auto.
  - intros H. apply in_app_or in H. destruct H as [H|H].
    + right. apply in_or_app. auto.
    + destruct (IH i H); auto. right. apply in_or_app. auto.
Qed.

Lemma cache_set_NoDup i f c ptr :
  (forall e, ce_ptr (f e) = Some ptr) ->
  ~ In ptr (cache_ptrs c) -> NoDup (cache_ptrs c) ->
  NoDup (cache_ptrs (cache_set i f c)).
Proof.
  intros Hf. revert i. induction c as [|e c IH]; intros [|i] Nin N; cbn in *; auto.
  - rewrite Hf. cbn. constructor.
    + intros H. apply Nin. apply in_or_app. auto.
    + destruct (ce_ptr e); cbn in N; [inversion N; auto | exact N].
  - destruct (ce_ptr e) as [q|]; cbn in *.
    + inversion N as [|? ? Hq N']; subst. constructor.
      * intros H. destruct (cache_set_ptrs_In _ _ _ _ _ Hf H) as [->|H']; auto.
      * apply IH; auto.
    + apply IH; auto.
Qed.

Lemma cache_ok_root ADDRBYTES t t' :
  cache t' = cache t ->
  (forall q, live (root t) q = true -> live (root t') q = true) ->
  cache_ok ADDRBYTES t -> cache_ok ADDRBYTES t'.
Proof.
  intros Ec M (Hlen & N & F). unfold cache_ok. rewrite Ec.
  split; [exact Hlen|]. split; [exact N|].
  eapply Forall_impl; [|exact F]. cbn. intros e (H1 & H2 & H3).
  split; [exact H1|]. split; [exact H2|].
  intros p Ep. destruct (H3 p Ep). auto.
Qed.

Lemma cache_replace_ok ADDRBYTES addr (n : nat) ptr t r nodes' added' :
  cache_ok ADDRBYTES t ->
  (n <= ADDRBYTES)%nat -> (n <= List.length addr)%nat -> Forall is_byte addr ->
  (forall q, live (root t) q = true -> live r q = true) ->
  live r ptr = true -> ptr = walk_path addr 0 (8 * n) ->
  cache_search_from (cache t) addr n = None ->
  cache_ok ADDRBYTES
    (cache_replace addr n ptr
       (mk_iptreet r nodes' (maxnodes t) added' (pruned t)
                   (cache t) (cachenext t) (cache_hits t) (cache_misses t))).
Proof.
  intros (Hlen & N & F) Hn Ha Fa M Lp Ep Miss.
  unfold cache_ok, cache_replace. cbn [cache root].
  set (f := fun e => mk_cache_element (memcpy (ce_addr e) addr n) (Some ptr)).
  set (i := Z.to_nat _).
  assert (Hf : forall e, ce_ptr (f e) = Some ptr) by reflexivity.
  assert (Nin : ~ In ptr (cache_ptrs (cache t))).
  { intros H. apply cache_ptrs_inv in H. destruct H as (e & He & Ee).
    rewrite Forall_forall in F. destruct (F e He) as (H1 & H2 & H3).
    destruct (H3 ptr Ee) as (_ & K).
    pose proof (cache_search_from_None _ _ _ Miss e He) as Hm.
    rewrite Ee in Hm. cbn in Hm.
    rewrite key_matches in Hm; try assumption; [discriminate | lia | congruence]. }
  split; [rewrite cache_set_length; exact Hlen|].
  split; [apply (cache_set_NoDup i f _ ptr); assumption|].
  apply cache_set_Forall.
  - intros e (H1 & H2 & H3). subst f. cbn [ce_addr ce_ptr].
    split; [rewrite memcpy_length; lia|].
    split; [apply memcpy_bytes; assumption|].
    intros p E. injection E as <-. split; [exact Lp|].
    exists n. cbn [ce_addr]. split; [rewrite memcpy_length; lia|].
    rewrite Ep. unfold prefix_path. apply walk_path_ext.
    intros j Hj. rewrite bit_memcpy by lia. reflexivity.
  - eapply Forall_impl; [|exact F]. cbn. intros e (H1 & H2 & H3).
    split; [exact H1|]. split; [exact H2|].
    intros p E. destruct (H3 p E). auto.
Qed.

Lemma prune_if_greater_cache_ok ADDRBYTES limit t t' :
  prune_if_greater limit t = Ok t' -> cache_ok ADDRBYTES t -> cache_ok ADDRBYTES t'.
Proof.
  apply (prune_if_greater_keeps (cache_ok ADDRBYTES)).
  intros this t0 r t1. apply node_prune_cache_ok.
Qed.

(** once the pruning before it has ended normally, [add] ends normally: it
    increments a live node found through the cache, or the node its descent
    ends at *)
Lemma add_ok ADDRBYTES addr addrlen val t t1 :
  wf_op ADDRBYTES (Add addr addrlen val) -> cache_ok ADDRBYTES t ->
  prune_if_greater (maxnodes t) t = Ok t1 ->
  exists t',
    add ADDRBYTES addr addrlen val t = Ok t' /\ cache_ok ADDRBYTES t' /\
    ((exists p up, add_at (root t1) p val = Ok (root t', up)) \/
     (exists bits created up ptr,
        add_walk bits 0 addr val (root t1) = (root t', created, up, ptr))).
Proof.
  intros (Hl & Ha & Fa) C P. unfold add. rewrite P. cbn [bind].
  apply (prune_if_greater_cache_ok _ _ _ _ P) in C.
  rewrite clamp_min.
  set (len := Z.min addrlen (Z.of_nat ADDRBYTES)) in *.
  replace (Z.to_nat (len * 8)) with (8 * Z.to_nat len)%nat by lia.
  destruct (cache_search_root addr (Z.to_nat len) t1) as (Hr & Hm & _ & Hc & Hs).
  destruct (cache_search addr (Z.to_nat len) t1) as [i t2]. cbn [fst snd] in *.
  assert (C2 : cache_ok ADDRBYTES t2).
  { apply (cache_ok_root _ t1); [exact Hc | rewrite Hr; auto | exact C]. }
  rewrite <- Hr.
  destruct i as [e|].
  - symmetry in Hs. destruct (cache_search_from_Some _ _ _ _ Hs) as (Hin & Hp & _).
    destruct (ce_ptr e) as [p|] eqn:Ep; [|discriminate].
    pose proof C2 as (Hlen & N & F). rewrite Forall_forall in F. rewrite <- Hc in Hin.
    destruct (F e Hin) as (_ & _ & H3). destruct (H3 p Ep) as (Lp & _).
    destruct (add_at_ok p (root t2) val Lp) as ([r up] & A). rewrite A. cbn [bind].
    eexists. split; [reflexivity|]. cbn [root with_root]. split; [|left; eauto].
    apply (cache_ok_root _ t2); [reflexivity | | exact C2].
    cbn [root with_root]. intros q Lq. rewrite (add_at_live _ _ _ _ _ q A). exact Lq.
  - destruct (add_walk (8 * Z.to_nat len) 0 addr val (root t2))
      as [[[r created] up] ptr] eqn:A.
    eexists. split; [reflexivity|]. cbn [root cache_replace]. split; [|right; eauto 6].
    destruct (add_walk_path _ _ _ _ _ _ _ _ _ A) as (Eptr & Lp & M).
    pose proof (cache_replace_ok ADDRBYTES addr (Z.to_nat len) ptr t2 r
                  (u64 (nodes t2 + created)) (u64 (ctr_added t2 + created))) as R.
    apply R; auto; try lia. congruence.
Qed.

Lemma add_cache_ok ADDRBYTES addr addrlen val t :
  wf_op ADDRBYTES (Add addr addrlen val) -> cache_ok ADDRBYTES t ->
  ok_or_null (add ADDRBYTES addr addrlen val t) /\
  forall t', add ADDRBYTES addr addrlen val t = Ok t' -> cache_ok ADDRBYTES t'.
Proof.
  intros W C.
  pose proof (prune_if_greater_ends (maxnodes t) t) as He.
  destruct (prune_if_greater (maxnodes t) t) as [t1|f] eqn:P.
  - destruct (add_ok _ _ _ _ _ _ W C P) as (t' & E & C' & _). rewrite E.
    split; [exact I|]. intros t'' E'. congruence.
  - unfold add. rewrite P. cbn [bind]. split; [exact He | discriminate].
Qed.

Lemma new_iptreet_cache_ok ADDRBYTES maxnodes_ :
  cache_ok ADDRBYTES (new_iptreet ADDRBYTES maxnodes_).
Proof.
  unfold cache_ok, new_iptreet. cbn [cache root].
  split; [reflexivity|]. split; [cbn; constructor|].
  apply Forall_forall. intros e He. apply repeat_spec in He. subst e. cbn.
  split; [apply zeros_length|]. split; [apply zeros_bytes|]. discriminate.
Qed.

Lemma step_cache_ok ADDRBYTES t o :
  wf_op ADDRBYTES o -> cache_ok ADDRBYTES t ->
  ok_or_null (step ADDRBYTES t o) /\
  forall t', step ADDRBYTES t o = Ok t' -> cache_ok ADDRBYTES t'.
Proof.
  destruct o as [addr addrlen val| |limit]; cbn [step]; intros W C.
  - apply add_cache_ok; assumption.
  - destruct (prune_ends t) as [E|[(t' & E & _)|E]]; rewrite E; cbn [bind].
    + split; [exact I|]. intros t' H. injection H as <-. exact C.
    + split; [exact I|]. intros t'' H. injection H as <-.
      eapply (prune_keeps (cache_ok ADDRBYTES)); eauto.
      intros this t0 r t1. apply node_prune_cache_ok.
    + split; [exact I | discriminate].
  - split; [apply prune_if_greater_ends|].
    intros t' E. eapply prune_if_greater_cache_ok; eauto.
Qed.

(** Every call of a sequence of well-formed calls on a fresh tree ends
    normally, unless the selector reads through a null pointer; the cache is
    coherent after every call: a stored pointer never outlives its node. *)
Theorem run_ends ADDRBYTES ops : forall t,
  Forall (wf_op ADDRBYTES) ops -> cache_ok ADDRBYTES t ->
  ok_or_null (run ADDRBYTES ops t) /\
  forall t', run ADDRBYTES ops t = Ok t' -> cache_ok ADDRBYTES t'.
Proof.
  induction ops as [|o ops IH]; intros t W C; cbn [run].
  - split; [exact I|]. intros t' E. injection E as <-. exact C.
  - inversion W as [|? ? Wo Wops]; subst.
    destruct (step_cache_ok ADDRBYTES t o Wo C) as (He & Hc).
    destruct (step ADDRBYTES t o) as [t1|f]; cbn [bind].
    + apply IH; auto.
    + split; [exact He | discriminate].
Qed.

(** ** Runs that count without overflow *)

Lemma msum_nonneg n : ranged n -> 0 <= msum n.
Proof.
  induction n as [p0 p1 s d IH0 IH1] using node_ind. intros (Hs & R0 & R1).
  cbn [msum].
  assert (0 <= match p0 with Some c => msum c | None => 0 end)
    by (destruct p0; [apply (IH0 _ eq_refl R0) | lia]).
  assert (0 <= match p1 with Some c => msum c | None => 0 end)
    by (destruct p1; [apply (IH1 _ eq_refl R1) | lia]).
  lia.
Qed.

Lemma deref_msum_le p : forall n m,
  ranged n -> deref n p = Some m -> msum m <= msum n.
Proof.
  induction p as [|b p IH]; intros [p0 p1 s d] m R E; cbn [deref ptr0 ptr1] in E.
  - injection E as <-. lia.
  - destruct R as (Hs & R0 & R1). cbn [msum].
    assert (0 <= match p0 with Some c => msum c | None => 0 end)
      by (destruct p0; [apply msum_nonneg; exact R0 | lia]).
    assert (0 <= match p1 with Some c => msum c | None => 0 end)
      by (destruct p1; [apply msum_nonneg; exact R1 | lia]).
    destruct b.
    + destruct p1 as [c|]; [|discriminate]. specialize (IH _ _ R1 E). lia.
    + destruct p0 as [c|]; [|discriminate]. specialize (IH _ _ R0 E). lia.
Qed.

Lemma leaves_term_below_weaken n : leaves_term n = true -> leaves_term_below n = true.
Proof. destruct n as [[?|] [?|] s d]; cbn; auto. Qed.

Lemma node_add_exact n val n' up :
  node_add n val = (n', up) -> ranged n -> 0 < val -> msum n + val < two64 ->
  leaves_term_below n = true ->
  ranged n' /\ msum n' = msum n + val /\ leaves_term n' = true.
Proof.
  destruct n as [p0 p1 s d]. cbn [node_add]. intros E (Hs & R0 & R1) Hv Ho L.
  injection E as <- _.
  assert (H0 : 0 <= match p0 with Some c => msum c | None => 0 end)
    by (destruct p0; [apply msum_nonneg; exact R0 | lia]).
  assert (H1 : 0 <= match p1 with Some c => msum c | None => 0 end)
    by (destruct p1; [apply msum_nonneg; exact R1 | lia]).
  cbn [msum] in Ho.
  assert (Et : tadd s val = s + val) by (apply u64_small; lia).
  rewrite Et. cbn [ranged msum]. split; [repeat split; auto; lia|]. split; [lia|].
  destruct p0, p1; cbn [leaves_term leaves_term_below] in *; auto.
  apply Z.gtb_lt. lia.
Qed.

Lemma leaves_term_node p0 p1 s d :
  (is_some p0 || is_some p1 = true) ->
  leaves_term (Node p0 p1 s d) =
  (match p0 with Some c => leaves_term c | None => true end) &&
  (match p1 with Some c => leaves_term c | None => true end).
Proof. destruct p0, p1; cbn; auto; discriminate. Qed.

Lemma add_at_exact p : forall n val n' up,
  add_at n p val = Ok (n', up) -> ranged n -> 0 < val -> msum n + val < two64 ->
  leaves_term_below n = true ->
  ranged n' /\ msum n' = msum n + val /\ leaves_term n' = true.
Proof.
  induction p as [|b p IH]; intros [p0 p1 s d] val n' up E R Hv Ho L.
  - cbn [add_at] in E.
    assert (E' : node_add (Node p0 p1 s d) val = (n', up)) by congruence.
    eapply node_add_exact; eauto.
  - cbn [add_at] in E. pose proof R as (Hs & R0 & R1).
    assert (H0 : 0 <= match p0 with Some c => msum c | None => 0 end)
      by (destruct p0; [apply msum_nonneg; exact R0 | lia]).
    assert (H1 : 0 <= match p1 with Some c => msum c | None => 0 end)
      by (destruct p1; [apply msum_nonneg; exact R1 | lia]).
    cbn [msum] in Ho.
    destruct b.
    + destruct p1 as [c1|]; [|discriminate].
      destruct (add_at c1 p val) as [[c' u]|] eqn:Ec; [|discriminate].
      cbn in E. injection E as <- _.
      assert (Lc : leaves_term c1 = true /\
                   match p0 with Some c => leaves_term c = true | None => True end).
      { destruct p0; cbn in L; [apply andb_prop in L; tauto | auto]. }
      destruct (IH _ _ _ _ Ec R1 Hv ltac:(lia)
                  (leaves_term_below_weaken _ (proj1 Lc))) as (Rc & Mc & Tc).
      cbn [ranged msum]. split; [repeat split; auto; lia|]. split; [lia|].
      rewrite leaves_term_node by (cbn; apply orb_true_r).
      rewrite Tc, andb_true_r. destruct p0; tauto.
    + destruct p0 as [c0|]; [|discriminate].
      destruct (add_at c0 p val) as [[c' u]|] eqn:Ec; [|discriminate].
      cbn in E. injection E as <- _.
      assert (Lc : leaves_term c0 = true /\
                   match p1 with Some c => leaves_term c = true | None => True end).
      { destruct p1; cbn in L; [apply andb_prop in L; tauto | rewrite ?andb_true_r in L; auto]. }
      destruct (IH _ _ _ _ Ec R0 Hv ltac:(lia)
                  (leaves_term_below_weaken _ (proj1 Lc))) as (Rc & Mc & Tc).
      cbn [ranged msum]. split; [repeat split; auto; lia|]. split; [lia|].
      rewrite leaves_term_node by reflexivity.
      rewrite Tc, andb_true_l. destruct p1; tauto.
Qed.

Lemma add_walk_exact bits : forall depth addr val ptr n' created up p,
  add_walk bits depth addr val ptr = (n', created, up, p) ->
  ranged ptr -> 0 < val -> msum ptr + val < two64 ->
  leaves_term_below ptr = true ->
  ranged n' /\ msum n' = msum ptr + val /\ leaves_term n' = true.
Proof.
  induction bits as [|bits IH]; intros depth addr val [p0 p1 s d] n' created up p E R Hv Ho L.
  - cbn [add_walk] in E.
    destruct (node_add (Node p0 p1 s d) val) as [n u] eqn:En.
    injection E as <- _ _ _. eapply node_add_exact; eauto.
  - cbn [add_walk] in E. pose proof R as (Hs & R0 & R1).
    assert (H0 : 0 <= match p0 with Some c => msum c | None => 0 end)
      by (destruct p0; [apply msum_nonneg; exact R0 | lia]).
    assert (H1 : 0 <= match p1 with Some c => msum c | None => 0 end)
      by (destruct p1; [apply msum_nonneg; exact R1 | lia]).
    cbn [msum] in Ho.
    destruct (bit addr depth).
    + set (c := match p1 with Some c => c | None => new_node end).
      assert (Rc : ranged c) by (subst c; destruct p1; auto using new_node_ranged).
      assert (Mc : msum c = match p1 with Some c => msum c | None => 0 end)
        by (subst c; destruct p1; reflexivity).
      assert (Lc : leaves_term_below c = true /\
                   match p0 with Some c => leaves_term c = true | None => True end).
      { subst c. destruct p0, p1; cbn in L |- *; try (apply andb_prop in L);
          intuition auto using leaves_term_below_weaken. }
      destruct (add_walk bits (depth + 1) addr val c) as [[[c' cr] u] q] eqn:Ew.
      assert (n' = Node p0 (Some c') s (d || u)).
      { subst c. destruct p1; rewrite Ew in E; injection E as <- _ _ _; reflexivity. }
      subst n'.
      destruct (IH _ _ _ _ _ _ _ _ Ew Rc Hv ltac:(lia) (proj1 Lc)) as (Rc' & Mc' & Tc).
      cbn [ranged msum]. split; [repeat split; auto; lia|]. split; [lia|].
      rewrite leaves_term_node by (cbn; apply orb_true_r).
      rewrite Tc, andb_true_r. destruct p0; tauto.
    + set (c := match p0 with Some c => c | None => new_node end).
      assert (Rc : ranged c) by (subst c; destruct p0; auto using new_node_ranged).
      assert (Mc : msum c = match p0 with Some c => msum c | None => 0 end)
        by (subst c; destruct p0; reflexivity).
      assert (Lc : leaves_term_below c = true /\
                   match p1 with Some c => leaves_term c = true | None => True end).
      { subst c. destruct p0, p1; cbn in L |- *; try (apply andb_prop in L);
          rewrite ?andb_true_r in L; intuition auto using leaves_term_below_weaken. }
      destruct (add_walk bits (depth + 1) addr val c) as [[[c' cr] u] q] eqn:Ew.
      assert (n' = Node (Some c') p1 s (d || u)).
      { subst c. destruct p0; rewrite Ew in E; injection E as <- _ _ _; reflexivity. }
      subst n'.
      destruct (IH _ _ _ _ _ _ _ _ Ew Rc Hv ltac:(lia) (proj1 Lc)) as (Rc' & Mc' & Tc).
      cbn [ranged msum]. split; [repeat split; auto; lia|]. split; [lia|].
      rewrite leaves_term_node by reflexivity.
      rewrite Tc, andb_true_l. destruct p1; tauto.
Qed.

Lemma deref_leaves_term p : forall n m,
  leaves_term n = true -> deref n p = Some m -> leaves_term m = true.
Proof.
  induction p as [|b p IH]; intros [p0 p1 s d] m L E; cbn [deref ptr0 ptr1] in E.
  - injection E as <-. exact L.
  - destruct (leaves_term_child _ _ _ _ L) as (L0 & L1).
    destruct b; [destruct p1 as [c|] | destruct p0 as [c|]]; try discriminate; eauto.
Qed.

Lemma replace_at_leaves_term this : forall n m m',
  deref n this = Some m -> leaves_term n = true -> leaves_term m' = true ->
  leaves_term (replace_at n this m') = true.
Proof.
  induction this as [|x this IH]; intros [p0 p1 s d] m m' D L L'.
  - exact L'.
  - destruct (leaves_term_child _ _ _ _ L) as (L0 & L1).
    cbn [deref ptr0 ptr1] in D. cbn [replace_at].
    destruct x.
    + destruct p1 as [c1|]; [|discriminate].
      rewrite leaves_term_node by (cbn; apply orb_true_r).
      rewrite (IH _ _ _ D (L1 _ eq_refl) L'), andb_true_r.
      destruct p0; auto.
    + destruct p0 as [c0|]; [|discriminate].
      rewrite leaves_term_node by reflexivity.
      rewrite (IH _ _ _ D (L0 _ eq_refl) L'), andb_true_l.
      destruct p1; auto.
Qed.

Lemma pruned_node_exact m :
  (forall c, ptr0 m = Some c -> term c = true) ->
  (forall c, ptr1 m = Some c -> term c = true) ->
  ranged m -> leaves_term m = true -> msum m < two64 ->
  msum (pruned_node m) = msum m /\ leaves_term (pruned_node m) = true.
Proof.
  destruct m as [p0 p1 s d]. cbn [ptr0 ptr1]. intros T0 T1 (Hs & R0 & R1) L Ho.
  assert (M0 : forall c, p0 = Some c -> msum c = nodesum c /\ 0 < nodesum c).
  { intros c E. destruct (term_inv c (T0 c E)) as (sc & dc & -> & ?). cbn. lia. }
  assert (M1 : forall c, p1 = Some c -> msum c = nodesum c /\ 0 < nodesum c).
  { intros c E. destruct (term_inv c (T1 c E)) as (sc & dc & -> & ?). cbn. lia. }
  cbn [msum] in Ho. unfold pruned_node. cbn [msum leaves_term].
  destruct p0 as [c0|], p1 as [c1|];
    try destruct (M0 _ eq_refl) as (E0 & P0); try destruct (M1 _ eq_refl) as (E1 & P1);
    rewrite ?E0, ?E1 in *; unfold tadd;
    rewrite ?(u64_small (s + nodesum c0)) by lia;
    rewrite ?(u64_small (s + nodesum c1)) by lia;
    rewrite ?(u64_small (s + nodesum c0 + nodesum c1)) by lia;
    (split; [lia|]); try (apply Z.gtb_lt; lia).
  exact L.
Qed.

Lemma node_prune_full this t r t' W :
  node_prune this t = Ok (r, t') -> W < two64 ->
  ranged (root t) -> msum (root t) = W -> leaves_term (root t) = true ->
  ranged (root t') /\ msum (root t') = W /\ leaves_term (root t') = true.
Proof.
  intros E HW R M L.
  destruct (node_prune_inv _ _ _ _ E) as (n & D & _ & T0 & T1 & -> & _).
  pose proof (deref_ranged _ _ _ R D) as Rn.
  pose proof (deref_msum_le _ _ _ R D) as Hle.
  destruct (pruned_node_exact n T0 T1 Rn (deref_leaves_term _ _ _ L D) ltac:(lia))
    as (Mn & Ln).
  split; [|split].
  - apply replace_at_ranged; [exact R|]. apply pruned_node_sum; assumption.
  - rewrite (replace_at_msum _ _ _ _ D). lia.
  - eapply replace_at_leaves_term; eauto.
Qed.

Lemma prune_full t W :
  W < two64 -> full W t -> exists r t', prune t = Ok (r, t') /\ full W t'.
Proof.
  intros HW (R & M & L). unfold prune. destruct (term (root t)) eqn:T.
  - exists 0, t. repeat split; assumption.
  - destruct (best_to_prune_total _ root_depth L T) as (b & B). rewrite B. cbn [bind].
    destruct (best_to_prune_selects _ _ _ B) as (m & D & C & _).
    destruct (candidate_children _ C) as (T0 & T1).
    destruct (node_prune_ok _ _ _ D T0 T1) as (t' & P).
    exists 1, t'. split; [exact P|]. eapply node_prune_full; eauto.
Qed.

Lemma prune_while_full fuel W : forall t,
  (node_count (root t) <= fuel)%nat -> W < two64 -> full W t ->
  exists t', prune_while fuel t = Ok t' /\ full W t'.
Proof.
  induction fuel as [|fuel IH]; intros t Hc HW F.
  - pose proof (node_count_pos (root t)). lia.
  - cbn [prune_while]. destruct (_ >? _); [|eauto].
    destruct (prune_full t W HW F) as (r & t' & P & F').
    destruct (prune_ends t) as [E|[(t'' & E & Hlt)|E]]; rewrite E in P; try discriminate.
    + injection P as <- <-. rewrite E. cbn. eauto.
    + injection P as <- <-. rewrite E. cbn. apply IH; auto. lia.
Qed.

Lemma prune_if_greater_sound limit t W :
  W < two64 -> sound W t ->
  exists t', prune_if_greater limit t = Ok t' /\ sound W t' /\
             (leaves_term (root t) = true -> leaves_term (root t') = true).
Proof.
  intros HW (R & M & [L|(Er & En)]); unfold prune_if_greater.
  - destruct (_ >=? _).
    + destruct (prune_while_full (node_count (root t)) W t (le_n _) HW
                  (conj R (conj M L))) as (t' & E & (R' & M' & L')).
      exists t'. split; [exact E|]. split; [|auto]. repeat split; auto.
    + exists t. split; [reflexivity|]. split; [|auto]. repeat split; auto.
  - exists t. split.
    + destruct (_ >=? _); [|reflexivity]. rewrite Er. cbn [node_count prune_while new_node].
      rewrite En.
      assert (H : (0 >? u64 (maxnodes t * 9) / 10) = false).
      { rewrite Z.gtb_ltb. apply Z.ltb_ge.
        apply Z.div_pos; [apply u64_range | lia]. }
      rewrite H. reflexivity.
    + split; [|auto]. repeat split; auto.
Qed.

Lemma sound_leaves_term_below W t : sound W t -> leaves_term_below (root t) = true.
Proof.
  intros (_ & _ & [L|(-> & _)]); [apply leaves_term_below_weaken, L | reflexivity].
Qed.

Lemma add_sound ADDRBYTES addr addrlen val t W :
  wf_op ADDRBYTES (Add addr addrlen val) -> cache_ok ADDRBYTES t -> sound W t ->
  0 < val -> W + val < two64 ->
  exists t', add ADDRBYTES addr addrlen val t = Ok t' /\
             cache_ok ADDRBYTES t' /\ full (W + val) t'.
Proof.
  intros Wf C S Hv Ho.
  assert (HW : W < two64) by lia.
  destruct (prune_if_greater_sound (maxnodes t) t W HW S) as (t1 & P & S1 & _).
  destruct (add_ok _ _ _ _ _ _ Wf C P) as (t' & E & C' & H).
  exists t'. split; [exact E|]. split; [exact C'|].
  pose proof (sound_leaves_term_below _ _ S1) as Lb.
  destruct S1 as (R1 & M1 & _). unfold full. rewrite <- M1.
  destruct H as [(p & up & A)|(bits & created & up & ptr & A)].
  - eapply add_at_exact; eauto. lia.
  - eapply add_walk_exact; eauto. lia.
Qed.

Lemma total_weight_nonneg ops : Forall positive_op ops -> 0 <= total_weight ops.
Proof.
  induction 1 as [|o ops Ho _ IH]; cbn [total_weight]; [lia|].
  destruct o; cbn in Ho; lia.
Qed.

Lemma run_sound ADDRBYTES ops : forall t W,
  Forall (wf_op ADDRBYTES) ops -> Forall positive_op ops ->
  W + total_weight ops < two64 ->
  cache_ok ADDRBYTES t -> sound W t ->
  leaves_term (root t) = true \/ no_prune_on_empty ops ->
  exists t', run ADDRBYTES ops t = Ok t' /\ sound (W + total_weight ops) t'.
Proof.
  induction ops as [|o ops IH]; intros t W Wf Pos Ho C S Hp; cbn [run total_weight].
  - exists t. rewrite Z.add_0_r. auto.
  - inversion Wf as [|? ? Wo Wops]; subst. inversion Pos as [|? ? Po Pops]; subst.
    pose proof (total_weight_nonneg ops Pops) as Hn.
    destruct o as [addr addrlen val| |limit]; cbn [step total_weight] in *.
    + destruct (add_sound _ _ _ _ _ _ Wo C S Po ltac:(lia)) as (t1 & E & C1 & F1).
      rewrite E. cbn [bind].
      destruct (IH t1 (W + val) Wops Pops ltac:(lia) C1) as (t' & E' & S').
      { destruct F1 as (R & M & L). repeat split; auto. }
      { left. apply F1. }
      exists t'. split; [exact E'|]. rewrite Z.add_assoc. exact S'.
    + assert (L : leaves_term (root t) = true) by (destruct Hp as [L|[]]; exact L).
      destruct S as (R & M & _).
      destruct (prune_full t W ltac:(lia) (conj R (conj M L))) as (r & t1 & E & F1).
      rewrite E. cbn [bind].
      apply IH; auto.
      * eapply (prune_keeps (cache_ok ADDRBYTES)); eauto.
        intros this t0 r0 t2. apply node_prune_cache_ok.
      * destruct F1 as (R1 & M1 & L1). repeat split; auto.
      * left. apply F1.
    + destruct (prune_if_greater_sound limit t W ltac:(lia) S) as (t1 & E & S1 & L1).
      rewrite E. cbn [bind].
      apply IH; auto.
      * eapply prune_if_greater_cache_ok; eauto.
      * destruct Hp as [L|Hp]; auto.
Qed.

Lemma new_iptreet_sound ADDRBYTES maxnodes_ : sound 0 (new_iptreet ADDRBYTES maxnodes_).
Proof.
  split; [apply new_node_ranged|]. split; [reflexivity|]. right. split; reflexivity.
Qed.

(** A sequence of well-formed calls with positive weights that add up to
    less than 2^64 and with no [prune()] before the first [add] runs to its
    end on a fresh tree, and [sum()] is then the sum of the weights. *)
Lemma run_completes ADDRBYTES maxnodes_ ops :
  Forall (wf_op ADDRBYTES) ops -> Forall positive_op ops ->
  total_weight ops < two64 -> no_prune_on_empty ops ->
  exists t, run ADDRBYTES ops (new_iptreet ADDRBYTES maxnodes_) = Ok t /\
            tree_sum t = total_weight ops.
Proof.
  intros Wf Pos Ho Np.
  destruct (run_sound ADDRBYTES ops (new_iptreet ADDRBYTES maxnodes_) 0 Wf Pos
              ltac:(lia) (new_iptreet_cache_ok _ _) (new_iptreet_sound _ _)
              (or_intror Np)) as (t & E & (R & M & _)).
  exists t. split; [exact E|]. unfold tree_sum.
  rewrite sum_msum, M by exact R. cbn.
  apply u64_small. pose proof (total_weight_nonneg ops Pos). lia.
Qed.

(** C1.  Conservation of totals.  Whatever sequence of [add], [prune] and
    [prune_if_greater] calls has run on a freshly created tree, [sum()] of
    the tree is the sum, in the weight type, of the weights that were
    supplied to [add].  The sequence does run to its end when the calls are
    well formed, the weights are positive and add up to less than 2^64, and
    [prune()] is not called before the first [add]; [sum()] is then the sum
    of the weights in the integers. *)
Theorem conservation ADDRBYTES maxnodes_ ops :
  (forall t, run ADDRBYTES ops (new_iptreet ADDRBYTES maxnodes_) = Ok t ->
             tree_sum t = weights ops) /\
  (Forall (wf_op ADDRBYTES) ops -> Forall positive_op ops ->
   total_weight ops < two64 -> no_prune_on_empty ops ->
   exists t, run ADDRBYTES ops (new_iptreet ADDRBYTES maxnodes_) = Ok t /\
             tree_sum t = total_weight ops).
Proof.
  split.
  - intros t. apply run_conserves_fresh.
  - apply run_completes.
Qed.

Lemma conservation_witness :
  run 16 mixed_ops (new_iptreet 16 40) = Ok mixed_tree /\
  tree_sum mixed_tree = weights mixed_ops /\
  exists t, run 16 mixed_ops (new_iptreet 16 40) = Ok t /\
            tree_sum t = total_weight mixed_ops.
Proof.
  assert (R : run 16 mixed_ops (new_iptreet 16 40) = Ok mixed_tree)
    by (vm_compute; reflexivity).
  split; [exact R|].
  split; [exact (proj1 (conservation 16 40 mixed_ops) mixed_tree R)|].
  apply (proj2 (conservation 16 40 mixed_ops)).
  - repeat constructor; cbn; try lia; unfold is_byte; lia.
  - repeat constructor; cbn; lia.
  - reflexivity.
  - exact I.
Defined.

(** ** The node counter and the bound on the size *)

Lemma u64_sub_l x y : u64 (u64 x - y) = u64 (x - y).
Proof. unfold u64. apply Zminus_mod_idemp_l. Qed.

Lemma add_at_node_count p : forall n val n' up,
  add_at n p val = Ok (n', up) -> node_count n' = node_count n.
Proof.
  induction p as [|b p IH]; intros [p0 p1 s d] val n' up E; cbn [add_at] in E.
  - cbn in E. injection E as <- _. reflexivity.
  - destruct b.
    + destruct p1 as [c1|]; [|discriminate].
      destruct (add_at c1 p val) as [[c' u]|] eqn:Ec; [|discriminate].
      cbn in E. injection E as <- _. cbn [node_count]. rewrite (IH _ _ _ _ Ec). reflexivity.
    + destruct p0 as [c0|]; [|discriminate].
      destruct (add_at c0 p val) as [[c' u]|] eqn:Ec; [|discriminate].
      cbn in E. injection E as <- _. cbn [node_count]. rewrite (IH _ _ _ _ Ec). reflexivity.
Qed.

Lemma add_walk_node_count bits : forall depth addr val ptr n' created up p,
  add_walk bits depth addr val ptr = (n', created, up, p) ->
  Z.of_nat (node_count n') = Z.of_nat (node_count ptr) + created.
Proof.
  induction bits as [|bits IH]; intros depth addr val [p0 p1 s d] n' created up p E;
    cbn [add_walk] in E.
  - cbn in E. injection E as <- <- _ _. cbn [node_count]. lia.
  - destruct (bit addr depth).
    + destruct (add_walk bits (depth + 1) addr val
                  (match p1 with Some c => c | None => new_node end))
        as [[[c' cr] u] q] eqn:Ew.
      pose proof (IH _ _ _ _ _ _ _ _ Ew) as Hc.
      assert (H : created = (match p1 with Some _ => 0 | None => 1 end) + cr /\
                  n' = Node p0 (Some c') s (d || u)).
      { destruct p1; rewrite Ew in E; injection E as <- <- _ _; split; reflexivity. }
      destruct H as (-> & ->).
      destruct p1 as [c1|]; cbn [node_count new_node] in Hc |- *; lia.
    + destruct (add_walk bits (depth + 1) addr val
                  (match p0 with Some c => c | None => new_node end))
        as [[[c' cr] u] q] eqn:Ew.
      pose proof (IH _ _ _ _ _ _ _ _ Ew) as Hc.
      assert (H : created = (match p0 with Some _ => 0 | None => 1 end) + cr /\
                  n' = Node (Some c') p1 s (d || u)).
      { destruct p0; rewrite Ew in E; injection E as <- <- _ _; split; reflexivity. }
      destruct H as (-> & ->).
      destruct p0 as [c0|]; cbn [node_count new_node] in Hc |- *; lia.
Qed.

Lemma term_node_count c : term c = true -> node_count c = 1%nat.
Proof. intros T. destruct (term_inv c T) as (s & d & -> & _). reflexivity. Qed.

Lemma node_prune_counted this t r t' :
  node_prune this t = Ok (r, t') -> counted t -> counted t'.
Proof.
  intros E C. destruct (node_prune_inv _ _ _ _ E) as (n & D & _ & T0 & T1 & Hr & _ & Hn).
  unfold counted in *. rewrite Hn, Hr, C.
  pose proof (replace_at_node_count _ _ _ (pruned_node n) D) as Hc.
  destruct n as [p0 p1 s d]. cbn [ptr0 ptr1 pruned_node node_count] in *.
  destruct p0 as [c0|], p1 as [c1|]; cbn [is_some];
    try rewrite (term_node_count _ (T0 _ eq_refl)) in Hc;
    try rewrite (term_node_count _ (T1 _ eq_refl)) in Hc;
    repeat (rewrite u64_sub_l || rewrite <- Z.sub_add_distr); f_equal; lia.
Qed.

Lemma add_counted ADDRBYTES addr addrlen val t t' :
  add ADDRBYTES addr addrlen val t = Ok t' -> counted t -> counted t'.
Proof.
  unfold add. intros E C.
  destruct (prune_if_greater (maxnodes t) t) as [t1|] eqn:P; [|discriminate].
  cbn [bind] in E.
  apply (prune_if_greater_keeps counted node_prune_counted _ _ _ P) in C.
  set (len := if addrlen >? Z.of_nat ADDRBYTES then Z.of_nat ADDRBYTES else addrlen) in E.
  destruct (cache_search_root addr (Z.to_nat len) t1) as (Hr & _ & Hn & _).
  destruct (cache_search addr (Z.to_nat len) t1) as [i t2]. cbn [snd] in Hr, Hn.
  unfold counted in *. rewrite <- Hr, <- Hn in C.
  destruct i as [e|].
  - destruct (ce_ptr e) as [p|]; [|discriminate].
    destruct (add_at (root t2) p val) as [[r up]|] eqn:A; [|discriminate].
    cbn [bind] in E. injection E as <-. cbn [root nodes with_root].
    rewrite (add_at_node_count _ _ _ _ _ A). exact C.
  - destruct (add_walk (Z.to_nat (len * 8)) 0 addr val (root t2)) as [[[r created] up] p] eqn:A.
    injection E as <-. cbn [root nodes cache_replace].
    rewrite (add_walk_node_count _ _ _ _ _ _ _ _ _ A), C.
    rewrite u64_add_l. f_equal. lia.
Qed.

Lemma node_prune_maxnodes m this t r t' :
  node_prune this t = Ok (r, t') -> maxnodes t = m -> maxnodes t' = m.
Proof.
  intros E <-. apply node_prune_inv in E.
  destruct E as (n & _ & _ & _ & _ & _ & Hm & _). exact Hm.
Qed.

Lemma add_maxnodes ADDRBYTES addr addrlen val t t' m :
  add ADDRBYTES addr addrlen val t = Ok t' -> maxnodes t = m -> maxnodes t' = m.
Proof.
  unfold add. intros E C.
  destruct (prune_if_greater (maxnodes t) t) as [t1|] eqn:P; [|discriminate].
  cbn [bind] in E.
  apply (prune_if_greater_keeps (fun t => maxnodes t = m) (node_prune_maxnodes m) _ _ _ P) in C.
  set (len := if addrlen >? Z.of_nat ADDRBYTES then Z.of_nat ADDRBYTES else addrlen) in E.
  destruct (cache_search_root addr (Z.to_nat len) t1) as (_ & Hm & _).
  destruct (cache_search addr (Z.to_nat len) t1) as [i t2]. cbn [snd] in Hm.
  rewrite <- Hm in C.
  destruct i as [e|].
  - destruct (ce_ptr e) as [p|]; [|discriminate].
    destruct (add_at (root t2) p val) as [[r up]|] eqn:A; [|discriminate].
    cbn [bind] in E. injection E as <-. exact C.
  - destruct (add_walk (Z.to_nat (len * 8)) 0 addr val (root t2)) as [[[r created] up] p] eqn:A.
    injection E as <-. exact C.
Qed.

Lemma run_counted ADDRBYTES ops : forall t t' m,
  run ADDRBYTES ops t = Ok t' -> counted t /\ maxnodes t = m ->
  counted t' /\ maxnodes t' = m.
Proof.
  induction ops as [|o ops IH]; intros t t' m; cbn [run].
  - intros E. injection E as <-. auto.
  - destruct (step ADDRBYTES t o) as [t1|] eqn:S; [|discriminate]. cbn [bind].
    intros E (C & M). apply (IH _ _ _ E).
    destruct o as [addr addrlen val| |limit]; cbn [step] in S.
    + split; [eapply add_counted | eapply add_maxnodes]; eauto.
    + destruct (prune t) as [[r t2]|] eqn:P; [|discriminate]. cbn [bind] in S.
      injection S as <-. split.
      * eapply (prune_keeps counted node_prune_counted); eauto.
      * eapply (prune_keeps _ (node_prune_maxnodes m)); eauto.
    + split.
      * eapply (prune_if_greater_keeps counted node_prune_counted); eauto.
      * eapply (prune_if_greater_keeps _ (node_prune_maxnodes m)); eauto.
Qed.

Lemma prune_maxnodes t r t' : prune t = Ok (r, t') -> maxnodes t' = maxnodes t.
Proof.
  unfold prune. destruct (term (root t)).
  - intros E. injection E as _ <-. reflexivity.
  - destruct (best_to_prune (root t) root_depth) as [b|]; [|discriminate].
    cbn [bind]. intros E. apply node_prune_inv in E.
    destruct E as (n & _ & _ & _ & _ & _ & Hm & _). exact Hm.
Qed.

Lemma prune_zero t r t' : prune t = Ok (r, t') -> r = 0 -> term (root t') = true.
Proof.
  unfold prune. destruct (term (root t)) eqn:T.
  - intros E _. injection E as _ <-. exact T.
  - destruct (best_to_prune (root t) root_depth) as [b|]; [|discriminate].
    cbn [bind]. intros E. apply node_prune_inv in E.
    destruct E as (n & _ & -> & _). discriminate.
Qed.

(** what the loop of [prune_if_greater] leaves: the size is at most 90% of
    [maxnodes], or the last [prune()] returned 0 on a terminal root *)
Lemma prune_while_bound fuel : forall t t',
  prune_while fuel t = Ok t' ->
  maxnodes t' = maxnodes t /\
  (nodes t' <= u64 (maxnodes t * 9) / 10 \/ term (root t') = true).
Proof.
  induction fuel as [|fuel IH]; intros t t'; cbn [prune_while].
  - destruct (Z.gtb_spec (nodes t) (u64 (maxnodes t * 9) / 10)); [discriminate|].
    intros E. injection E as <-. split; [reflexivity | left; lia].
  - destruct (Z.gtb_spec (nodes t) (u64 (maxnodes t * 9) / 10)).
    + destruct (prune t) as [[r t1]|] eqn:P; [|discriminate]. cbn [bind].
      pose proof (prune_maxnodes _ _ _ P) as Hm.
      destruct (Z.eqb_spec r 0) as [->|Nr].
      * intros E. injection E as <-. split; [exact Hm|]. right.
        eapply prune_zero; eauto.
      * intros E. destruct (IH _ _ E) as (Hm' & Hb). rewrite Hm in Hm', Hb. auto.
    + intros E. injection E as <-. split; [reflexivity | left; lia].
Qed.

Lemma ninety_percent m : 0 <= m < two64 -> u64 (m * 9) / 10 <= m.
Proof.
  intros Hm. pose proof (u64_range (m * 9)) as Hu.
  destruct (Z.lt_ge_cases (m * 9) two64) as [L|G].
  - rewrite u64_small by lia. apply Z.div_le_upper_bound; lia.
  - apply Z.div_le_upper_bound; [lia|]. unfold two64 in *. lia.
Qed.

(** With the limit the tree was created with, the bound of C2 holds: in every
    state a sequence of calls has reached, [size()] is at most [maxnodes]
    after [prune_if_greater] has returned. *)
Lemma prune_if_greater_bound ADDRBYTES maxnodes_ ops t limit t' :
  run ADDRBYTES ops (new_iptreet ADDRBYTES maxnodes_) = Ok t ->
  prune_if_greater limit t = Ok t' ->
  maxnodes t' = maxnodes t /\ size t' <= maxnodes t.
Proof.
  intros R P.
  destruct (run_counted _ _ _ _ (u64 maxnodes_) R) as (C & M);
    [split; reflexivity|].
  assert (Hm : 0 <= maxnodes t < two64) by (rewrite M; apply u64_range).
  pose proof (prune_if_greater_keeps counted node_prune_counted _ _ _ P C) as C'.
  unfold prune_if_greater in P. unfold size.
  destruct (Z.geb_spec (nodes t) (maxnodes t)) as [G|L].
  - destruct (prune_while_bound _ _ _ P) as (Hm' & [Hb|T]).
    + split; [exact Hm'|]. pose proof (ninety_percent _ Hm). lia.
    + split; [exact Hm'|]. unfold counted in C'.
      destruct (term_inv _ T) as (s & d & Er & _). rewrite Er in C'. cbn in C'.
      rewrite C'. cbn. lia.
  - injection P as <-. split; [reflexivity | lia].
Qed.

(** ** The cache and keys of one length *)

Lemma eqv_inv t u :
  eqv t u -> root t = root u /\ nodes t = nodes u /\ maxnodes t = maxnodes u.
Proof. unfold eqv, forget. intros E. injection E as -> -> ->. auto. Qed.

Lemma eqv_intro t u :
  root t = root u -> nodes t = nodes u -> maxnodes t = maxnodes u -> eqv t u.
Proof. unfold eqv, forget. congruence. Qed.

Lemma node_prune_eqv this t u :
  eqv t u -> same eqv_pruned (node_prune this t) (node_prune this u).
Proof.
  intros E. destruct (eqv_inv _ _ E) as (Hr & Hn & Hm).
  unfold node_prune. rewrite <- Hr.
  destruct (deref (root t) this) as [[p0 p1 s d]|]; [|reflexivity].
  unfold prune_child.
  destruct p0 as [c0|], p1 as [c1|]; cbn [bind];
    try destruct (term c0); try destruct (term c1); cbn [bind same]; try reflexivity;
    (split; [reflexivity|]); apply eqv_intro; cbn; congruence.
Qed.

Lemma prune_eqv t u : eqv t u -> same eqv_pruned (prune t) (prune u).
Proof.
  intros E. destruct (eqv_inv _ _ E) as (Hr & Hn & Hm).
  unfold prune. rewrite <- Hr. destruct (term (root t)).
  - cbn. split; [reflexivity | exact E].
  - destruct (best_to_prune (root t) root_depth) as [b|]; [|reflexivity].
    cbn [bind]. apply node_prune_eqv, E.
Qed.

Lemma prune_while_eqv fuel : forall t u,
  eqv t u -> same eqv (prune_while fuel t) (prune_while fuel u).
Proof.
  induction fuel as [|fuel IH]; intros t u E;
    destruct (eqv_inv _ _ E) as (Hr & Hn & Hm); cbn [prune_while];
    rewrite <- Hn, <- Hm.
  - destruct (_ >? _); [reflexivity | exact E].
  - destruct (_ >? _); [|exact E].
    pose proof (prune_eqv t u E) as P.
    destruct (prune t) as [[r t']|], (prune u) as [[r' u']|]; cbn in P;
      try contradiction; [|exact P].
    destruct P as (Er & E'). cbn in Er, E'. subst r'. cbn [bind].
    destruct (r =? 0); [exact E' | apply IH, E'].
Qed.

Lemma prune_if_greater_eqv limit limit' t u :
  eqv t u -> same eqv (prune_if_greater limit t) (prune_if_greater limit' u).
Proof.
  intros E. destruct (eqv_inv _ _ E) as (Hr & Hn & Hm).
  unfold prune_if_greater. rewrite <- Hn, <- Hm, <- Hr.
  destruct (_ >=? _); [apply prune_while_eqv, E | exact E].
Qed.

(** when the node of the key is there, the descent creates nothing and
    increments the node a pointer to it names *)
Lemma add_walk_live bits : forall depth addr val n,
  live n (walk_path addr depth bits) = true ->
  exists n' up,
    add_walk bits depth addr val n = (n', 0, up, walk_path addr depth bits) /\
    add_at n (walk_path addr depth bits) val = Ok (n', up).
Proof.
  induction bits as [|bits IH]; intros depth addr val [p0 p1 s d] L.
  - cbn [add_walk add_at walk_path seq map node_add]. eauto.
  - rewrite walk_path_S in *. cbn [add_walk add_at].
    unfold live in L. cbn [deref ptr0 ptr1] in L.
    destruct (bit addr depth).
    + destruct p1 as [c1|]; [|discriminate].
      destruct (IH (depth + 1) addr val c1 L) as (c' & u & -> & ->). cbn. eauto.
    + destruct p0 as [c0|]; [|discriminate].
      destruct (IH (depth + 1) addr val c0 L) as (c' & u & -> & ->). cbn. eauto.
Qed.

(** a slot that matches the key and holds a pointer of the key's depth
    holds the pointer to the node of the key *)
Lemma hit_is_key e addr (L : nat) p :
  (L <= List.length (ce_addr e))%nat -> (L <= List.length addr)%nat ->
  memcmp0 (ce_addr e) addr L = true ->
  key_of e p -> List.length p = (8 * L)%nat ->
  p = walk_path addr 0 (8 * L).
Proof.
  intros He Ha Hm (k & Hk & ->) Hl. unfold prefix_path in *.
  rewrite walk_path_length in Hl. assert (k = L) by lia. subst k.
  apply walk_path_ext. intros i Hi.
  unfold memcmp0 in Hm. apply bytes_eqb_eq in Hm.
  rewrite <- (bit_firstn L (ce_addr e)), <- (bit_firstn L addr) by lia.
  rewrite Hm. reflexivity.
Qed.

Lemma node_prune_uniform L this t r t' :
  node_prune this t = Ok (r, t') ->
  NoDup (cache_ptrs (cache t)) /\ uniform L t ->
  NoDup (cache_ptrs (cache t')) /\ uniform L t'.
Proof.
  intros E (N & U).
  destruct (node_prune_inv _ _ _ _ E) as (n & D & _).
  pose proof (node_prune_cache _ _ _ _ _ E D) as Hc.
  destruct (cache_pruned_spec (cache t) this n N) as (_ & N' & Sub & _).
  unfold uniform. rewrite Hc. split; [exact N'|]. intros p Hp. apply U, Sub, Hp.
Qed.

Lemma counted_range t : counted t -> 0 <= nodes t < two64.
Proof. unfold counted. intros ->. apply u64_range. Qed.

Lemma add_refines ADDRBYTES L addr addrlen val t u :
  wf_op ADDRBYTES (Add addr addrlen val) ->
  key_length ADDRBYTES L (Add addr addrlen val) ->
  cache_ok ADDRBYTES t -> uniform L t -> counted t -> eqv t u ->
  same eqv (add ADDRBYTES addr addrlen val t)
           (add_uncached ADDRBYTES addr addrlen val u) /\
  forall t', add ADDRBYTES addr addrlen val t = Ok t' -> uniform L t'.
Proof.
  intros (Hl & Ha & Fa) Hk C U Cn E. cbn [key_length] in Hk.
  destruct (eqv_inv _ _ E) as (_ & _ & Hmax).
  unfold add, add_uncached.
  pose proof (prune_if_greater_eqv (maxnodes t) (maxnodes u) t u E) as P.
  destruct (prune_if_greater (maxnodes t) t) as [t1|f] eqn:Pt;
    destruct (prune_if_greater (maxnodes u) u) as [u1|g] eqn:Pu; cbn in P;
    try contradiction; cbn [bind]; [|split; [exact P | discriminate]].
  pose proof (prune_if_greater_cache_ok _ _ _ _ Pt C) as C1.
  pose proof (prune_if_greater_keeps counted node_prune_counted _ _ _ Pt Cn) as Cn1.
  assert (U1 : uniform L t1).
  { apply (prune_if_greater_keeps
             (fun t => NoDup (cache_ptrs (cache t)) /\ uniform L t)
             (node_prune_uniform L) _ _ _ Pt).
    split; [apply C | exact U]. }
  destruct (eqv_inv _ _ P) as (Hr & Hn & Hm).
  rewrite clamp_min, Hk.
  replace (Z.to_nat (Z.min addrlen (Z.of_nat ADDRBYTES) * 8)) with (8 * L)%nat by lia.
  destruct (cache_search_root addr L t1) as (Hr2 & Hm2 & Hn2 & Hc2 & Hs).
  destruct (cache_search addr L t1) as [i t2]. cbn [fst snd] in *.
  rewrite <- Hr.
  destruct i as [e|].
  - symmetry in Hs. destruct (cache_search_from_Some _ _ _ _ Hs) as (Hin & Hp & Hcmp).
    destruct (ce_ptr e) as [p|] eqn:Ep; [|discriminate].
    pose proof C1 as (_ & _ & F). rewrite Forall_forall in F.
    destruct (F e Hin) as (Hlen & _ & H3). destruct (H3 p Ep) as (Lp & Kp).
    assert (Epath : p = walk_path addr 0 (8 * L)).
    { apply (hit_is_key e); try assumption; try lia.
      apply U1. eapply cache_ptrs_In; eauto. }
    subst p.
    destruct (add_walk_live (8 * L) 0 addr val (root t1) Lp) as (n' & up & W & A).
    rewrite Hr2, A, W. cbn [bind]. split.
    + apply eqv_intro; cbn; try congruence.
      rewrite Hn2, Z.add_0_r, <- Hn. symmetry. apply u64_small, counted_range, Cn1.
    + intros t' Et. injection Et as <-. unfold uniform. cbn [cache with_root].
      rewrite Hc2. exact U1.
  - rewrite Hr2.
    destruct (add_walk (8 * L) 0 addr val (root t1)) as [[[r created] up] ptr] eqn:A.
    split.
    + apply eqv_intro; cbn; congruence.
    + intros t' Et. injection Et as <-. unfold uniform, cache_replace. cbn [cache].
      intros p Hp.
      apply (cache_set_ptrs_In _ _ _ ptr) in Hp; [|reflexivity].
      destruct Hp as [->|Hp].
      * destruct (add_walk_path _ _ _ _ _ _ _ _ _ A) as (-> & _).
        apply walk_path_length.
      * rewrite Hc2 in Hp. apply U1, Hp.
Qed.

Lemma prune_uniform L t r t' :
  prune t = Ok (r, t') ->
  NoDup (cache_ptrs (cache t)) /\ uniform L t ->
  NoDup (cache_ptrs (cache t')) /\ uniform L t'.
Proof.
  apply (prune_keeps (fun t => NoDup (cache_ptrs (cache t)) /\ uniform L t)
           (node_prune_uniform L)).
Qed.

Lemma run_refines ADDRBYTES L ops : forall t u,
  Forall (wf_op ADDRBYTES) ops -> Forall (key_length ADDRBYTES L) ops ->
  cache_ok ADDRBYTES t -> uniform L t -> counted t -> eqv t u ->
  same eqv (run ADDRBYTES ops t) (run_uncached ADDRBYTES ops u).
Proof.
  induction ops as [|o ops IH]; intros t u Wf Kl C U Cn E; cbn [run run_uncached].
  - exact E.
  - inversion Wf as [|? ? Wo Wops]; subst. inversion Kl as [|? ? Ko Kops]; subst.
    destruct (step_cache_ok ADDRBYTES t o Wo C) as (_ & C').
    destruct o as [addr addrlen val| |limit]; cbn [step step_uncached] in *.
    + destruct (add_refines _ _ _ _ _ _ _ Wo Ko C U Cn E) as (S & U').
      destruct (add ADDRBYTES addr addrlen val t) as [t1|f] eqn:At;
        destruct (add_uncached ADDRBYTES addr addrlen val u) as [u1|g];
        cbn in S; try contradiction; cbn [bind]; [|exact S].
      apply IH; auto. eapply add_counted; eauto.
    + pose proof (prune_eqv t u E) as S.
      destruct (prune t) as [[r t1]|f] eqn:Pt; destruct (prune u) as [[r' u1]|g];
        cbn in S; try contradiction; cbn [bind]; [|exact S].
      destruct S as (_ & E1). cbn in E1.
      apply IH; auto.
      * eapply (prune_uniform L); eauto. split; [apply C | exact U].
      * eapply (prune_keeps counted node_prune_counted); eauto.
    + pose proof (prune_if_greater_eqv limit limit t u E) as S.
      destruct (prune_if_greater limit t) as [t1|f] eqn:Pt;
        destruct (prune_if_greater limit u) as [u1|g];
        cbn in S; try contradiction; cbn [bind]; [|exact S].
      apply IH; auto.
      * apply (prune_if_greater_keeps
                 (fun t => NoDup (cache_ptrs (cache t)) /\ uniform L t)
                 (node_prune_uniform L) _ _ _ Pt).
        split; [apply C | exact U].
      * eapply (prune_if_greater_keeps counted node_prune_counted); eauto.
Qed.

(** Where the cache is transparent: over well-formed calls whose keys all
    have the same length, the tree with the cache and the tree without end
    the same way, with the same nodes and the same counts. *)
Lemma cache_transparent_one_length ADDRBYTES maxnodes_ L ops :
  Forall (wf_op ADDRBYTES) ops -> Forall (key_length ADDRBYTES L) ops ->
  same (fun t u => root t = root u /\ size t = size u)
       (run ADDRBYTES ops (new_iptreet ADDRBYTES maxnodes_))
       (run_uncached ADDRBYTES ops (new_iptreet ADDRBYTES maxnodes_)).
Proof.
  intros Wf Kl.
  pose proof (run_refines ADDRBYTES L ops
                (new_iptreet ADDRBYTES maxnodes_) (new_iptreet ADDRBYTES maxnodes_)
                Wf Kl (new_iptreet_cache_ok _ _)) as R.
  assert (S : same eqv (run ADDRBYTES ops (new_iptreet ADDRBYTES maxnodes_))
                (run_uncached ADDRBYTES ops (new_iptreet ADDRBYTES maxnodes_))).
  { apply R; [intros p [] | reflexivity | reflexivity]. }
  destruct (run ADDRBYTES ops (new_iptreet ADDRBYTES maxnodes_)),
           (run_uncached ADDRBYTES ops (new_iptreet ADDRBYTES maxnodes_));
    cbn in *; auto.
  destruct (eqv_inv _ _ S) as (? & ? & ?). auto.
Qed.

(** ** The pair tree as it is dumped *)

Lemma bit_beyond a j : 8 * Z.of_nat (List.length a) <= j -> bit a j = false.
Proof.
  intros H. rewrite bit_testbit. unfold byte_at.
  rewrite nth_overflow; [apply Z.bits_0|].
  assert (Z.of_nat (List.length a) <= j / 8) by (apply Z.div_le_lower_bound; lia).
  lia.
Qed.

Lemma bit_app_zeros a k j : 0 <= j -> bit (a ++ zeros k) j = bit a j.
Proof.
  intros Hj. destruct (Z.lt_ge_cases j (8 * Z.of_nat (List.length a))) as [L|G].
  - rewrite !bit_testbit. unfold byte_at. rewrite app_nth1; [reflexivity|].
    assert (0 <= j / 8 < Z.of_nat (List.length a)).
    { split; [apply Z.div_pos; lia | apply Z.div_lt_upper_bound; lia]. }
    lia.
  - rewrite (bit_beyond a j G). rewrite bit_testbit. unfold byte_at.
    assert (Z.of_nat (List.length a) <= j / 8) by (apply Z.div_le_lower_bound; lia).
    rewrite app_nth2 by lia.
    assert (Hz : forall m, nth m (zeros k) 0 = 0).
    { unfold zeros. clear. induction k as [|k IH]; intros [|m]; cbn; auto. }
    rewrite Hz. apply Z.bits_0.
Qed.

(** [ip2str] de-interleaves the whole 32-byte address of a histogram entry
    into two 16-byte buffers: it gets the two addresses, padded with zero
    bytes *)
Lemma un_pair_of_entry (a1 a2 : list Z) (L : nat) (d : Z) :
  List.length a1 = L -> List.length a2 = L -> (L <= 16)%nat ->
  Forall is_byte a1 -> Forall is_byte a2 ->
  fst (fst (ip2tree.un_pair (zeros 16) (zeros 16) 16
              (ip2tree.interleave a1 a2 (Z.of_nat L)) 32 d))
  = (a1 ++ zeros (16 - L), a2 ++ zeros (16 - L)).
Proof.
  intros L1 L2 HL F1 F2. unfold ip2tree.un_pair.
  set (addr := ip2tree.interleave a1 a2 (Z.of_nat L)).
  change (Z.to_nat (u64 (32 * 8) / 2)) with 128%nat.
  pose proof (un_pair_loop_length 128 0 (zeros 16) (zeros 16) addr) as (Len1 & Len2).
  pose proof (un_pair_loop_bytes 128 0 (zeros 16) (zeros 16) addr
                (zeros_bytes 16) (zeros_bytes 16)) as (B1 & B2).
  assert (Bits : forall j, 0 <= j < 128 ->
            bit (fst (ip2tree.un_pair_loop 128 0 (zeros 16) (zeros 16) addr)) j = bit a1 j /\
            bit (snd (ip2tree.un_pair_loop 128 0 (zeros 16) (zeros 16) addr)) j = bit a2 j).
  { intros j Hj.
    destruct (un_pair_loop_bit 128 0 (zeros 16) (zeros 16) addr j) as (-> & ->);
      rewrite ?zeros_length; try lia.
    rewrite !bit_zeros. cbn [orb].
    holds (0 <=? j).
    holds (j <? 0 + Z.of_nat 128).
    cbn [andb].
    destruct (Z.lt_ge_cases j (8 * Z.of_nat L)) as [Lt|Ge].
    - subst addr. apply interleave_bits; [assumption | lia].
    - rewrite (bit_beyond a1), (bit_beyond a2) by lia.
      subst addr. unfold ip2tree.interleave.
      rewrite u64_small by (unfold two64; lia).
      rewrite !interleave_loop_bit; rewrite ?zeros_length; try lia.
      rewrite !bit_zeros. cbn [orb].
      fails (j * 2 <? 2 * (0 + Z.of_nat (Z.to_nat (Z.of_nat L * 8)))).
      fails (j * 2 + 1 <? 2 * (0 + Z.of_nat (Z.to_nat (Z.of_nat L * 8)))).
      rewrite !andb_false_r. auto. }
  destruct (ip2tree.un_pair_loop 128 0 (zeros 16) (zeros 16) addr) as [r1 r2].
  cbn [fst snd] in *. rewrite zeros_length in Len1, Len2.
  f_equal.
  - apply bytes_ext.
    + rewrite length_app, zeros_length. lia.
    + exact B1.
    + apply Forall_app. split; [exact F1 | apply zeros_bytes].
    + intros j Hj. rewrite bit_app_zeros by lia. apply Bits. lia.
  - apply bytes_ext.
    + rewrite length_app, zeros_length. lia.
    + exact B2.
    + apply Forall_app. split; [exact F2 | apply zeros_bytes].
    + intros j Hj. rewrite bit_app_zeros by lia. apply Bits. lia.
Qed.

(** ** Keys of length zero *)

Lemma cache_search_from_no_ptrs c addr n :
  cache_ptrs c = [] -> cache_search_from c addr n = None.
Proof.
  induction c as [|e c IH]; cbn; [reflexivity|].
  destruct (ce_ptr e) as [p|]; cbn; [discriminate | exact IH].
Qed.

Lemma node_prune_no_ptrs this t r t' :
  node_prune this t = Ok (r, t') ->
  cache_ptrs (cache t) = [] -> cache_ptrs (cache t') = [].
Proof.
  intros E H. destruct (node_prune_inv _ _ _ _ E) as (n & D & _).
  rewrite (node_prune_cache _ _ _ _ _ E D).
  destruct (cache_pruned_spec (cache t) this n) as (_ & _ & Sub & _).
  { rewrite H. constructor. }
  destruct (cache_ptrs (cache_pruned (cache t) this n)) as [|x l]; [reflexivity|].
  specialize (Sub x (or_introl eq_refl)). rewrite H in Sub. destruct Sub.
Qed.

(** while the cache holds no pointer, [add] with a key of length zero
    increments the root *)
Lemma zero_length_key_empty_cache ADDRBYTES addr val t t1 :
  cache_ptrs (cache t) = [] ->
  prune_if_greater (maxnodes t) t = Ok t1 ->
  exists t', add ADDRBYTES addr 0 val t = Ok t' /\
             root t' = fst (node_add (root t1) val).
Proof.
  intros H P. unfold add. rewrite P. cbn [bind].
  apply (prune_if_greater_keeps _ node_prune_no_ptrs _ _ _ P) in H.
  replace (if 0 >? Z.of_nat ADDRBYTES then Z.of_nat ADDRBYTES else 0) with 0
    by (destruct (Z.gtb_spec 0 (Z.of_nat ADDRBYTES)); lia).
  change (Z.to_nat (0 * 8)) with O. change (Z.to_nat 0) with O.
  unfold cache_search. rewrite (cache_search_from_no_ptrs _ _ _ H).
  cbn [add_walk root]. destruct (node_add (root t1) val) as [n up].
  eexists. split; reflexivity.
Qed.

(** ** Concrete runs *)

Lemma deref_node_counts p : forall n m,
  deref n p = Some m -> In (p, nodesum m) (node_counts n).
Proof.
  induction p as [|b p IH]; intros [p0 p1 s d] m E; cbn [deref] in E.
  - injection E as <-. cbn. auto.
  - cbn [node_counts]. right. apply in_or_app.
    destruct b; cbn [ptr0 ptr1] in E.
    + right. destruct p1 as [c|]; [|discriminate].
      apply (in_map (fun e => (true :: fst e, snd e)) _ (p, nodesum m)). auto.
    + left. destruct p0 as [c|]; [|discriminate].
      apply (in_map (fun e => (false :: fst e, snd e)) _ (p, nodesum m)). auto.
Qed.

Lemma scenario4_tree_run :
  run 16 scenario4_ops (new_iptreet 16 DEFAULT_MAX_HISTOGRAM_SIZE) = Ok scenario4_tree.
Proof. vm_compute. reflexivity. Qed.

Lemma scenario4_pruned_run : prune scenario4_tree = Ok (1, scenario4_pruned).
Proof. vm_compute. reflexivity. Qed.

(** C8, as stated, does not hold: 10.0.0.1 and 10.0.0.2 differ in bit 30, so
    they have no common parent at depth 31, and after the single [prune()]
    no node of the tree has the count 101. *)
Lemma prune_scenario_counterexample :
  prune scenario4_tree = Ok (1, scenario4_pruned) /\
  prefix_path [10; 0; 0; 1] 31 <> prefix_path [10; 0; 0; 2] 31 /\
  ~ (exists p m, deref (root scenario4_pruned) p = Some m /\ nodesum m = 101).
Proof.
  split; [exact scenario4_pruned_run|]. split; [vm_compute; discriminate|].
  intros (p & m & D & E). apply deref_node_counts in D. rewrite E in D.
  vm_compute in D.
  repeat (destruct D as [D|D]; [discriminate D|]). exact D.
Qed.

(** C8, as amended.  In the tree that holds 10.0.0.1 with weight 100 and
    10.0.0.2 with weight 1, which have their own parents at depth 31, a single
    [prune()] collapses the leaf of 10.0.0.2, the candidate of least sum,
    into its parent 10.0.0.2/31, whose count becomes 1; the leaf of 10.0.0.1
    keeps its count 100. *)
Theorem prune_scenario :
  run 16 scenario4_ops (new_iptreet 16 DEFAULT_MAX_HISTOGRAM_SIZE) = Ok scenario4_tree /\
  prune scenario4_tree = Ok (1, scenario4_pruned) /\
  nodesum_at scenario4_tree (prefix_path [10; 0; 0; 2] 31) = Some 0 /\
  nodesum_at scenario4_tree (prefix_path [10; 0; 0; 2] 32) = Some 1 /\
  nodesum_at scenario4_pruned (prefix_path [10; 0; 0; 2] 31) = Some 1 /\
  nodesum_at scenario4_pruned (prefix_path [10; 0; 0; 2] 32) = None /\
  nodesum_at scenario4_pruned (prefix_path [10; 0; 0; 1] 31) = Some 0 /\
  nodesum_at scenario4_pruned (prefix_path [10; 0; 0; 1] 32) = Some 100 /\
  size scenario4_tree = 34 /\ size scenario4_pruned = 33 /\
  tree_sum scenario4_pruned = 101.
Proof.
  split; [exact scenario4_tree_run|]. split; [exact scenario4_pruned_run|].
  vm_compute. repeat split.
Qed.

(** C10.  [prune()] on a freshly created tree does not return 0: the root
    is not terminal, so the selector is asked, and with no child at all it
    reaches [ptr0->term()] through a null [ptr0]. *)
Theorem prune_fresh_tree ADDRBYTES maxnodes_ :
  term (root (new_iptreet ADDRBYTES maxnodes_)) = false /\
  best_to_prune (root (new_iptreet ADDRBYTES maxnodes_)) root_depth = Err NullDeref /\
  prune (new_iptreet ADDRBYTES maxnodes_) = Err NullDeref.
Proof. repeat split. Qed.

(** C6.  After 1.2.3.4 has been added, [add] with a key of length zero does
    not increment the root: [memcmp] over zero bytes finds the cached slot of
    1.2.3.4, and the leaf of 1.2.3.4 is incremented. *)
Theorem zero_length_key_hits_cache :
  exists t,
    run 16 zero_length_ops (new_iptreet 16 DEFAULT_MAX_HISTOGRAM_SIZE) = Ok t /\
    nodesum (root t) = 0 /\
    nodesum_at t (prefix_path [1; 2; 3; 4] 32) = Some 6 /\
    cache_hits t = 1.
Proof. eexists. vm_compute. repeat split. Qed.

(** C3.  With the cache, the IPv4 address 1.2.3.4 added after an IPv6
    address that starts with the same four bytes is counted on the node of
    the IPv6 address; without a cache it is counted on its own node. *)
Theorem cache_changes_counts :
  exists t u,
    run 16 mixed_family_ops (new_iptreet 16 DEFAULT_MAX_HISTOGRAM_SIZE) = Ok t /\
    run_uncached 16 mixed_family_ops (new_iptreet 16 DEFAULT_MAX_HISTOGRAM_SIZE) = Ok u /\
    entries (get_histogram 16 t []) =
      [([1; 2; 3; 4; 5; 0; 0; 0; 0; 0; 0; 0; 0; 0; 0; 0], 128, 2)] /\
    entries (get_histogram 16 u []) =
      [([1; 2; 3; 4; 0; 0; 0; 0; 0; 0; 0; 0; 0; 0; 0; 0], 32, 1);
       ([1; 2; 3; 4; 5; 0; 0; 0; 0; 0; 0; 0; 0; 0; 0; 0], 128, 1)] /\
    node_counts (root t) <> node_counts (root u).
Proof.
  do 2 eexists. split; [vm_compute; reflexivity|]. split; [vm_compute; reflexivity|].
  split; [vm_compute; reflexivity|]. split; [vm_compute; reflexivity|].
  vm_compute. discriminate.
Qed.

(** C2.  [prune_if_greater(L)] does not look at [L]: on the tree of 34 nodes
    with [maxnodes] 1000000 the call with [L = 10] prunes nothing and leaves
    [size()] at 34. *)
Theorem prune_if_greater_ignores_limit :
  size scenario4_tree = 34 /\
  maxnodes scenario4_tree = 1000000 /\
  prune_if_greater 10 scenario4_tree = Ok scenario4_tree /\
  ~ size scenario4_tree <= 10.
Proof.
  split; [reflexivity|]. split; [reflexivity|]. split; [vm_compute; reflexivity|].
  change (size scenario4_tree) with 34. lia.
Qed.

(** C5, as stated, does not hold for the pair tree: after one pair of
    16-byte addresses has been added, the only count sits at depth 256, the
    walker stops below depth 128, and the histogram is empty. *)
Lemma histogram_totality_counterexample :
  ip2tree.add_pair (repeat 1 16) (repeat 2 16) 16 1
    (new_iptreet ip2tree.ADDRBYTES DEFAULT_MAX_HISTOGRAM_SIZE) = Ok pair_tree /\
  get_histogram ip2tree.ADDRBYTES pair_tree [] = [] /\
  tree_sum pair_tree = 1 /\
  hist_sum (get_histogram ip2tree.ADDRBYTES pair_tree []) <> tree_sum pair_tree.
Proof.
  split; [vm_compute; reflexivity|]. split; [vm_compute; reflexivity|].
  split; [vm_compute; reflexivity|]. vm_compute. discriminate.
Qed.

Lemma histogram_totality_witness :
  (16 <= 16)%nat /\
  run 16 mixed_ops (new_iptreet 16 40) = Ok mixed_tree /\
  hist_sum (get_histogram 16 mixed_tree []) = tree_sum mixed_tree.
Proof.
  assert (R : run 16 mixed_ops (new_iptreet 16 40) = Ok mixed_tree)
    by (vm_compute; reflexivity).
  split; [lia|]. split; [exact R|].
  apply (histogram_totality 16 40 mixed_ops mixed_tree); [left; lia | exact R].
Defined.

Lemma prune_selector_minimal_witness :
  term (root scenario4_tree) = false /\
  (leaves_term (root scenario4_tree) = true ->
   exists t', prune scenario4_tree = Ok (1, t')).
Proof.
  split; [reflexivity|].
  exact (proj2 (prune_selector_minimal scenario4_tree eq_refl)).
Defined.

Lemma interleave_round_trip_witness :
  exists depth1 depth2,
    ip2tree.un_pair (zeros 4) (zeros 4) 4
                    (ip2tree.interleave [1; 2; 3; 4] [5; 6; 7; 8] 4) 8 64
      = ([1; 2; 3; 4], [5; 6; 7; 8], depth1, depth2) /\
    64 <= 2 * depth1 <= 64 + 1 /\ depth2 = 64 / 2 /\ depth1 + depth2 = 64.
Proof.
  refine (proj2 (interleave_round_trip [1; 2; 3; 4] [5; 6; 7; 8] 4 64
                   eq_refl eq_refl _ _ _ _)).
  - lia.
  - repeat constructor; unfold is_byte; lia.
  - repeat constructor; unfold is_byte; lia.
  - unfold two64. lia.
Defined.

(** ** Textual rendering *)

(** C9, as stated, does not hold: the address 1.2.3.4 followed by twelve
    zero bytes is rendered as an IPv4 address, and at depth 128, which is not
    32, no suffix is appended. *)
Lemma ipstr_suffix_counterexample :
  isipv4 [1; 2; 3; 4; 0; 0; 0; 0; 0; 0; 0; 0; 0; 0; 0; 0] 16 = true /\
  128 <> ipv4_bits /\
  ipstr (fun _ => EmptyString) [1; 2; 3; 4; 0; 0; 0; 0; 0; 0; 0; 0; 0; 0; 0; 0] 16 128
    = "1.2.3.4"%string /\
  ipstr (fun _ => EmptyString) [1; 2; 3; 4; 0; 0; 0; 0; 0; 0; 0; 0; 0; 0; 0; 0] 16 128
    <> ("1.2.3.4" ++ "/" ++ itos 128)%string.
Proof.
  split; [reflexivity|]. split; [discriminate|]. split; [reflexivity|].
  vm_compute. discriminate.
Qed.

Lemma to_int_small x : - 2 ^ 31 <= x < 2 ^ 31 -> to_int x = x.
Proof. intros H. unfold to_int. rewrite Z.mod_small; lia. Qed.

(** C9, as amended.  For a depth [d] (a [size_t], so not negative) [ipstr]
    appends ["/d"] to the rendered address exactly when [d] is less than the
    full width of the address family (32 for IPv4, 128 for IPv6); at the
    full width and above it appends nothing. *)
Theorem ipstr_suffix ipv6 addr addrlen d :
  0 <= d ->
  ipstr ipv6 addr addrlen d =
  (rendered ipv6 addr addrlen ++
   (if (d <? family_bits addr addrlen)%Z then "/" ++ itos d else ""))%string.
Proof.
  intros Hd. unfold ipstr, rendered, family_bits, ipv4_bits, ipv6_bits.
  destruct (isipv4 addr addrlen).
  - destruct (Z.ltb_spec d 32); [|reflexivity]. rewrite to_int_small by lia. reflexivity.
  - destruct (Z.ltb_spec d 128); [|reflexivity]. rewrite to_int_small by lia. reflexivity.
Qed.

Lemma ipstr_suffix_witness :
  0 <= 24 /\
  ipstr (fun _ => EmptyString) [192; 168; 1; 0] 4 24 =
  (rendered (fun _ => EmptyString) [192; 168; 1; 0] 4 ++
   (if (24 <? family_bits [192; 168; 1; 0] 4)%Z then "/" ++ itos 24 else ""))%string.
Proof.
  split; [lia|]. apply (ipstr_suffix (fun _ => EmptyString) [192; 168; 1; 0] 4 24). lia.
Defined.

(** * Further properties of the code *)

(** ** Runs used as instances *)

Lemma mixed_ops_run : run 16 mixed_ops (new_iptreet 16 40) = Ok mixed_tree.
Proof. vm_compute. reflexivity. Qed.

Lemma mixed_ops_wf : Forall (wf_op 16) mixed_ops.
Proof. repeat constructor; cbn; try lia; unfold is_byte; lia. Qed.

Lemma mixed_ops_key_length : Forall (key_length 16 4) mixed_ops.
Proof. repeat constructor. Qed.

Lemma mixed_ops_positive : Forall positive_op mixed_ops.
Proof. repeat constructor; cbn; lia. Qed.

(** ** [bit] and [setbit] *)

(** X1.  [setbit(addr,i)] sets bit [i] and no other bit: afterwards
    [bit(addr,j)] is true for [j = i] and as before for every other [j]; the
    buffer keeps its length.  (Bit 0 is the most significant bit of byte 0;
    [i] has to lie in the buffer.) *)
Theorem setbit_sets_one_bit addr i j :
  0 <= i -> 0 <= j -> i / 8 < Z.of_nat (List.length addr) ->
  bit (setbit addr i) j = (j =? i) || bit addr j /\
  List.length (setbit addr i) = List.length addr /\
  bit addr j = Z.testbit (byte_at addr (j / 8)) (7 - j mod 8).
Proof.
  intros Hi Hj Hl. split; [apply bit_setbit; assumption|].
  split; [apply setbit_length | apply bit_testbit].
Qed.

Lemma setbit_sets_one_bit_witness :
  bit (setbit [0; 0] 9) 9 = (9 =? 9) || bit [0; 0] 9 /\
  List.length (setbit [0; 0] 9) = List.length [0; 0] /\
  bit [0; 0] 9 = Z.testbit (byte_at [0; 0] (9 / 8)) (7 - 9 mod 8).
Proof.
  apply (setbit_sets_one_bit [0; 0] 9 9); cbn; lia.
Defined.

(** ** The cache over sequences of calls *)

(** X2.  The cache stays coherent: after any sequence of well-formed calls
    on a fresh tree the cache has its four slots, no node is stored in two
    slots, and the pointer of every slot in use names a live node, the node
    the first bytes of the slot's key lead to.  So [node::prune] has removed
    every node it deleted. *)
Theorem cache_stays_coherent ADDRBYTES maxnodes_ ops t :
  Forall (wf_op ADDRBYTES) ops ->
  run ADDRBYTES ops (new_iptreet ADDRBYTES maxnodes_) = Ok t ->
  List.length (cache t) = cache_size /\
  NoDup (cache_ptrs (cache t)) /\
  forall e p, In e (cache t) -> ce_ptr e = Some p ->
    live (root t) p = true /\ key_of e p.
Proof.
  intros Wf E.
  destruct (run_ends ADDRBYTES ops _ Wf (new_iptreet_cache_ok ADDRBYTES maxnodes_))
    as (_ & H).
  destruct (H t E) as (Hl & N & F). split; [exact Hl|]. split; [exact N|].
  intros e p He Ep. rewrite Forall_forall in F. destruct (F e He) as (_ & _ & H3). auto.
Qed.

Lemma cache_stays_coherent_witness :
  List.length (cache mixed_tree) = cache_size /\
  NoDup (cache_ptrs (cache mixed_tree)) /\
  forall e p, In e (cache mixed_tree) -> ce_ptr e = Some p ->
    live (root mixed_tree) p = true /\ key_of e p.
Proof.
  exact (cache_stays_coherent 16 40 mixed_ops mixed_tree mixed_ops_wf mixed_ops_run).
Defined.

(** X3.  How calls end: in a sequence of well-formed calls on a fresh tree
    no [assert] of [node::prune] or of [best_to_prune] fails, no pointer
    taken from the cache is dangling, and the loop of [prune_if_greater]
    ends within as many prunes as the tree has nodes.  (What is left is the
    null pointer the selector reads on a node without children and without
    count.) *)
Theorem calls_end ADDRBYTES maxnodes_ ops :
  Forall (wf_op ADDRBYTES) ops ->
  run ADDRBYTES ops (new_iptreet ADDRBYTES maxnodes_) <> Err AssertFailed /\
  run ADDRBYTES ops (new_iptreet ADDRBYTES maxnodes_) <> Err Dangling /\
  run ADDRBYTES ops (new_iptreet ADDRBYTES maxnodes_) <> Err OutOfFuel.
Proof.
  intros Wf.
  destruct (run_ends ADDRBYTES ops _ Wf (new_iptreet_cache_ok ADDRBYTES maxnodes_))
    as (H & _).
  destruct (run ADDRBYTES ops (new_iptreet ADDRBYTES maxnodes_)) as [t|[]];
    cbn in H; try contradiction; repeat split; discriminate.
Qed.

Lemma calls_end_witness :
  run 16 mixed_ops (new_iptreet 16 40) <> Err AssertFailed /\
  run 16 mixed_ops (new_iptreet 16 40) <> Err Dangling /\
  run 16 mixed_ops (new_iptreet 16 40) <> Err OutOfFuel.
Proof.
  exact (calls_end 16 40 mixed_ops mixed_ops_wf).
Defined.

(** X4.  Over well-formed calls whose keys all have one length the cache
    does not change what is counted: the tree with the cache and the tree
    whose every lookup misses end the same way, with the same nodes, the
    same size and the same histogram. *)
Theorem cache_transparent_for_one_length ADDRBYTES maxnodes_ L ops :
  Forall (wf_op ADDRBYTES) ops -> Forall (key_length ADDRBYTES L) ops ->
  same (fun t u => root t = root u /\ size t = size u /\
                   get_histogram ADDRBYTES t [] = get_histogram ADDRBYTES u [])
       (run ADDRBYTES ops (new_iptreet ADDRBYTES maxnodes_))
       (run_uncached ADDRBYTES ops (new_iptreet ADDRBYTES maxnodes_)).
Proof.
  intros Wf Kl.
  pose proof (cache_transparent_one_length ADDRBYTES maxnodes_ L ops Wf Kl) as S.
  destruct (run ADDRBYTES ops (new_iptreet ADDRBYTES maxnodes_)),
           (run_uncached ADDRBYTES ops (new_iptreet ADDRBYTES maxnodes_));
    cbn in *; auto.
  destruct S as (Er & Es). split; [exact Er|]. split; [exact Es|].
  unfold get_histogram. rewrite Er. reflexivity.
Qed.

Lemma cache_transparent_for_one_length_witness :
  same (fun t u => root t = root u /\ size t = size u /\
                   get_histogram 16 t [] = get_histogram 16 u [])
       (run 16 mixed_ops (new_iptreet 16 40))
       (run_uncached 16 mixed_ops (new_iptreet 16 40)).
Proof.
  exact (cache_transparent_for_one_length 16 40 4 mixed_ops
           mixed_ops_wf mixed_ops_key_length).
Defined.

(** ** The counters *)

Ltac u64_solve := unfold tadd, u64, two64 in *; Z.div_mod_to_equations; lia.

Lemma node_prune_balanced n this t r t' :
  node_prune this t = Ok (r, t') -> balanced n t -> balanced n t'.
Proof.
  unfold node_prune, balanced.
  destruct (deref (root t) this) as [[p0 p1 s d]|]; [|discriminate].
  unfold prune_child.
  destruct p0 as [c0|], p1 as [c1|]; cbn [bind];
    try destruct (term c0); try destruct (term c1); cbn [bind]; try discriminate;
    intros E (B & H); injection E as _ <-;
    cbn [nodes ctr_added pruned cache_hits cache_misses with_root cache_remove];
    (split; [rewrite B; u64_solve | exact H]).
Qed.

Lemma add_balanced ADDRBYTES n addr addrlen val t t' :
  add ADDRBYTES addr addrlen val t = Ok t' -> balanced n t -> balanced (n + 1) t'.
Proof.
  unfold add. intros E C.
  destruct (prune_if_greater (maxnodes t) t) as [t1|] eqn:P; [|discriminate].
  cbn [bind] in E.
  apply (prune_if_greater_keeps (balanced n) (node_prune_balanced n) _ _ _ P) in C.
  set (len := if addrlen >? Z.of_nat ADDRBYTES then Z.of_nat ADDRBYTES else addrlen) in E.
  unfold cache_search in E. destruct C as (B & H). unfold balanced.
  destruct (cache_search_from (cache t1) addr (Z.to_nat len)) as [e|].
  - destruct (ce_ptr e) as [p|]; [|discriminate]. cbn [root] in E.
    destruct (add_at (root t1) p val) as [[r up]|] eqn:A; [|discriminate].
    cbn [bind] in E. injection E as <-.
    cbn [nodes ctr_added pruned cache_hits cache_misses with_root].
    split; [exact B | u64_solve].
  - cbn [root] in E.
    destruct (add_walk (Z.to_nat (len * 8)) 0 addr val (root t1)) as [[[r created] up] p] eqn:A.
    injection E as <-.
    cbn [nodes ctr_added pruned cache_hits cache_misses cache_replace].
    split; [rewrite B; u64_solve | u64_solve].
Qed.

Lemma run_balanced ADDRBYTES ops : forall t t' n,
  run ADDRBYTES ops t = Ok t' -> balanced n t -> balanced (n + count_adds ops) t'.
Proof.
  induction ops as [|o ops IH]; intros t t' n; cbn [run count_adds].
  - intros E. injection E as <-. rewrite Z.add_0_r. auto.
  - destruct (step ADDRBYTES t o) as [t1|] eqn:S; [|discriminate]. cbn [bind].
    intros E C. destruct o as [addr addrlen val| |limit]; cbn [step] in S.
    + rewrite Z.add_assoc. apply (IH _ _ _ E). eapply add_balanced; eauto.
    + destruct (prune t) as [[r t2]|] eqn:P; [|discriminate]. cbn [bind] in S.
      injection S as <-. apply (IH _ _ _ E).
      eapply (prune_keeps (balanced n) (node_prune_balanced n)); eauto.
    + apply (IH _ _ _ E).
      eapply (prune_if_greater_keeps (balanced n) (node_prune_balanced n)); eauto.
Qed.

(** X5.  The counters agree in every state a sequence of calls has reached:
    [size()] is the number of nodes of the tree other than the root, it is
    the number of nodes added less the number of nodes pruned, and the cache
    hits and misses add up to the number of [add] calls (all of it in
    64-bit arithmetic, as the counters are). *)
Theorem counters_agree ADDRBYTES maxnodes_ ops t :
  run ADDRBYTES ops (new_iptreet ADDRBYTES maxnodes_) = Ok t ->
  size t = u64 (Z.of_nat (node_count (root t)) - 1) /\
  size t = u64 (ctr_added t - pruned t) /\
  u64 (cache_hits t + cache_misses t) = u64 (count_adds ops) /\
  maxnodes t = u64 maxnodes_.
Proof.
  intros E.
  destruct (run_counted _ _ _ _ (u64 maxnodes_) E) as (C & M); [split; reflexivity|].
  destruct (run_balanced _ _ _ _ 0 E) as (B & H); [split; reflexivity|].
  unfold size. auto.
Qed.

Lemma counters_agree_witness :
  size mixed_tree = u64 (Z.of_nat (node_count (root mixed_tree)) - 1) /\
  size mixed_tree = u64 (ctr_added mixed_tree - pruned mixed_tree) /\
  u64 (cache_hits mixed_tree + cache_misses mixed_tree) = u64 (count_adds mixed_ops) /\
  maxnodes mixed_tree = u64 40.
Proof.
  exact (counters_agree 16 40 mixed_ops mixed_tree mixed_ops_run).
Defined.

(** ** The number of nodes and the ceiling *)

Lemma node_prune_exact c (Hc : c < two64) this t r t' :
  node_prune this t = Ok (r, t') ->
  exact t /\ nodes t <= c -> exact t' /\ nodes t' <= c.
Proof.
  intros E (C & L). destruct (node_prune_inv _ _ _ _ E) as (n & D & _ & T0 & T1 & Hr & _ & Hn).
  unfold exact in *. rewrite Hn, Hr.
  pose proof (replace_at_node_count _ _ _ (pruned_node n) D) as Hk.
  destruct n as [p0 p1 s d]. cbn [ptr0 ptr1 pruned_node node_count] in *.
  destruct p0 as [c0|], p1 as [c1|]; cbn [is_some];
    try rewrite (term_node_count _ (T0 _ eq_refl)) in Hk;
    try rewrite (term_node_count _ (T1 _ eq_refl)) in Hk;
    match type of Hk with
    | context [node_count ?x] => pose proof (node_count_pos x)
    end;
    repeat rewrite u64_small; unfold two64 in *; lia.
Qed.

Lemma add_walk_created bits : forall depth addr val ptr n' created up p,
  add_walk bits depth addr val ptr = (n', created, up, p) ->
  0 <= created <= Z.of_nat bits.
Proof.
  induction bits as [|bits IH]; intros depth addr val [p0 p1 s d] n' created up p E;
    cbn [add_walk] in E.
  - cbn in E. injection E as _ <- _ _. lia.
  - destruct (bit addr depth).
    + destruct (add_walk bits (depth + 1) addr val
                  (match p1 with Some c => c | None => new_node end))
        as [[[c' cr] u] q] eqn:Ew.
      pose proof (IH _ _ _ _ _ _ _ _ Ew) as Hc.
      assert (H : created = (match p1 with Some _ => 0 | None => 1 end) + cr).
      { destruct p1; rewrite Ew in E; injection E as _ <- _ _; reflexivity. }
      destruct p1; lia.
    + destruct (add_walk bits (depth + 1) addr val
                  (match p0 with Some c => c | None => new_node end))
        as [[[c' cr] u] q] eqn:Ew.
      pose proof (IH _ _ _ _ _ _ _ _ Ew) as Hc.
      assert (H : created = (match p0 with Some _ => 0 | None => 1 end) + cr).
      { destruct p0; rewrite Ew in E; injection E as _ <- _ _; reflexivity. }
      destruct p0; lia.
Qed.

(** after [prune_if_greater] the tree is not above its ceiling *)
Lemma prune_if_greater_le c limit t t' :
  c < two64 -> 0 <= maxnodes t < two64 ->
  prune_if_greater limit t = Ok t' ->
  exact t /\ nodes t <= c ->
  (exact t' /\ nodes t' <= c) /\ maxnodes t' = maxnodes t /\ nodes t' <= maxnodes t.
Proof.
  intros Hc Hm P J.
  pose proof (prune_if_greater_keeps _ (node_prune_exact c Hc) _ _ _ P J) as J'.
  split; [exact J'|]. destruct J' as (C' & _).
  unfold prune_if_greater in P.
  destruct (Z.geb_spec (nodes t) (maxnodes t)) as [G|L].
  - destruct (prune_while_bound _ _ _ P) as (Hm' & [Hb|T]).
    + split; [exact Hm'|]. pose proof (ninety_percent _ Hm). lia.
    + split; [exact Hm'|]. unfold exact in C'.
      rewrite (term_node_count _ T) in C'. lia.
  - injection P as <-. split; [reflexivity | lia].
Qed.

Lemma add_exact ADDRBYTES m addr addrlen val t t' :
  0 <= m -> m + 8 * Z.of_nat ADDRBYTES < two64 ->
  add ADDRBYTES addr addrlen val t = Ok t' ->
  maxnodes t = m ->
  exact t /\ nodes t <= m + 8 * Z.of_nat ADDRBYTES  ->
  exact t' /\ nodes t' <= m + 8 * Z.of_nat ADDRBYTES.
Proof.
  unfold add. intros H0 Hc E M J.
  destruct (prune_if_greater (maxnodes t) t) as [t1|] eqn:P; [|discriminate].
  cbn [bind] in E.
  assert (Hm : 0 <= maxnodes t < two64) by lia.
  destruct (prune_if_greater_le _ _ _ _ Hc Hm P J) as ((C & _) & M1 & L).
  rewrite M in L. clear J P.
  set (len := if addrlen >? Z.of_nat ADDRBYTES then Z.of_nat ADDRBYTES else addrlen) in E.
  assert (Hl : Z.of_nat (Z.to_nat (len * 8)) <= 8 * Z.of_nat ADDRBYTES).
  { subst len. destruct (Z.gtb_spec addrlen (Z.of_nat ADDRBYTES)); lia. }
  destruct (cache_search_root addr (Z.to_nat len) t1) as (Hr & _ & Hn & _).
  destruct (cache_search addr (Z.to_nat len) t1) as [i t2]. cbn [snd] in Hr, Hn.
  unfold exact in *. rewrite <- Hr, <- Hn in C. rewrite <- Hn in L.
  destruct i as [e|].
  - destruct (ce_ptr e) as [p|]; [|discriminate].
    destruct (add_at (root t2) p val) as [[r up]|] eqn:A; [|discriminate].
    cbn [bind] in E. injection E as <-. cbn [root nodes with_root].
    rewrite (add_at_node_count _ _ _ _ _ A). lia.
  - destruct (add_walk (Z.to_nat (len * 8)) 0 addr val (root t2)) as [[[r created] up] p] eqn:A.
    injection E as <-. cbn [root nodes cache_replace].
    pose proof (add_walk_created _ _ _ _ _ _ _ _ _ A) as Hk.
    rewrite (add_walk_node_count _ _ _ _ _ _ _ _ _ A).
    assert (0 <= Z.of_nat (node_count (root t2)) - 1).
    { destruct (root t2). cbn [node_count]. lia. }
    rewrite u64_small by lia. lia.
Qed.

Lemma run_exact ADDRBYTES m ops : forall t t',
  0 <= m -> m + 8 * Z.of_nat ADDRBYTES < two64 ->
  run ADDRBYTES ops t = Ok t' ->
  maxnodes t = m ->
  exact t /\ nodes t <= m + 8 * Z.of_nat ADDRBYTES  ->
  exact t' /\ nodes t' <= m + 8 * Z.of_nat ADDRBYTES.
Proof.
  induction ops as [|o ops IH]; intros t t' H0 Hc; cbn [run].
  - intros E. injection E as <-. auto.
  - destruct (step ADDRBYTES t o) as [t1|] eqn:S; [|discriminate]. cbn [bind].
    intros E M J.
    destruct o as [addr addrlen val| |limit]; cbn [step] in S.
    + apply (IH _ _ H0 Hc E).
      * eapply add_maxnodes; eauto.
      * eapply add_exact; eauto.
    + destruct (prune t) as [[r t2]|] eqn:P; [|discriminate]. cbn [bind] in S.
      injection S as <-. apply (IH _ _ H0 Hc E).
      * eapply (prune_keeps _ (node_prune_maxnodes m)); eauto.
      * eapply (prune_keeps _ (node_prune_exact _ Hc)); eauto.
    + apply (IH _ _ H0 Hc E).
      * eapply (prune_if_greater_keeps _ (node_prune_maxnodes m)); eauto.
      * eapply (prune_if_greater_keeps _ (node_prune_exact _ Hc)); eauto.
Qed.

(** X6.  The memory the tree uses is bounded: in every state a sequence of
    calls has reached, the tree has at most [maxnodes] nodes and the nodes
    of one key, [8 * ADDRBYTES], besides the root; the counter [size()]
    has not wrapped around and is the number of those nodes. *)
Theorem size_is_bounded ADDRBYTES maxnodes_ ops t :
  0 <= maxnodes_ ->
  maxnodes_ + 8 * Z.of_nat ADDRBYTES < two64 ->
  run ADDRBYTES ops (new_iptreet ADDRBYTES maxnodes_) = Ok t ->
  size t = Z.of_nat (node_count (root t)) - 1 /\
  size t <= maxnodes_ + 8 * Z.of_nat ADDRBYTES.
Proof.
  intros H0 Hc E.
  apply (run_exact ADDRBYTES maxnodes_ ops _ _ H0 Hc E).
  - cbn. apply u64_small. lia.
  - split; [reflexivity | cbn [nodes new_iptreet]; lia].
Qed.

Lemma size_is_bounded_witness :
  size mixed_tree = Z.of_nat (node_count (root mixed_tree)) - 1 /\
  size mixed_tree <= 40 + 8 * Z.of_nat 16.
Proof.
  apply (size_is_bounded 16 40 mixed_ops mixed_tree); [lia | reflexivity | exact mixed_ops_run].
Defined.

(** ** The depth of the tree *)

Lemma key_bits_bound ADDRBYTES ops :
  Forall (fun o => (key_bits ADDRBYTES o <= 8 * ADDRBYTES)%nat) ops.
Proof.
  apply Forall_forall. intros [addr addrlen val| |limit] _; cbn [key_bits]; lia.
Qed.

(** X7.  No node lies deeper than the bits of an address: in every state a
    sequence of calls has reached, the tree has at most [8 * ADDRBYTES]
    levels below the root, however long the keys were said to be, and every
    count is a value of the weight type. *)
Theorem depth_is_bounded ADDRBYTES maxnodes_ ops t :
  run ADDRBYTES ops (new_iptreet ADDRBYTES maxnodes_) = Ok t ->
  (height (root t) <= 8 * ADDRBYTES)%nat /\ ranged (root t).
Proof.
  intros E.
  destruct (run_shallow ADDRBYTES (8 * ADDRBYTES) ops _ _ (key_bits_bound _ _) E) as (R & H).
  - split; [apply new_node_ranged | cbn; lia].
  - auto.
Qed.

Lemma depth_is_bounded_witness :
  (height (root mixed_tree) <= 8 * 16)%nat /\ ranged (root mixed_tree).
Proof.
  exact (depth_is_bounded 16 40 mixed_ops mixed_tree mixed_ops_run).
Defined.

(** ** What [add] does to the counts *)

Lemma count_of_new_node q : count_of new_node q = 0.
Proof. unfold count_of. destruct q as [|[] q]; reflexivity. Qed.

Lemma add_walk_lookup bits : forall depth addr val ptr n' created up p,
  add_walk bits depth addr val ptr = (n', created, up, p) ->
  option_map nodesum (deref n' p) = Some (tadd (count_of ptr p) val) /\
  (forall q, q <> p -> live ptr q = true ->
     option_map nodesum (deref n' q) = option_map nodesum (deref ptr q)) /\
  (forall q, live n' q = true -> live ptr q = true \/ exists r, p = q ++ r).
Proof.
  induction bits as [|bits IH]; intros depth addr val [p0 p1 s d] n' created up p E;
    cbn [add_walk] in E.
  - cbn in E. injection E as <- _ _ <-. split; [reflexivity|]. split.
    + intros [|b q] Hq L; [congruence|]. reflexivity.
    + intros q L. left. destruct q as [|b q]; [reflexivity | exact L].
  - destruct (bit addr depth) eqn:B.
    + destruct (add_walk bits (depth + 1) addr val
                  (match p1 with Some c => c | None => new_node end))
        as [[[c' cr] u] q'] eqn:Ew.
      destruct (IH _ _ _ _ _ _ _ _ Ew) as (H1 & H2 & H3).
      assert (H : p = true :: q' /\ n' = Node p0 (Some c') s (d || u)).
      { destruct p1; rewrite Ew in E; injection E as <- _ _ <-; split; reflexivity. }
      destruct H as (-> & ->). split; [|split].
      * cbn [deref ptr1]. rewrite H1. unfold count_of. cbn [deref ptr1].
        destruct p1 as [c1|]; [reflexivity|].
        fold (count_of new_node q'). rewrite count_of_new_node. reflexivity.
      * intros [|[] q] Hq L; unfold live in *; cbn [deref ptr0 ptr1] in *.
        -- reflexivity.
        -- destruct p1 as [c1|]; [|discriminate]. apply H2; [congruence | exact L].
        -- reflexivity.
      * intros [|[] q] L; unfold live in *; cbn [deref ptr0 ptr1] in *.
        -- left. reflexivity.
        -- destruct (H3 q L) as [L'|(r & ->)].
           ++ destruct p1 as [c1|]; [left; exact L'|].
              destruct q as [|b q]; [right; exists q'; reflexivity|].
              destruct b; discriminate L'.
           ++ right. exists r. reflexivity.
        -- left. exact L.
    + destruct (add_walk bits (depth + 1) addr val
                  (match p0 with Some c => c | None => new_node end))
        as [[[c' cr] u] q'] eqn:Ew.
      destruct (IH _ _ _ _ _ _ _ _ Ew) as (H1 & H2 & H3).
      assert (H : p = false :: q' /\ n' = Node (Some c') p1 s (d || u)).
      { destruct p0; rewrite Ew in E; injection E as <- _ _ <-; split; reflexivity. }
      destruct H as (-> & ->). split; [|split].
      * cbn [deref ptr0]. rewrite H1. unfold count_of. cbn [deref ptr0].
        destruct p0 as [c0|]; [reflexivity|].
        fold (count_of new_node q'). rewrite count_of_new_node. reflexivity.
      * intros [|[] q] Hq L; unfold live in *; cbn [deref ptr0 ptr1] in *.
        -- reflexivity.
        -- reflexivity.
        -- destruct p0 as [c0|]; [|discriminate]. apply H2; [congruence | exact L].
      * intros [|[] q] L; unfold live in *; cbn [deref ptr0 ptr1] in *.
        -- left. reflexivity.
        -- left. exact L.
        -- destruct (H3 q L) as [L'|(r & ->)].
           ++ destruct p0 as [c0|]; [left; exact L'|].
              destruct q as [|b q]; [right; exists q'; reflexivity|].
              destruct b; discriminate L'.
           ++ right. exists r. reflexivity.
Qed.

Lemma run_uniform ADDRBYTES L ops : forall t t',
  Forall (wf_op ADDRBYTES) ops -> Forall (key_length ADDRBYTES L) ops ->
  run ADDRBYTES ops t = Ok t' ->
  cache_ok ADDRBYTES t /\ uniform L t /\ counted t ->
  cache_ok ADDRBYTES t' /\ uniform L t' /\ counted t'.
Proof.
  induction ops as [|o ops IH]; intros t t' Wf Kl; cbn [run].
  - intros E. injection E as <-. auto.
  - inversion Wf as [|? ? Wo Wops]; subst. inversion Kl as [|? ? Ko Kops]; subst.
    destruct (step ADDRBYTES t o) as [t1|] eqn:S; [|discriminate]. cbn [bind].
    intros E (C & U & Cn). apply (IH _ _ Wops Kops E).
    destruct (step_cache_ok ADDRBYTES t o Wo C) as (_ & C'). split; [eauto|].
    destruct o as [addr addrlen val| |limit]; cbn [step] in S.
    + destruct (add_refines _ _ _ _ _ _ t Wo Ko C U Cn eq_refl) as (_ & U').
      split; [eauto | eapply add_counted; eauto].
    + destruct (prune t) as [[r t2]|] eqn:P; [|discriminate]. cbn [bind] in S.
      injection S as <-. split.
      * eapply (prune_uniform L); eauto. split; [apply C | exact U].
      * eapply (prune_keeps counted node_prune_counted); eauto.
    + split.
      * apply (prune_if_greater_keeps
                 (fun t => NoDup (cache_ptrs (cache t)) /\ uniform L t)
                 (node_prune_uniform L) _ _ _ S).
        split; [apply C | exact U].
      * eapply (prune_if_greater_keeps counted node_prune_counted); eauto.
Qed.

(** X8.  Insert and look up.  On a tree that was built from keys of one
    length, [add] first prunes if the tree is at its ceiling and then adds
    [val] to the count of the node of the key, creating the node with count 0
    if it is not there; the count of every other node is as the pruning left
    it, and the only new nodes lie on the way to the key.  Nothing is pruned
    while the tree is below its ceiling. *)
Theorem add_increments_key ADDRBYTES maxnodes_ L ops t addr addrlen val t1 t' :
  Forall (wf_op ADDRBYTES) ops -> Forall (key_length ADDRBYTES L) ops ->
  wf_op ADDRBYTES (Add addr addrlen val) ->
  key_length ADDRBYTES L (Add addr addrlen val) ->
  run ADDRBYTES ops (new_iptreet ADDRBYTES maxnodes_) = Ok t ->
  prune_if_greater (maxnodes t) t = Ok t1 ->
  add ADDRBYTES addr addrlen val t = Ok t' ->
  nodesum_at t' (prefix_path addr (8 * L)) =
    Some (tadd (count_of (root t1) (prefix_path addr (8 * L))) val) /\
  (forall q, q <> prefix_path addr (8 * L) -> live (root t1) q = true ->
     nodesum_at t' q = nodesum_at t1 q) /\
  (forall q, live (root t') q = true ->
     live (root t1) q = true \/ exists r, prefix_path addr (8 * L) = q ++ r) /\
  (nodes t < maxnodes t -> t1 = t).
Proof.
  intros Wf Kl Wo Ko R P A.
  destruct (run_uniform ADDRBYTES L ops _ _ Wf Kl R) as (C & U & Cn).
  { split; [apply new_iptreet_cache_ok|]. split; [intros p []|reflexivity]. }
  destruct (add_refines _ _ _ _ _ _ t Wo Ko C U Cn eq_refl) as (S & _).
  rewrite A in S. unfold add_uncached in S. rewrite P in S. cbn [bind] in S.
  rewrite clamp_min in S. cbn [key_length] in Ko.
  replace (Z.to_nat (Z.min addrlen (Z.of_nat ADDRBYTES) * 8)) with (8 * L)%nat in S by lia.
  destruct (add_walk (8 * L) 0 addr val (root t1)) as [[[r created] up] ptr] eqn:W.
  cbn [same] in S. destruct (eqv_inv _ _ S) as (Hr & _). cbn [root] in Hr.
  destruct (add_walk_path _ _ _ _ _ _ _ _ _ W) as (-> & _).
  destruct (add_walk_lookup _ _ _ _ _ _ _ _ _ W) as (H1 & H2 & H3).
  unfold nodesum_at, prefix_path. rewrite Hr. repeat split; auto.
  intros Hlt. unfold prune_if_greater in P.
  destruct (Z.geb_spec (nodes t) (maxnodes t)); [lia|]. congruence.
Qed.

Lemma add_increments_key_witness :
  nodesum_at mixed_tree (prefix_path [1; 2; 3; 4] (8 * 4)) = Some 2.
Proof.
  pose (ops := [Add [1; 2; 3; 4] 4 5; Prune; Add [1; 2; 3; 5] 4 7; PruneIfGreater 3]).
  pose (t := tree_after 16 40 ops).
  assert (Wf : Forall (wf_op 16) ops).
  { repeat constructor; cbn; lia. }
  assert (Kl : Forall (key_length 16 4) ops).
  { repeat constructor. }
  assert (Wo : wf_op 16 (Add [1; 2; 3; 4] 4 2)).
  { repeat constructor; cbn; lia. }
  assert (R : run 16 ops (new_iptreet 16 40) = Ok t) by reflexivity.
  assert (P : prune_if_greater (maxnodes t) t = Ok t) by reflexivity.
  assert (A : add 16 [1; 2; 3; 4] 4 2 t = Ok mixed_tree) by reflexivity.
  etransitivity.
  - exact (proj1 (add_increments_key 16 40 4 ops t [1; 2; 3; 4] 4 2 t mixed_tree
                    Wf Kl Wo eq_refl R P A)).
  - reflexivity.
Defined.

(** ** The entries of the histogram *)

Lemma memcpy_all dst src : List.length dst = List.length src ->
  memcpy dst src (List.length src) = src.
Proof.
  intros H. unfold memcpy. rewrite firstn_all, <- H, skipn_all. apply app_nil_r.
Qed.

Lemma bit_memcpy_high dst src n j :
  (n <= List.length src)%nat -> 8 * Z.of_nat n <= j ->
  bit (memcpy dst src n) j = bit dst j.
Proof.
  intros Hn Hj. rewrite !bit_testbit. unfold byte_at, memcpy.
  assert (Z.of_nat n <= j / 8) by (apply Z.div_le_lower_bound; lia).
  rewrite app_nth2; rewrite length_firstn, Nat.min_l by lia; [|lia].
  rewrite nth_skipn. do 2 f_equal. lia.
Qed.

(** copying the bytes that hold the first [depth] bits into a zeroed buffer
    gives the buffer back when its other bits are clear *)
Lemma memcpy_prefix ADDRBYTES addr depth :
  List.length addr = ADDRBYTES -> Forall is_byte addr ->
  0 <= depth <= 8 * Z.of_nat ADDRBYTES ->
  (forall j, depth <= j -> bit addr j = false) ->
  memcpy (zeros ADDRBYTES) addr (Z.to_nat ((depth + 7) / 8)) = addr.
Proof.
  intros Hl Fa Hd Hz.
  assert (Hk : 0 <= (depth + 7) / 8 <= Z.of_nat ADDRBYTES).
  { split; [apply Z.div_pos; lia|].
    assert ((depth + 7) / 8 < Z.of_nat ADDRBYTES + 1) by (apply Z.div_lt_upper_bound; lia).
    lia. }
  assert (Hk' : depth <= 8 * ((depth + 7) / 8)).
  { pose proof (Z.div_mod (depth + 7) 8). pose proof (Z.mod_pos_bound (depth + 7) 8). lia. }
  apply bytes_ext.
  - rewrite memcpy_length; rewrite ?zeros_length; lia.
  - apply memcpy_bytes; [apply zeros_bytes | exact Fa].
  - exact Fa.
  - intros j Hj.
    destruct (Z.lt_ge_cases j (8 * ((depth + 7) / 8))) as [L|G].
    + apply bit_memcpy; lia.
    + rewrite bit_memcpy_high, bit_zeros by lia. symmetry. apply Hz. lia.
Qed.

Lemma filter_map_snd (b : bool) (l : list (path * Z)) :
  filter nonzero (map (fun e => (b :: fst e, snd e)) l) =
  map (fun e => (b :: fst e, snd e)) (filter nonzero l).
Proof.
  induction l as [|[q x] l IH]; [reflexivity|]. cbn [map filter].
  rewrite IH. unfold nonzero. cbn [fst snd].
  destruct (negb (x =? 0)); reflexivity.
Qed.

Lemma get_histogram_from_entries ADDRBYTES n : forall depth addr,
  ranged n ->
  List.length addr = ADDRBYTES -> Forall is_byte addr ->
  0 <= depth ->
  (forall j, depth <= j -> bit addr j = false) ->
  depth + Z.of_nat (height n) <= 8 * Z.of_nat ADDRBYTES ->
  depth + Z.of_nat (height n) <= 128 ->
  get_histogram_from ADDRBYTES depth addr n =
  map (entry_of addr depth) (filter nonzero (node_counts n)).
Proof.
  induction n as [p0 p1 s dd IH0 IH1] using node_ind.
  intros depth addr (Hs & R0 & R1) Hl Fa Hd Hz Hh Hc.
  destruct (height_child p0 p1 s dd) as (H0 & H1).
  cbn [get_histogram_from nodesum node_counts filter].
  unfold nonzero at 1. cbn [snd].
  assert (Hhead : new_addr_elem ADDRBYTES addr depth s = entry_of addr depth ([], s)).
  { unfold new_addr_elem, entry_of. cbn [fst snd path_addr List.length].
    rewrite <- Hl at 2. rewrite memcpy_all by (rewrite zeros_length; lia).
    rewrite u64_int64, u64_small by exact Hs.
    rewrite Z.mod_small by lia. rewrite Z.add_0_r. reflexivity. }
  assert (Hrest :
    (if depth >? max_histogram_depth then []
     else
       (match p0 with
        | Some c => get_histogram_from ADDRBYTES (depth + 1)
                      (memcpy (zeros ADDRBYTES) addr (Z.to_nat ((depth + 7) / 8))) c
        | None => []
        end) ++
       (match p1 with
        | Some c => get_histogram_from ADDRBYTES (depth + 1)
                      (setbit (memcpy (zeros ADDRBYTES) addr (Z.to_nat ((depth + 7) / 8))) depth) c
        | None => []
        end)) =
    map (entry_of addr depth)
        (filter nonzero
           ((match p0 with
             | Some c => map (fun e => (false :: fst e, snd e)) (node_counts c)
             | None => []
             end) ++
            (match p1 with
             | Some c => map (fun e => (true :: fst e, snd e)) (node_counts c)
             | None => []
             end)))).
  { unfold max_histogram_depth. destruct (Z.gtb_spec depth 128); [lia|].
    rewrite memcpy_prefix by (auto; lia).
    rewrite filter_app, map_app. f_equal.
    - destruct p0 as [c0|]; [|reflexivity]. specialize (H0 c0 eq_refl).
      rewrite (IH0 c0 eq_refl (depth + 1) addr); auto; try lia.
      + rewrite filter_map_snd, map_map. apply map_ext. intros [q x].
        unfold entry_of. cbn [fst snd path_addr List.length]. f_equal. lia.
      + intros j Hj. apply Hz. lia.
    - destruct p1 as [c1|]; [|reflexivity]. specialize (H1 c1 eq_refl).
      assert (Hb : depth / 8 < Z.of_nat (List.length addr)).
      { apply Z.div_lt_upper_bound; lia. }
      rewrite (IH1 c1 eq_refl (depth + 1) (setbit addr depth)); auto; try lia.
      + rewrite filter_map_snd, map_map. apply map_ext. intros [q x].
        unfold entry_of. cbn [fst snd path_addr List.length]. f_equal. lia.
      + rewrite setbit_length. exact Hl.
      + apply setbit_bytes. exact Fa.
      + intros j Hj. rewrite bit_setbit by lia. rewrite Hz by lia.
        destruct (Z.eqb_spec j depth); [lia | reflexivity]. }
  destruct (s =? 0); cbn [negb app map].
  - exact Hrest.
  - rewrite Hhead. f_equal. exact Hrest.
Qed.

(** the bits of the buffer that was handed down *)
Lemma path_addr_bit q : forall addr depth j,
  0 <= depth -> 0 <= j ->
  depth + Z.of_nat (List.length q) <= 8 * Z.of_nat (List.length addr) ->
  (forall i, depth <= i -> bit addr i = false) ->
  List.length (path_addr addr depth q) = List.length addr /\
  (Forall is_byte addr -> Forall is_byte (path_addr addr depth q)) /\
  bit (path_addr addr depth q) j =
    if j <? depth then bit addr j else nth (Z.to_nat (j - depth)) q false.
Proof.
  induction q as [|b q IH]; intros addr depth j Hd Hj Hb Hz; cbn [path_addr List.length] in *.
  - split; [reflexivity|]. split; [auto|].
    destruct (Z.ltb_spec j depth); [reflexivity|].
    rewrite Hz by lia. destruct (Z.to_nat (j - depth)); reflexivity.
  - assert (Hi : depth / 8 < Z.of_nat (List.length addr)).
    { apply Z.div_lt_upper_bound; lia. }
    assert (Hl : List.length (if b then setbit addr depth else addr) = List.length addr).
    { destruct b; [apply setbit_length | reflexivity]. }
    assert (Hs : forall i, 0 <= i ->
                 bit (if b then setbit addr depth else addr) i =
                 if b then (i =? depth) || bit addr i else bit addr i).
    { intros i Hi0. destruct b; [|reflexivity]. apply bit_setbit; lia. }
    destruct (IH (if b then setbit addr depth else addr) (depth + 1) j) as (IHl & IHf & IHb);
      try lia.
    { intros i Hi'. rewrite Hs, Hz by lia.
      destruct b; [|reflexivity]. destruct (Z.eqb_spec i depth); [lia | reflexivity]. }
    split; [lia|]. split.
    { intros Fa. apply IHf. destruct b; [apply setbit_bytes|]; exact Fa. }
    rewrite IHb, Hs by lia.
    destruct (Z.ltb_spec j (depth + 1)), (Z.ltb_spec j depth); try lia.
    + destruct b; [|reflexivity]. destruct (Z.eqb_spec j depth); [lia | reflexivity].
    + assert (j = depth) by lia. subst j. rewrite Z.sub_diag. cbn [Z.to_nat nth].
      rewrite Z.eqb_refl, Hz by lia. destruct b; reflexivity.
    + replace (Z.to_nat (j - depth)) with (S (Z.to_nat (j - (depth + 1)))) by lia.
      reflexivity.
Qed.

Lemma node_counts_deref n : forall q s,
  In (q, s) (node_counts n) ->
  nodesum_at (with_root (new_iptreet 0 0) n) q = Some s /\
  (List.length q <= height n)%nat.
Proof.
  unfold nodesum_at. cbn [root with_root].
  induction n as [p0 p1 s0 d IH0 IH1] using node_ind. intros q s.
  destruct (height_child p0 p1 s0 d) as (H0 & H1).
  cbn [node_counts]. intros [E|E].
  - injection E as <- <-. split; [reflexivity | cbn; lia].
  - apply in_app_or in E. destruct E as [E|E].
    + destruct p0 as [c0|]; [|destruct E].
      apply in_map_iff in E. destruct E as ([q' s'] & E & I). cbn [fst snd] in E.
      injection E as <- <-. destruct (IH0 c0 eq_refl _ _ I) as (D & L).
      split; [exact D|]. specialize (H0 c0 eq_refl). cbn [List.length]. lia.
    + destruct p1 as [c1|]; [|destruct E].
      apply in_map_iff in E. destruct E as ([q' s'] & E & I). cbn [fst snd] in E.
      injection E as <- <-. destruct (IH1 c1 eq_refl _ _ I) as (D & L).
      split; [exact D|]. specialize (H1 c1 eq_refl). cbn [List.length]. lia.
Qed.

Lemma map_nth_seq (q : path) :
  map (fun i => nth i q false) (seq 0 (List.length q)) = q.
Proof.
  apply (nth_ext _ _ false false).
  - rewrite length_map, length_seq. reflexivity.
  - intros n Hn. rewrite length_map, length_seq in Hn.
    rewrite (nth_indep _ false (nth 0 q false)) by (rewrite length_map, length_seq; exact Hn).
    rewrite (map_nth (fun i => nth i q false) (seq 0 (List.length q)) O n).
    rewrite seq_nth by exact Hn. reflexivity.
Qed.

(** the buffer of a pointer spells the pointer and is clear behind it *)
Lemma path_addr_spells ADDRBYTES q :
  (List.length q <= 8 * ADDRBYTES)%nat ->
  List.length (path_addr (zeros ADDRBYTES) 0 q) = ADDRBYTES /\
  Forall is_byte (path_addr (zeros ADDRBYTES) 0 q) /\
  prefix_path (path_addr (zeros ADDRBYTES) 0 q) (List.length q) = q /\
  forall j, Z.of_nat (List.length q) <= j ->
            bit (path_addr (zeros ADDRBYTES) 0 q) j = false.
Proof.
  intros Hq.
  assert (H : forall j, 0 <= j ->
            List.length (path_addr (zeros ADDRBYTES) 0 q) = List.length (zeros ADDRBYTES) /\
            (Forall is_byte (zeros ADDRBYTES) ->
             Forall is_byte (path_addr (zeros ADDRBYTES) 0 q)) /\
            bit (path_addr (zeros ADDRBYTES) 0 q) j =
              if j <? 0 then bit (zeros ADDRBYTES) j
              else nth (Z.to_nat (j - 0)) q false).
  { intros j Hj. apply path_addr_bit; try lia.
    - rewrite zeros_length. lia.
    - intros i _. apply bit_zeros. }
  destruct (H 0 (Z.le_refl 0)) as (Hl & Hf & _). rewrite zeros_length in Hl.
  split; [exact Hl|]. split; [apply Hf, zeros_bytes|]. split.
  - unfold prefix_path, walk_path.
    transitivity (map (fun i => nth i q false) (seq 0 (List.length q)));
      [|apply map_nth_seq].
    apply map_ext_in. intros i Hi. apply in_seq in Hi.
    destruct (H (0 + Z.of_nat i)) as (_ & _ & ->); [lia|].
    destruct (Z.ltb_spec (0 + Z.of_nat i) 0); [lia|]. f_equal. lia.
  - intros j Hj. destruct (H j) as (_ & _ & ->); [lia|].
    destruct (Z.ltb_spec j 0); [lia|]. apply nth_overflow. lia.
Qed.

(** X9.  What the histogram lists.  For a tree that was built from keys of
    at most 16 bytes, in every state a sequence of calls has reached,
    [get_histogram] appends one entry for every node with a count other than
    0, in preorder (a node, then the nodes below its [ptr0], then those below
    its [ptr1]): the entry holds the count of the node, its depth, and the
    address whose first bits spell the way to the node and whose other bits
    are clear. *)
Theorem histogram_lists_nodes ADDRBYTES maxnodes_ ops t :
  (ADDRBYTES <= 16)%nat \/
  Forall (fun o => (key_bits ADDRBYTES o <= 128)%nat) ops ->
  run ADDRBYTES ops (new_iptreet ADDRBYTES maxnodes_) = Ok t ->
  get_histogram ADDRBYTES t [] =
    map (entry_of (zeros ADDRBYTES) 0) (filter nonzero (node_counts (root t))) /\
  (forall q s, In (q, s) (node_counts (root t)) <-> nodesum_at t q = Some s) /\
  (forall q s, In (q, s) (node_counts (root t)) ->
     List.length (path_addr (zeros ADDRBYTES) 0 q) = ADDRBYTES /\
     prefix_path (path_addr (zeros ADDRBYTES) 0 q) (List.length q) = q /\
     forall j, Z.of_nat (List.length q) <= j ->
               bit (path_addr (zeros ADDRBYTES) 0 q) j = false).
Proof.
  intros HA E.
  destruct (run_shallow ADDRBYTES (8 * ADDRBYTES) ops _ _ (key_bits_bound _ _) E) as (R & H).
  { split; [apply new_node_ranged | cbn; lia]. }
  assert (Hb : Forall (fun o => (key_bits ADDRBYTES o <= 128)%nat) ops)
    by (destruct HA; [apply key_bits_base|]; assumption).
  destruct (run_shallow _ _ _ _ _ Hb E) as (_ & H').
  { split; [apply new_node_ranged | cbn; lia]. }
  split; [|split].
  - unfold get_histogram. cbn [app].
    apply get_histogram_from_entries; auto; try lia.
    + apply zeros_length.
    + apply zeros_bytes.
    + intros j _. apply bit_zeros.
  - intros q s. split.
    + intros I. apply (node_counts_deref _ _ _ I).
    + unfold nodesum_at. destruct (deref (root t) q) as [m|] eqn:D; [|discriminate].
      intros Es. injection Es as <-. apply deref_node_counts, D.
  - intros q s I. destruct (node_counts_deref _ _ _ I) as (_ & L).
    destruct (path_addr_spells ADDRBYTES q) as (H1 & _ & H2 & H3); [lia|]. auto.
Qed.

Lemma histogram_lists_nodes_witness :
  get_histogram 16 mixed_tree [] =
    map (entry_of (zeros 16) 0) (filter nonzero (node_counts (root mixed_tree))) /\
  entries (get_histogram 16 mixed_tree []) =
    [([1; 2; 3; 4; 0; 0; 0; 0; 0; 0; 0; 0; 0; 0; 0; 0], 31, 5);
     ([1; 2; 3; 4; 0; 0; 0; 0; 0; 0; 0; 0; 0; 0; 0; 0], 32, 2);
     ([1; 2; 3; 5; 0; 0; 0; 0; 0; 0; 0; 0; 0; 0; 0; 0], 32, 7)].
Proof.
  split.
  - apply (histogram_lists_nodes 16 40 mixed_ops mixed_tree);
      [left; lia | exact mixed_ops_run].
  - reflexivity.
Defined.

(** ** How the entries are rendered *)

Lemma forallb_firstn {A : Type} (f : A -> bool) (l : list A) : forall k,
  forallb f l = true -> forallb f (firstn k l) = true.
Proof.
  induction l as [|x l IH]; intros [|k]; cbn; auto.
  intros H. apply andb_prop in H. destruct H as (-> & H). cbn. auto.
Qed.

(** an address whose bits from bit 32 on are clear passes for IPv4 *)
Lemma clear_tail_isipv4 a (L : nat) :
  List.length a = L -> (4 <= L)%nat -> Forall is_byte a ->
  (forall j, 32 <= j -> bit a j = false) ->
  isipv4 a (Z.of_nat L) = true.
Proof.
  intros Hl H4 Fa Hz. unfold isipv4.
  destruct (Z.of_nat L =? 4); [reflexivity|].
  assert (E : a = firstn 4 a ++ zeros (L - 4)).
  { apply bytes_ext.
    - rewrite length_app, length_firstn, zeros_length. lia.
    - exact Fa.
    - apply Forall_app. split; [apply Forall_firstn_bytes, Fa | apply zeros_bytes].
    - intros j Hj. rewrite bit_app_zeros by lia.
      destruct (Z.lt_ge_cases j 32) as [Lt|Ge].
      + rewrite bit_firstn by lia. reflexivity.
      + rewrite Hz by lia. symmetry. apply bit_beyond.
        rewrite length_firstn. lia. }
  rewrite E, skipn_app, length_firstn.
  replace (4 - Nat.min 4 (List.length a))%nat with O by lia.
  rewrite skipn_all2 by (rewrite length_firstn; lia).
  cbn [app skipn]. apply forallb_firstn, forallb_forall. intros x Hx.
  unfold zeros in Hx. apply repeat_spec in Hx. subst x. reflexivity.
Qed.

(** X10.  An entry of the histogram of at most 32 bits is rendered as an
    IPv4 address, whatever the length of the keys below it was: in a tree of
    addresses of 4 to 16 bytes its buffer is clear from byte 4 on, so
    [is4()] holds and [str()] is the dotted quad of the first four bytes,
    followed by the depth when that is less than 32. *)
Theorem short_entry_renders_as_ipv4 ipv6 ADDRBYTES maxnodes_ ops t e :
  (4 <= ADDRBYTES <= 16)%nat ->
  run ADDRBYTES ops (new_iptreet ADDRBYTES maxnodes_) = Ok t ->
  In e (get_histogram ADDRBYTES t []) ->
  elem_depth e <= 32 ->
  is4 ADDRBYTES e = true /\
  str ipv6 ADDRBYTES e =
    (ipv4 (elem_addr e) ++
     (if (elem_depth e <? 32)%Z then "/" ++ itos (elem_depth e) else ""))%string.
Proof.
  intros HA E I Hd.
  destruct (run_shallow ADDRBYTES (8 * ADDRBYTES) ops _ _ (key_bits_bound _ _) E) as (R & H).
  { split; [apply new_node_ranged | cbn; lia]. }
  unfold get_histogram in I. cbn [app] in I.
  rewrite (get_histogram_from_entries ADDRBYTES (root t) 0 (zeros ADDRBYTES)) in I;
    auto using zeros_length, zeros_bytes; try lia;
    [|intros j _; apply bit_zeros].
  apply in_map_iff in I. destruct I as ([q s] & <- & I).
  apply filter_In in I. destruct I as (I & _).
  destruct (node_counts_deref _ _ _ I) as (_ & L).
  destruct (path_addr_spells ADDRBYTES q) as (H1 & H2 & _ & H3); [lia|].
  unfold entry_of in *. cbn [fst snd elem_depth elem_addr] in *.
  assert (T : isipv4 (path_addr (zeros ADDRBYTES) 0 q) (Z.of_nat ADDRBYTES) = true).
  { apply clear_tail_isipv4; auto; try lia. intros j Hj. apply H3. lia. }
  unfold is4, str, ipstr, ipv4_bits. cbn [elem_addr elem_depth]. rewrite T.
  split; [reflexivity|].
  destruct (Z.ltb_spec (0 + Z.of_nat (List.length q)) 32); [|reflexivity].
  rewrite to_int_small by lia. reflexivity.
Qed.

Lemma short_entry_renders_as_ipv4_witness :
  is4 16 (mk_addr_elem [1; 2; 3; 4; 0; 0; 0; 0; 0; 0; 0; 0; 0; 0; 0; 0] 31 5) = true /\
  str (fun _ => EmptyString) 16
      (mk_addr_elem [1; 2; 3; 4; 0; 0; 0; 0; 0; 0; 0; 0; 0; 0; 0; 0] 31 5) =
    "1.2.3.4/31"%string.
Proof.
  assert (I : In (mk_addr_elem [1; 2; 3; 4; 0; 0; 0; 0; 0; 0; 0; 0; 0; 0; 0; 0] 31 5)
                 (get_histogram 16 mixed_tree [])) by (left; reflexivity).
  assert (D : elem_depth (mk_addr_elem [1; 2; 3; 4; 0; 0; 0; 0; 0; 0; 0; 0; 0; 0; 0; 0] 31 5)
              <= 32) by (cbn; lia).
  assert (A : (4 <= 16 <= 16)%nat) by lia.
  exact (short_entry_renders_as_ipv4 (fun _ => EmptyString) 16 40 mixed_ops mixed_tree _
           A mixed_ops_run I D).
Defined.

(** ** What [prune()] returns *)

Lemma node_prune_counters this t r t' :
  node_prune this t = Ok (r, t') ->
  exists n,
    deref (root t) this = Some n /\
    ctr_added t' = ctr_added t /\
    cache_hits t' = cache_hits t /\ cache_misses t' = cache_misses t /\
    cachenext t' = cachenext t /\
    (0 < children n ->
     nodes t' = u64 (nodes t - children n) /\
     pruned t' = u64 (pruned t + children n)).
Proof.
  unfold node_prune.
  destruct (deref (root t) this) as [[p0 p1 s d]|]; [|discriminate].
  unfold prune_child, children.
  destruct p0 as [c0|], p1 as [c1|]; cbn [bind];
    try destruct (term c0); try destruct (term c1); cbn [bind]; try discriminate;
    intros E; injection E as _ <-; eexists; (split; [reflexivity|]);
    cbn [nodes ctr_added pruned cache_hits cache_misses cachenext with_root cache_remove
         ptr0 ptr1 is_some];
    do 4 (split; [reflexivity|]); intros Hk; try lia; split; u64_solve.
Qed.

(** X11.  What [prune()] returns.  It returns 0 and leaves the tree as it
    is exactly when the root is terminal.  Otherwise it returns 1: the one or
    two children of the selected node are deleted, their counts are added to
    the count of the node, [size()] goes down and [pruned] goes up by the
    number of deleted nodes, and the other counters stay. *)
Theorem prune_outcome t r t' :
  prune t = Ok (r, t') ->
  (r = 0 /\ t' = t /\ term (root t) = true) \/
  (r = 1 /\ term (root t) = false /\
   exists this m,
     deref (root t) this = Some m /\
     1 <= children m <= 2 /\
     nodesum_at t' this = Some (nodesum (pruned_node m)) /\
     (node_count (root t') + Z.to_nat (children m) = node_count (root t))%nat /\
     size t' = u64 (size t - children m) /\
     pruned t' = u64 (pruned t + children m) /\
     ctr_added t' = ctr_added t /\ maxnodes t' = maxnodes t).
Proof.
  unfold prune. destruct (term (root t)) eqn:T.
  - intros E. injection E as <- <-. left. auto.
  - destruct (best_to_prune (root t) root_depth) as [b|] eqn:B; [|discriminate].
    cbn [bind]. intros P. right.
    destruct (best_to_prune_selects _ _ _ B) as (m & D & C & _).
    destruct (node_prune_inv _ _ _ _ P) as (n & Dn & -> & T0 & T1 & Hr & Hm & _).
    destruct (node_prune_counters _ _ _ _ P) as (n' & Dn' & Ha & _ & _ & _ & Hk).
    assert (n = m) by congruence. assert (n' = m) by congruence. subst n n'.
    assert (K : 1 <= children m <= 2).
    { unfold candidate, children in *.
      destruct (ptr0 m), (ptr1 m); cbn [is_some]; try discriminate; lia. }
    destruct Hk as (Hn & Hp); [lia|].
    split; [reflexivity|]. split; [reflexivity|]. exists (best_node b), m.
    repeat split; auto; try lia.
    + unfold nodesum_at. rewrite Hr.
      clear - D. revert D. generalize (root t) as n. generalize (best_node b) as p.
      induction p as [|k p IH]; intros [p0 p1 s d] D; cbn [deref replace_at] in *.
      * reflexivity.
      * destruct k; cbn [ptr0 ptr1] in *.
        -- destruct p1 as [c|]; [|discriminate]. apply IH, D.
        -- destruct p0 as [c|]; [|discriminate]. apply IH, D.
    + rewrite Hr. pose proof (replace_at_node_count _ _ _ (pruned_node m) D) as Hc.
      destruct m as [p0 p1 s d]. unfold children in *.
      cbn [ptr0 ptr1 pruned_node node_count] in *.
      destruct p0 as [c0|], p1 as [c1|]; cbn [is_some] in *;
        try rewrite (term_node_count _ (T0 _ eq_refl)) in Hc;
        try rewrite (term_node_count _ (T1 _ eq_refl)) in Hc; lia.
Qed.

Lemma prune_outcome_witness :
  (1 = 0 /\ scenario4_pruned = scenario4_tree /\ term (root scenario4_tree) = true) \/
  (1 = 1 /\ term (root scenario4_tree) = false /\
   exists this m,
     deref (root scenario4_tree) this = Some m /\
     1 <= children m <= 2 /\
     nodesum_at scenario4_pruned this = Some (nodesum (pruned_node m)) /\
     (node_count (root scenario4_pruned) + Z.to_nat (children m) =
      node_count (root scenario4_tree))%nat /\
     size scenario4_pruned = u64 (size scenario4_tree - children m) /\
     pruned scenario4_pruned = u64 (pruned scenario4_tree + children m) /\
     ctr_added scenario4_pruned = ctr_added scenario4_tree /\
     maxnodes scenario4_pruned = maxnodes scenario4_tree).
Proof.
  exact (prune_outcome scenario4_tree 1 scenario4_pruned scenario4_pruned_run).
Defined.

(** ** The key of an [add] is in the cache afterwards *)

Lemma cache_set_search i f c addr n :
  (i < List.length c)%nat ->
  (forall e, is_some (ce_ptr (f e)) && memcmp0 (ce_addr (f e)) addr n = true) ->
  exists e, cache_search_from (cache_set i f c) addr n = Some e.
Proof.
  intros Hi Hf. revert i Hi. induction c as [|x c IH]; intros [|i] Hi; cbn in Hi; try lia.
  - cbn [cache_set cache_search_from]. rewrite Hf. eauto.
  - cbn [cache_set cache_search_from].
    destruct (is_some (ce_ptr x) && memcmp0 (ce_addr x) addr n); [eauto|].
    apply IH. lia.
Qed.

Lemma memcmp0_memcpy dst src n :
  (n <= List.length src)%nat -> memcmp0 (memcpy dst src n) src n = true.
Proof.
  intros H. unfold memcmp0, memcpy. apply bytes_eqb_eq.
  rewrite firstn_app, length_firstn, Nat.min_l by lia.
  rewrite Nat.sub_diag, firstn_firstn, Nat.min_id. cbn [firstn]. apply app_nil_r.
Qed.

Lemma add_caches_key ADDRBYTES addr addrlen val t t' :
  wf_op ADDRBYTES (Add addr addrlen val) -> cache_ok ADDRBYTES t ->
  add ADDRBYTES addr addrlen val t = Ok t' ->
  exists e,
    cache_search_from (cache t') addr (Z.to_nat (Z.min addrlen (Z.of_nat ADDRBYTES))) = Some e.
Proof.
  intros (Hl & Ha & Fa) C. unfold add.
  destruct (prune_if_greater (maxnodes t) t) as [t1|] eqn:P; [|discriminate].
  cbn [bind]. pose proof (prune_if_greater_cache_ok _ _ _ _ P C) as (Hlen & _).
  rewrite clamp_min. set (n := Z.to_nat (Z.min addrlen (Z.of_nat ADDRBYTES))) in *.
  unfold cache_search.
  destruct (cache_search_from (cache t1) addr n) as [e|] eqn:S.
  - destruct (ce_ptr e) as [p|]; [|discriminate]. cbn [root].
    destruct (add_at (root t1) p val) as [[r up]|]; [|discriminate]. cbn [bind].
    intros E. injection E as <-. cbn [cache with_root]. eauto.
  - cbn [root nodes maxnodes ctr_added pruned cache cachenext cache_hits cache_misses].
    destruct (add_walk _ 0 addr val (root t1)) as [[[r created] up] ptr].
    intros E. injection E as <-. unfold cache_replace. cbn [cache cachenext].
    apply cache_set_search.
    + rewrite Hlen. unfold cache_size.
      pose proof (u64_range (cachenext t1 + 1)).
      destruct (Z.geb_spec (u64 (cachenext t1 + 1)) (Z.of_nat 4)); lia.
    + intros e. cbn [ce_ptr ce_addr is_some andb]. apply memcmp0_memcpy. exact Ha.
Qed.

(** X12.  A key that was just added is found in the cache: when [add] has
    returned and the tree is below its ceiling, the next [add] of the same
    key returns, counts one more hit and no more miss, creates no node and
    leaves the slots of the cache as they are. *)
Theorem repeated_key_hits ADDRBYTES maxnodes_ ops t addr addrlen val val' t' :
  Forall (wf_op ADDRBYTES) ops ->
  wf_op ADDRBYTES (Add addr addrlen val) ->
  run ADDRBYTES ops (new_iptreet ADDRBYTES maxnodes_) = Ok t ->
  add ADDRBYTES addr addrlen val t = Ok t' ->
  nodes t' < maxnodes t' ->
  exists t'',
    add ADDRBYTES addr addrlen val' t' = Ok t'' /\
    cache_hits t'' = u64 (cache_hits t' + 1) /\
    cache_misses t'' = cache_misses t' /\
    cache t'' = cache t' /\
    size t'' = size t' /\
    node_count (root t'') = node_count (root t').
Proof.
  intros Wf Wo R A Hlt.
  destruct (run_ends ADDRBYTES ops (new_iptreet ADDRBYTES maxnodes_) Wf
              (new_iptreet_cache_ok _ _)) as (_ & C).
  specialize (C _ R).
  destruct (add_cache_ok _ _ _ _ _ Wo C) as (_ & C'). specialize (C' _ A).
  destruct (add_caches_key _ _ _ _ _ _ Wo C A) as (e & S).
  unfold add at 1. unfold prune_if_greater.
  destruct (Z.geb_spec (nodes t') (maxnodes t')); [lia|]. cbn [bind].
  rewrite clamp_min. unfold cache_search. rewrite S.
  destruct (cache_search_from_Some _ _ _ _ S) as (Hin & Hp & _).
  destruct (ce_ptr e) as [p|] eqn:Ep; [|discriminate]. cbn [root].
  destruct C' as (_ & _ & F). rewrite Forall_forall in F.
  destruct (F e Hin) as (_ & _ & H3). destruct (H3 p Ep) as (Lp & _).
  destruct (add_at_ok p (root t') val' Lp) as ([r up] & Er). rewrite Er. cbn [bind].
  eexists. split; [reflexivity|].
  cbn [cache_hits cache_misses cache size nodes root with_root].
  repeat split. apply (add_at_node_count _ _ _ _ _ Er).
Qed.

Lemma repeated_key_hits_witness :
  exists t'',
    add 16 [1; 2; 3; 4] 4 9 mixed_tree = Ok t'' /\
    cache_hits t'' = u64 (cache_hits mixed_tree + 1) /\
    cache_misses t'' = cache_misses mixed_tree /\
    cache t'' = cache mixed_tree /\
    size t'' = size mixed_tree /\
    node_count (root t'') = node_count (root mixed_tree).
Proof.
  pose (ops := [Add [1; 2; 3; 4] 4 5; Prune; Add [1; 2; 3; 5] 4 7; PruneIfGreater 3]).
  assert (Wf : Forall (wf_op 16) ops).
  { repeat constructor; cbn; lia. }
  assert (Wo : wf_op 16 (Add [1; 2; 3; 4] 4 2)).
  { repeat constructor; cbn; lia. }
  assert (R : run 16 ops (new_iptreet 16 40) = Ok (tree_after 16 40 ops)) by reflexivity.
  assert (A : add 16 [1; 2; 3; 4] 4 2 (tree_after 16 40 ops) = Ok mixed_tree) by reflexivity.
  assert (L : nodes mixed_tree < maxnodes mixed_tree) by reflexivity.
  exact (repeated_key_hits 16 40 ops _ [1; 2; 3; 4] 4 2 9 mixed_tree Wf Wo R A L).
Defined.

(** ** A pair as it is rendered *)

(** X13.  A pair of addresses of up to 16 bytes each that [add_pair] has
    interleaved is rendered by [ip2str] as the two addresses, each padded
    with zeros to 16 bytes, with a blank between them; the depth [d] of the
    pair is shared out as [(d+1)/2] and [d/2]. *)
Theorem pair_renders_as_its_addresses ipv6 (a1 a2 : list Z) (L : nat) (d : Z) :
  List.length a1 = L -> List.length a2 = L -> (L <= 16)%nat ->
  Forall is_byte a1 -> Forall is_byte a2 ->
  0 <= d < two64 - 1 ->
  ip2tree.ip2str ipv6 (ip2tree.interleave a1 a2 (Z.of_nat L)) 32 d =
  (ipstr ipv6 (a1 ++ zeros (16 - L)) 16 ((d + 1) / 2) ++ " " ++
   ipstr ipv6 (a2 ++ zeros (16 - L)) 16 (d / 2))%string.
Proof.
  intros L1 L2 HL F1 F2 Hd. unfold ip2tree.ip2str.
  pose proof (un_pair_of_entry a1 a2 L d L1 L2 HL F1 F2) as E.
  assert (D : forall x y, snd (fst (ip2tree.un_pair x y 16
                 (ip2tree.interleave a1 a2 (Z.of_nat L)) 32 d)) = (d + 1) / 2 /\
              snd (ip2tree.un_pair x y 16
                 (ip2tree.interleave a1 a2 (Z.of_nat L)) 32 d) = d / 2).
  { intros x y. unfold ip2tree.un_pair.
    destruct (ip2tree.un_pair_loop _ _ _ _ _). cbn [fst snd].
    rewrite u64_small by lia. auto. }
  destruct (D (zeros 16) (zeros 16)) as (D1 & D2).
  destruct (ip2tree.un_pair (zeros 16) (zeros 16) 16
              (ip2tree.interleave a1 a2 (Z.of_nat L)) 32 d) as [[[r1 r2] d1] d2].
  cbn [fst snd] in *. injection E as -> ->. subst d1 d2. reflexivity.
Qed.

Lemma pair_renders_as_its_addresses_witness :
  ip2tree.ip2str (fun _ => EmptyString)
                 (ip2tree.interleave [1; 2; 3; 4] [5; 6; 7; 8] (Z.of_nat 4)) 32 64 =
  "1.2.3.4 5.6.7.8"%string.
Proof.
  etransitivity.
  - apply (pair_renders_as_its_addresses (fun _ => EmptyString)
             [1; 2; 3; 4] [5; 6; 7; 8] 4 64);
      try reflexivity; try lia;
      repeat constructor; unfold is_byte; try (unfold two64; lia).
  - reflexivity.
Defined.

(** ** A key that was added with the weight 0 *)

Lemma add_walk_zero bits : forall depth addr n created up p,
  add_walk bits depth addr 0 new_node = (n, created, up, p) ->
  term n = false /\ sum n = 0 /\ forall d, best_to_prune n d = Err NullDeref.
Proof.
  induction bits as [|bits IH]; intros depth addr n created up p E;
    cbn [add_walk new_node] in E.
  - cbn in E. injection E as <- _ _ _. repeat split.
  - destruct (add_walk bits (depth + 1) addr 0 new_node) as [[[c' cr] u] q] eqn:Ew.
    destruct (IH _ _ _ _ _ _ Ew) as (T & S & B).
    destruct (bit addr depth); cbv beta iota in E; rewrite Ew in E;
      injection E as <- _ _ _.
    + repeat split.
      * cbn [sum]. rewrite S. reflexivity.
      * intros d. cbn [best_to_prune]. unfold term at 1. cbn [nodesum ptr0 ptr1 is_null is_some].
        cbn [Z.gtb Z.compare andb negb ptr_term]. rewrite T. cbn [andb].
        rewrite B. reflexivity.
    + repeat split.
      * cbn [sum]. rewrite S. reflexivity.
      * intros d. cbn [best_to_prune]. unfold term at 1. cbn [nodesum ptr0 ptr1 is_null is_some].
        cbn [Z.gtb Z.compare andb negb ptr_term]. rewrite T. cbn [andb].
        rewrite B. reflexivity.
Qed.

(** X14.  The weight 0.  [add] of a key with the weight 0 to a freshly
    created tree returns, and leaves a tree whose sum is 0 and on which
    [prune()] does not return: the node of the key has no children and is
    not terminal, and the selector reads through its null [ptr0]. *)
Theorem zero_weight_then_prune ADDRBYTES maxnodes_ addr addrlen :
  wf_op ADDRBYTES (Add addr addrlen 0) ->
  exists t,
    add ADDRBYTES addr addrlen 0 (new_iptreet ADDRBYTES maxnodes_) = Ok t /\
    tree_sum t = 0 /\
    prune t = Err NullDeref.
Proof.
  intros _. unfold add.
  assert (P : prune_if_greater (maxnodes (new_iptreet ADDRBYTES maxnodes_))
                (new_iptreet ADDRBYTES maxnodes_) = Ok (new_iptreet ADDRBYTES maxnodes_)).
  { unfold prune_if_greater. destruct (_ >=? _); [|reflexivity].
    cbn [root new_iptreet node_count new_node Nat.add prune_while nodes maxnodes].
    destruct (Z.gtb_spec 0 (u64 (u64 maxnodes_ * 9) / 10)) as [G|]; [|reflexivity].
    pose proof (u64_range (u64 maxnodes_ * 9)).
    assert (0 <= u64 (u64 maxnodes_ * 9) / 10) by (apply Z.div_pos; lia). lia. }
  rewrite P. cbn [bind]. unfold cache_search.
  rewrite cache_search_from_no_ptrs by reflexivity.
  cbn [root new_iptreet].
  destruct (add_walk _ 0 addr 0 new_node) as [[[r created] up] ptr] eqn:W.
  destruct (add_walk_zero _ _ _ _ _ _ _ W) as (T & S & B).
  eexists. split; [reflexivity|]. unfold tree_sum, prune, cache_replace. cbn [root].
  rewrite T, B. auto.
Qed.

Lemma zero_weight_then_prune_witness :
  exists t,
    add 16 [10; 0; 0; 1] 4 0 (new_iptreet 16 DEFAULT_MAX_HISTOGRAM_SIZE) = Ok t /\
    tree_sum t = 0 /\
    prune t = Err NullDeref.
Proof.
  apply (zero_weight_then_prune 16 DEFAULT_MAX_HISTOGRAM_SIZE [10; 0; 0; 1] 4).
  cbn. repeat split; try lia. repeat constructor; unfold is_byte; lia.
Defined.

(** ** The dirty flags *)

Lemma marked_inv p0 p1 s d :
  marked (Node p0 p1 s d) = true ->
  (d = true \/ s = 0) /\
  (forall c, p0 = Some c -> (dirty c = true -> d = true) /\ marked c = true) /\
  (forall c, p1 = Some c -> (dirty c = true -> d = true) /\ marked c = true).
Proof.
  cbn [marked]. intros H.
  apply andb_prop in H. destruct H as (H & H1).
  apply andb_prop in H. destruct H as (Hd & H0).
  split; [|split].
  - destruct d; [auto|]. right. apply Z.eqb_eq. exact Hd.
  - intros c ->. apply andb_prop in H0. destruct H0 as (Hc & Hm).
    split; [|exact Hm]. intros Dc. rewrite Dc in Hc. destruct d; [reflexivity | discriminate].
  - intros c ->. apply andb_prop in H1. destruct H1 as (Hc & Hm).
    split; [|exact Hm]. intros Dc. rewrite Dc in Hc. destruct d; [reflexivity | discriminate].
Qed.

Lemma marked_intro p0 p1 s d :
  (d = true \/ s = 0) ->
  (forall c, p0 = Some c -> (dirty c = true -> d = true) /\ marked c = true) ->
  (forall c, p1 = Some c -> (dirty c = true -> d = true) /\ marked c = true) ->
  marked (Node p0 p1 s d) = true.
Proof.
  intros Hd H0 H1. cbn [marked].
  assert (E : d || (s =? 0) = true).
  { destruct Hd as [->| ->]; [reflexivity | apply orb_true_r]. }
  rewrite E. cbn [andb].
  assert (K : forall p, (forall c, p = Some c -> (dirty c = true -> d = true) /\ marked c = true) ->
              match p with Some c => (d || negb (dirty c)) && marked c | None => true end = true).
  { intros [c|] H; [|reflexivity]. destruct (H c eq_refl) as (Hc & ->).
    destruct d; [reflexivity|]. destruct (dirty c); [discriminate (Hc eq_refl) | reflexivity]. }
  rewrite (K p0 H0), (K p1 H1). reflexivity.
Qed.

Lemma marked_deref p : forall n m,
  marked n = true -> deref n p = Some m ->
  marked m = true /\ (dirty m = true -> dirty n = true).
Proof.
  induction p as [|b p IH]; intros [p0 p1 s d] m M D; cbn [deref] in D.
  - injection D as <-. auto.
  - destruct (marked_inv _ _ _ _ M) as (_ & H0 & H1). cbn [ptr0 ptr1 dirty] in *.
    destruct b.
    + destruct p1 as [c|]; [|discriminate]. destruct (H1 c eq_refl) as (Hc & Mc).
      destruct (IH c m Mc D). auto.
    + destruct p0 as [c|]; [|discriminate]. destruct (H0 c eq_refl) as (Hc & Mc).
      destruct (IH c m Mc D). auto.
Qed.

Lemma marked_count n : marked n = true -> nodesum n <> 0 -> dirty n = true.
Proof.
  destruct n as [p0 p1 s d]. intros M Hs.
  destruct (marked_inv _ _ _ _ M) as ([->|E] & _); [reflexivity | contradiction].
Qed.

Lemma add_at_marked p : forall n val n' up,
  marked n = true -> add_at n p val = Ok (n', up) ->
  marked n' = true /\ dirty n' = true /\ up = negb (dirty n).
Proof.
  induction p as [|b p IH]; intros [p0 p1 s d] val n' up M E; cbn [add_at] in E.
  - cbn in E. injection E as <- <-.
    destruct (marked_inv _ _ _ _ M) as (_ & H0 & H1).
    split; [|auto]. apply marked_intro; [auto| |].
    + intros c Ec. destruct (H0 c Ec). auto.
    + intros c Ec. destruct (H1 c Ec). auto.
  - destruct (marked_inv _ _ _ _ M) as (Hd & H0 & H1). destruct b.
    + destruct p1 as [c1|]; [|discriminate]. destruct (H1 c1 eq_refl) as (Hc & Mc).
      destruct (add_at c1 p val) as [[c' u]|] eqn:Ec; [|discriminate].
      destruct (IH _ _ _ _ Mc Ec) as (Mc' & Dc' & ->).
      cbn in E. injection E as <- <-. cbn [dirty].
      assert (Ed : d || negb (dirty c1) = true).
      { destruct (dirty c1); [rewrite Hc by reflexivity|]; auto using orb_true_r. }
      rewrite Ed. split; [|split; [reflexivity|]].
      * apply marked_intro; [auto| |].
        -- intros c E0. destruct (H0 c E0). auto.
        -- intros c E1. injection E1 as <-. auto.
      * destruct d; [apply andb_false_r|]. cbn in Ed. rewrite Ed. reflexivity.
    + destruct p0 as [c0|]; [|discriminate]. destruct (H0 c0 eq_refl) as (Hc & Mc).
      destruct (add_at c0 p val) as [[c' u]|] eqn:Ec; [|discriminate].
      destruct (IH _ _ _ _ Mc Ec) as (Mc' & Dc' & ->).
      cbn in E. injection E as <- <-. cbn [dirty].
      assert (Ed : d || negb (dirty c0) = true).
      { destruct (dirty c0); [rewrite Hc by reflexivity|]; auto using orb_true_r. }
      rewrite Ed. split; [|split; [reflexivity|]].
      * apply marked_intro; [auto| |].
        -- intros c E0. injection E0 as <-. auto.
        -- intros c E1. destruct (H1 c E1). auto.
      * destruct d; [apply andb_false_r|]. cbn in Ed. rewrite Ed. reflexivity.
Qed.

Lemma add_walk_marked bits : forall depth addr val n n' created up p,
  marked n = true -> add_walk bits depth addr val n = (n', created, up, p) ->
  marked n' = true /\ dirty n' = true /\ up = negb (dirty n).
Proof.
  induction bits as [|bits IH]; intros depth addr val [p0 p1 s d] n' created up p M E;
    cbn [add_walk] in E.
  - cbn in E. injection E as <- _ <- _.
    destruct (marked_inv _ _ _ _ M) as (_ & H0 & H1).
    split; [|auto]. apply marked_intro; [auto| |].
    + intros c Ec. destruct (H0 c Ec). auto.
    + intros c Ec. destruct (H1 c Ec). auto.
  - destruct (marked_inv _ _ _ _ M) as (Hd & H0 & H1).
    destruct (bit addr depth).
    + set (c1 := match p1 with Some c => c | None => new_node end) in *.
      assert (K : (dirty c1 = true -> d = true) /\ marked c1 = true).
      { subst c1. destruct p1 as [c|]; [apply (H1 c eq_refl)|].
        split; [discriminate | reflexivity]. }
      destruct K as (Hc & Mc).
      destruct (add_walk bits (depth + 1) addr val c1) as [[[c' cr] u] q] eqn:Ew.
      destruct (IH _ _ _ _ _ _ _ _ Mc Ew) as (Mc' & Dc' & ->).
      assert (H : n' = Node p0 (Some c') s (d || negb (dirty c1)) /\
                  up = negb (dirty c1) && negb d).
      { subst c1. destruct p1; rewrite Ew in E; injection E as <- _ <- _; split; reflexivity. }
      destruct H as (-> & ->). cbn [dirty].
      assert (Ed : d || negb (dirty c1) = true).
      { destruct (dirty c1); [rewrite Hc by reflexivity|]; auto using orb_true_r. }
      rewrite Ed. split; [|split; [reflexivity|]].
      * apply marked_intro; [auto| |].
        -- intros c E0. destruct (H0 c E0). auto.
        -- intros c E1. injection E1 as <-. auto.
      * destruct d; [apply andb_false_r|]. cbn in Ed. rewrite Ed. reflexivity.
    + set (c0 := match p0 with Some c => c | None => new_node end) in *.
      assert (K : (dirty c0 = true -> d = true) /\ marked c0 = true).
      { subst c0. destruct p0 as [c|]; [apply (H0 c eq_refl)|].
        split; [discriminate | reflexivity]. }
      destruct K as (Hc & Mc).
      destruct (add_walk bits (depth + 1) addr val c0) as [[[c' cr] u] q] eqn:Ew.
      destruct (IH _ _ _ _ _ _ _ _ Mc Ew) as (Mc' & Dc' & ->).
      assert (H : n' = Node (Some c') p1 s (d || negb (dirty c0)) /\
                  up = negb (dirty c0) && negb d).
      { subst c0. destruct p0; rewrite Ew in E; injection E as <- _ <- _; split; reflexivity. }
      destruct H as (-> & ->). cbn [dirty].
      assert (Ed : d || negb (dirty c0) = true).
      { destruct (dirty c0); [rewrite Hc by reflexivity|]; auto using orb_true_r. }
      rewrite Ed. split; [|split; [reflexivity|]].
      * apply marked_intro; [auto| |].
        -- intros c E0. injection E0 as <-. auto.
        -- intros c E1. destruct (H1 c E1). auto.
      * destruct d; [apply andb_false_r|]. cbn in Ed. rewrite Ed. reflexivity.
Qed.

Lemma replace_at_marked p : forall n m m',
  marked n = true -> deref n p = Some m ->
  marked m' = true -> dirty m' = dirty m ->
  marked (replace_at n p m') = true /\ dirty (replace_at n p m') = dirty n.
Proof.
  induction p as [|b p IH]; intros [p0 p1 s d] m m' M D M' Ed; cbn [deref replace_at] in *.
  - injection D as <-. auto.
  - destruct (marked_inv _ _ _ _ M) as (Hd & H0 & H1). cbn [ptr0 ptr1] in D.
    destruct b.
    + destruct p1 as [c|]; [|discriminate]. destruct (H1 c eq_refl) as (Hc & Mc).
      destruct (IH c m m' Mc D M' Ed) as (Mr & Dr).
      split; [|reflexivity]. apply marked_intro; [auto| |].
      * intros c0 E0. apply (H0 c0 E0).
      * intros c1 E1. injection E1 as <-. rewrite Dr. auto.
    + destruct p0 as [c|]; [|discriminate]. destruct (H0 c eq_refl) as (Hc & Mc).
      destruct (IH c m m' Mc D M' Ed) as (Mr & Dr).
      split; [|reflexivity]. apply marked_intro; [auto| |].
      * intros c0 E0. injection E0 as <-. rewrite Dr. auto.
      * intros c1 E1. apply (H1 c1 E1).
Qed.

Lemma pruned_node_marked m :
  marked m = true ->
  (forall c, ptr0 m = Some c -> term c = true) ->
  (forall c, ptr1 m = Some c -> term c = true) ->
  marked (pruned_node m) = true /\ dirty (pruned_node m) = dirty m.
Proof.
  destruct m as [p0 p1 s d]. cbn [ptr0 ptr1 pruned_node dirty]. intros M T0 T1.
  split; [|reflexivity].
  destruct (marked_inv _ _ _ _ M) as (Hd & H0 & H1).
  assert (K : forall c, term c = true -> marked c = true -> dirty c = true).
  { intros c T Mc. apply marked_count; [exact Mc|].
    destruct (term_inv c T) as (x & y & -> & Hx). cbn. lia. }
  apply marked_intro; try (intros c Ec; discriminate Ec).
  destruct p0 as [c0|].
  - left. destruct (H0 c0 eq_refl) as (Hc & Mc). apply Hc, K; auto.
  - destruct p1 as [c1|]; [|exact Hd].
    left. destruct (H1 c1 eq_refl) as (Hc & Mc). apply Hc, K; auto.
Qed.

Lemma run_marked ADDRBYTES ops t t' :
  run ADDRBYTES ops t = Ok t' -> marked (root t) = true -> marked (root t') = true.
Proof.
  apply (run_invariant ADDRBYTES (fun n => marked n = true) (8 * ADDRBYTES)).
  - intros n p m M D T0 T1.
    destruct (marked_deref _ _ _ M D) as (Mm & _).
    destruct (pruned_node_marked m Mm T0 T1) as (Mp & Dp).
    apply (replace_at_marked p n m (pruned_node m) M D Mp Dp).
  - intros n p val n' up M A. apply (add_at_marked _ _ _ _ _ M A).
  - intros bits addr val n n' created up p _ M A. apply (add_walk_marked _ _ _ _ _ _ _ _ _ M A).
  - apply key_bits_bound.
Qed.

(** X15.  The dirty flags.  In every state a sequence of calls has reached,
    every node on the way from the root to a node that is dirty or has a
    count is dirty, that node included: [set_dirty] can stop at the first
    dirty node because the nodes above it are dirty already. *)
Theorem dirty_up_to_the_root ADDRBYTES maxnodes_ ops t q r m :
  run ADDRBYTES ops (new_iptreet ADDRBYTES maxnodes_) = Ok t ->
  deref (root t) (q ++ r) = Some m ->
  dirty m = true \/ nodesum m <> 0 ->
  exists a, deref (root t) q = Some a /\ dirty a = true.
Proof.
  intros E D H.
  pose proof (run_marked _ _ _ _ E eq_refl) as M.
  rewrite deref_app in D.
  destruct (deref (root t) q) as [a|] eqn:Da; [|discriminate].
  exists a. split; [reflexivity|].
  destruct (marked_deref _ _ _ M Da) as (Ma & _).
  destruct (marked_deref _ _ _ Ma D) as (Mm & Up).
  apply Up. destruct H as [H|H]; [exact H | apply marked_count; assumption].
Qed.

Lemma dirty_up_to_the_root_witness :
  exists a, deref (root mixed_tree) [] = Some a /\ dirty a = true.
Proof.
  destruct (deref (root mixed_tree) (prefix_path [1; 2; 3; 4] 32)) as [m|] eqn:D;
    [|discriminate D].
  apply (dirty_up_to_the_root 16 40 mixed_ops mixed_tree []
           (prefix_path [1; 2; 3; 4] 32) m mixed_ops_run D).
  right. vm_compute in D. injection D as <-. discriminate.
Defined.

(** ** Positive weights *)

Lemma nodesum_le_msum m : ranged m -> 0 <= nodesum m <= msum m.
Proof.
  destruct m as [p0 p1 s d]. cbn [ranged nodesum msum]. intros (Hs & R0 & R1).
  assert (0 <= match p0 with Some c => msum c | None => 0 end).
  { destruct p0; [apply msum_nonneg; assumption | lia]. }
  assert (0 <= match p1 with Some c => msum c | None => 0 end).
  { destruct p1; [apply msum_nonneg; assumption | lia]. }
  lia.
Qed.

(** X16.  Positive weights.  When the calls are well formed, the weights
    are positive and add up to less than 2^64, and [prune()] is not called
    before the first [add], then in every state that is reached every node
    without children, the root apart, is terminal; no count and no [sum()]
    of a subtree exceeds the weight that was added; and once something was
    added [prune()] returns. *)
Theorem positive_weights_keep_leaves_terminal ADDRBYTES maxnodes_ ops t :
  Forall (wf_op ADDRBYTES) ops -> Forall positive_op ops ->
  total_weight ops < two64 -> no_prune_on_empty ops ->
  run ADDRBYTES ops (new_iptreet ADDRBYTES maxnodes_) = Ok t ->
  (forall p m, deref (root t) p = Some m -> p <> [] -> children m = 0 ->
               term m = true) /\
  (forall p m, deref (root t) p = Some m ->
               0 <= nodesum m <= sum m /\ sum m <= total_weight ops) /\
  (0 < total_weight ops -> exists r t', prune t = Ok (r, t')).
Proof.
  intros Wf Pos Ho Np E.
  destruct (run_sound ADDRBYTES ops (new_iptreet ADDRBYTES maxnodes_) 0 Wf Pos
              ltac:(lia) (new_iptreet_cache_ok _ _) (new_iptreet_sound _ _)
              (or_intror Np)) as (t0 & E0 & (R & M & L)).
  assert (t0 = t) by congruence. subst t0. cbn in M.
  pose proof (total_weight_nonneg ops Pos) as Hw.
  split; [|split].
  - intros p m D Hp Hc. destruct L as [L|(Er & _)].
    + pose proof (deref_leaves_term _ _ _ L D) as Lm.
      destruct m as [p0 p1 s d]. unfold children in Hc. cbn [ptr0 ptr1] in Hc.
      destruct p0, p1; cbn [is_some] in Hc; try lia.
      cbn [leaves_term] in Lm. unfold term. cbn [nodesum ptr0 ptr1 is_null is_some negb].
      rewrite Lm. reflexivity.
    + rewrite Er in D. destruct p as [|[] p]; [contradiction | discriminate | discriminate].
  - intros p m D.
    pose proof (deref_ranged _ _ _ R D) as Rm.
    pose proof (deref_msum_le _ _ _ R D) as Hle.
    pose proof (nodesum_le_msum m Rm) as Hn.
    rewrite sum_msum, u64_small by (try exact Rm; lia). lia.
  - intros Hpos. destruct L as [L|(Er & _)].
    + destruct (prune_full t (total_weight ops) Ho) as (r & t' & P & _);
        [repeat split; assumption | eauto].
    + rewrite Er in M. cbn in M. lia.
Qed.

Lemma positive_weights_keep_leaves_terminal_witness :
  (forall p m, deref (root mixed_tree) p = Some m -> p <> [] -> children m = 0 ->
               term m = true) /\
  (forall p m, deref (root mixed_tree) p = Some m ->
               0 <= nodesum m <= sum m /\ sum m <= total_weight mixed_ops) /\
  (0 < total_weight mixed_ops -> exists r t', prune mixed_tree = Ok (r, t')).
Proof.
  apply (positive_weights_keep_leaves_terminal 16 40 mixed_ops mixed_tree
           mixed_ops_wf mixed_ops_positive).
  - reflexivity.
  - exact I.
  - exact mixed_ops_run.
Defined.

(** ** What [prune_if_greater] leaves *)

(** X17.  [prune_if_greater] does nothing while the tree is below the
    ceiling it was created with.  At the ceiling or above it prunes until
    [size()] is at most 90% of the ceiling, or until the root is the only
    node left; the ceiling itself does not change, and in both cases
    [size()] is at most the ceiling afterwards. *)
Theorem prune_if_greater_leaves_ninety_percent ADDRBYTES maxnodes_ ops t limit t' :
  run ADDRBYTES ops (new_iptreet ADDRBYTES maxnodes_) = Ok t ->
  prune_if_greater limit t = Ok t' ->
  maxnodes t' = maxnodes t /\
  size t' <= maxnodes t /\
  (size t < maxnodes t -> t' = t) /\
  (maxnodes t <= size t ->
   size t' <= u64 (maxnodes t * 9) / 10 \/
   (size t' = 0 /\ term (root t') = true)).
Proof.
  intros R P.
  destruct (run_counted _ _ _ _ (u64 maxnodes_) R) as (C & M);
    [split; reflexivity|].
  assert (Hm : 0 <= maxnodes t < two64) by (rewrite M; apply u64_range).
  pose proof (prune_if_greater_keeps counted node_prune_counted _ _ _ P C) as C'.
  unfold prune_if_greater in P. unfold size.
  assert (T0 : term (root t') = true -> nodes t' = 0).
  { intros T. unfold counted in C'. rewrite (term_node_count _ T) in C'.
    rewrite C'. reflexivity. }
  destruct (Z.geb_spec (nodes t) (maxnodes t)) as [G|L].
  - destruct (prune_while_bound _ _ _ P) as (Hm' & Hb).
    pose proof (ninety_percent _ Hm).
    split; [exact Hm'|]. split; [|split].
    + destruct Hb as [Hb|T]; [lia | rewrite (T0 T); lia].
    + lia.
    + intros _. destruct Hb as [Hb|T]; [left; exact Hb | right; auto].
  - injection P as <-. split; [reflexivity|]. split; [lia|]. split; [reflexivity | lia].
Qed.

Lemma prune_if_greater_leaves_ninety_percent_witness :
  maxnodes crowded_pruned = maxnodes crowded_tree /\
  size crowded_pruned <= maxnodes crowded_tree /\
  (size crowded_tree < maxnodes crowded_tree -> crowded_pruned = crowded_tree) /\
  (maxnodes crowded_tree <= size crowded_tree ->
   size crowded_pruned <= u64 (maxnodes crowded_tree * 9) / 10 \/
   (size crowded_pruned = 0 /\ term (root crowded_pruned) = true)).
Proof.
  apply (prune_if_greater_leaves_ninety_percent 16 10 crowded_ops crowded_tree 0
           crowded_pruned).
  - reflexivity.
  - reflexivity.
Defined.
